(** * navis.interfaces.nrn: compartment models built from skeletons

    A shallow embedding of [NeuronCompartmentModel] (src/navis/interfaces/nrn.py):
    skeleton validation, section building, the node -> (section, position)
    addressing, and the instrumentation registries.

    Numbers.  Lengths, radii and positions are floats in the source.  They
    are modelled as exact rationals ([Q]); the float behaviour kept is
    numpy's division by zero, which yields [nan] or an infinity instead of
    raising, and the values a radius column can hold besides numbers ([nan]
    for a missing radius, the infinities).  Rounding is outside the model. *)

From Stdlib Require Import ZArith QArith Qround Lia Lqa.
From stdpp Require Import base option list gmap strings.

Set Default Proof Using "Type".
Local Open Scope Z_scope.
Local Open Scope nat_scope.

(** ** Exceptions and the result monad *)

Inductive exn : Type :=
| KeyError
| IndexError
| TypeError
| ValueError (msg : string)
| ZeroDivisionError.

Inductive result (A : Type) : Type :=
| Ok (a : A)
| Raise (e : exn).
Arguments Ok {A} a.
Arguments Raise {A} e.

Definition rbind {A B} (c : result A) (k : A -> result B) : result B :=
  match c with
  | Ok a => k a
  | Raise e => Raise e
  end.

#[global] Instance result_ret : MRet result := fun A a => Ok a.
#[global] Instance result_bind : MBind result := fun A B k c => rbind c k.

Fixpoint rmapM {A B} (f : A -> result B) (l : list A) : result (list B) :=
  match l with
  | [] => Ok []
  | a :: t => b ← f a; bs ← rmapM f t; Ok (b :: bs)
  end.

Definition of_option {A} (e : exn) (o : option A) : result A :=
  match o with
  | Some a => Ok a
  | None => Raise e
  end.

(** ** numpy floats, idealised *)

Inductive npfloat : Type :=
| Num (q : Q)
| NaN
| PInf
| NInf.

(** [x / s] on numpy arrays: no exception on a zero divisor. *)
Definition np_div (x s : Q) : npfloat :=
  if Qeq_bool s 0 then
    if Qeq_bool x 0 then NaN
    else if Qle_bool 0 x then PInf else NInf
  else Num (x / s).

(** [dist.cumsum()] *)
Fixpoint cumsum_from (acc : Q) (l : list Q) : list Q :=
  match l with
  | [] => []
  | x :: t => (acc + x)%Q :: cumsum_from (acc + x)%Q t
  end.

Definition cumsum (l : list Q) : list Q := cumsum_from 0 l.

(** [dist.sum()] *)
Definition qsum (l : list Q) : Q := fold_right Qplus 0%Q l.

(** Python's [int(x)] on a finite float: truncation toward zero. *)
Definition py_int (q : Q) : Z := Z.quot (Qnum q) (Zpos (Qden q)).

(** Equality and bounds on positions. *)
Definition np_eq (a b : npfloat) : Prop :=
  match a, b with
  | Num x, Num y => (x == y)%Q
  | NaN, NaN => False
  | PInf, PInf => True
  | NInf, NInf => True
  | _, _ => False
  end.

Definition in_unit_interval (a : npfloat) : Prop :=
  match a with
  | Num x => (0 <= x)%Q /\ (x <= 1)%Q
  | _ => False
  end.

(** [a <= 0] on a numpy float: a comparison with [nan] is false. *)
Definition np_le0 (a : npfloat) : bool :=
  match a with
  | Num x => Qle_bool x 0
  | NInf => true
  | NaN | PInf => false
  end.

Definition np_isnan (a : npfloat) : bool :=
  match a with
  | NaN => true
  | _ => false
  end.

Definition np_finite (a : npfloat) : option Q :=
  match a with
  | Num x => Some x
  | _ => None
  end.

(** [Series.mean()]: pandas leaves the missing values out ([skipna]); the
    mean of nothing is [nan], and opposite infinities cancel to [nan]. *)
Definition pd_mean (l : list npfloat) : npfloat :=
  let vals := List.filter (fun a => negb (np_isnan a)) l in
  let pinf := existsb (fun a => match a with PInf => true | _ => false end) vals in
  let ninf := existsb (fun a => match a with NInf => true | _ => false end) vals in
  if pinf then (if ninf then NaN else PInf)
  else if ninf then NInf
  else np_div (qsum (omap np_finite vals)) (inject_Z (Z.of_nat (length vals))).

(** ** The skeleton *)

(** One row of the node table.  [radius] is a float column: it can hold
    [nan] (a missing radius) and the infinities.  [weight] is the weight of
    the graph edge from this node to its parent,
    [G.edges[(node_id, parent_id)]['weight']]; it is unused on a root. *)
Record node_row : Type := {
  node_id : Z;
  parent_id : option Z;
  radius : npfloat;
  weight : Q;
}.

Inductive unit_tag : Type :=
| NoUnits
| Dimensionless
| Units (name : string).

Record TreeNeuron : Type := {
  nodes : list node_row;
  (** ['radius' in nodes.columns] *)
  radius_column : bool;
  units : unit_tag;
}.

Definition has_id (n : Z) (r : node_row) : bool := Z.eqb (node_id r) n.

Definition has_parent (p : Z) (r : node_row) : bool :=
  match parent_id r with
  | Some q => Z.eqb q p
  | None => false
  end.

Definition is_root_row (r : node_row) : bool :=
  match parent_id r with
  | Some _ => false
  | None => true
  end.

Definition node_ids (x : TreeNeuron) : list Z := map node_id (nodes x).

(** [skeleton.root]: the ids of the parentless nodes. *)
Definition root (x : TreeNeuron) : list Z :=
  map node_id (List.filter (fun r => is_root_row r) (nodes x)).

Definition in_list (n : Z) (l : list Z) : bool := existsb (Z.eqb n) l.

Definition find_row (x : TreeNeuron) (n : Z) : option node_row :=
  find (has_id n) (nodes x).

Definition n_children (x : TreeNeuron) (n : Z) : nat :=
  length (List.filter (fun r => has_parent n r) (nodes x)).

(** [G.edges[(c, p)]['weight']] *)
Definition edge_weight (x : TreeNeuron) (cp : Z * Z) : result Q :=
  match find (fun r => has_id (fst cp) r && has_parent (snd cp) r) (nodes x) with
  | Some r => Ok (weight r)
  | None => Raise KeyError
  end.

(** Modelled from the spec: [skeleton.small_segments] is not part of the
    sources at hand.  The spec decomposes the skeleton into maximal
    unbranched chains: a node with exactly one child belongs to the chain of
    that child; nodes with no or several children, and roots, start or
    terminate chains.  So a chain starts at a leaf or at a branch point and
    follows the parent links until it meets the next branch point or a root;
    a root without children is a leaf as well and a chain of its own (a
    linear chain of N nodes is one chain, also for N = 1).  Chains are
    listed child -> parent, which is the order [_generate_sections]
    consumes.  The walk is bounded by the number of nodes, which is enough on
    a tree. *)
Definition is_stop (x : TreeNeuron) (n : Z) : bool :=
  in_list n (root x) || negb (Nat.eqb (n_children x n) 1).

Definition is_seed (x : TreeNeuron) (r : node_row) : bool :=
  negb (Nat.eqb (n_children x (node_id r)) 1) &&
  (negb (is_root_row r) || Nat.eqb (n_children x (node_id r)) 0).

Fixpoint walk_up (x : TreeNeuron) (fuel : nat) (p : Z) : list Z :=
  match fuel with
  | O => [p]
  | S f =>
      if is_stop x p then [p]
      else match find_row x p with
           | Some r =>
               match parent_id r with
               | Some q => p :: walk_up x f q
               | None => [p]
               end
           | None => [p]
           end
  end.

Definition chain_of (x : TreeNeuron) (r : node_row) : list Z :=
  match parent_id r with
  | Some p => node_id r :: walk_up x (length (nodes x)) p
  | None => [node_id r]
  end.

Definition small_segments (x : TreeNeuron) : list (list Z) :=
  map (chain_of x) (List.filter (fun r => is_seed x r) (nodes x)).

(** Modelled from the spec: [graph.segment_length] is not part of the
    sources at hand; the spec gives a Section's length as the sum of its
    Segment's edge weights. *)
Definition segment_length (x : TreeNeuron) (seg : list Z) : result Q :=
  ws ← rmapM (edge_weight x) (zip (removelast seg) (tail seg));
  Ok (qsum ws).

(** ** Validation *)

Inductive warning : Type :=
| WarnUnits
| WarnMultipleRoots.

Definition um : string := "um".

(** [_validate_skeleton]: the warnings logged, and whether it raised. *)
Definition _validate_skeleton (x : TreeNeuron) : list warning * result unit :=
  let w_units :=
    match units x with
    | Units name => if String.eqb name um then [] else [WarnUnits]
    | _ => []
    end in
  let w_roots := if Nat.ltb 1 (length (root x)) then [WarnMultipleRoots] else [] in
  (w_units ++ w_roots,
   if negb (radius_column x) then
     Raise (ValueError "Neuron node table must have `radius` column")
   else if existsb (fun r => np_le0 (radius r)) (nodes x) then
     Raise (ValueError "Neuron node table contains radii <= 0.")
   else Ok tt).

(** ** Sections *)

(** A NEURON section as far as this module sets it up.  [parentseg] is the
    (section index, position) the proximal end is connected to;
    [mechanisms] maps an inserted mechanism to its per-segment parameters. *)
Record Section : Type := {
  L : Q;
  diam : npfloat;
  nseg : Z;
  parentseg : option (nat * Q);
  mechanisms : gmap string (list (gmap string Q));
}.

(** [child.connect(parent)]: NEURON attaches the child's 0 end to the
    parent's 1 end when no position is passed. *)
Definition connect (child : Section) (parent_ix : nat) : Section :=
  {| L := L child; diam := diam child; nseg := nseg child;
     parentseg := Some (parent_ix, 1%Q);
     mechanisms := mechanisms child |}.

(** A node table row with the [sec_ix] and [sec_pos] columns added.
    [Series.map] leaves a missing key as NaN. *)
Record located_row : Type := {
  row : node_row;
  sec_ix : option nat;
  sec_pos : npfloat;
}.

(** [d.update(dict(zip(keys, values)))] *)
Definition dict_update {V} (d : gmap Z V) (kvs : list (Z * V)) : gmap Z V :=
  fold_left (fun acc kv => <[fst kv := snd kv]> acc) kvs d.

Fixpoint rfold_enum {A St} (f : St -> nat -> A -> result St)
    (i : nat) (l : list A) (s : St) : result St :=
  match l with
  | [] => Ok s
  | a :: t => s' ← f s i a; rfold_enum f (S i) t s'
  end.

(** The nodes one segment maps, parent -> child, with their positions. *)
Definition segment_positions (x : TreeNeuron) (seg : list Z)
  : result (list Z * list npfloat) :=
  dist ← rmapM (edge_weight x) (zip (removelast seg) (tail seg));
  let dist := rev dist in
  let seg := rev seg in
  let dist := 0%Q :: dist in
  let norm_pos := map (fun c => np_div c (qsum dist)) (cumsum dist) in
  h ← of_option IndexError (head seg);
  if in_list h (root x) then Ok (seg, norm_pos)
  else Ok (tail seg, tail norm_pos).

(** First loop of [_generate_sections]: node2sec and node2pos. *)
Definition locate_segment (x : TreeNeuron)
    (st : gmap Z nat * gmap Z npfloat) (i : nat) (seg : list Z)
  : result (gmap Z nat * gmap Z npfloat) :=
  sp ← segment_positions x seg;
  Ok (dict_update (fst st) (zip (fst sp) (replicate (length (fst sp)) i)),
      dict_update (snd st) (zip (fst sp) (snd sp))).

Definition locate_nodes (x : TreeNeuron) : result (gmap Z nat * gmap Z npfloat) :=
  rfold_enum (locate_segment x) 0 (small_segments x) (∅, ∅).

Definition add_location_columns (x : TreeNeuron)
    (maps : gmap Z nat * gmap Z npfloat) : list located_row :=
  map (fun r =>
         {| row := r;
            sec_ix := fst maps !! node_id r;
            sec_pos := default NaN (snd maps !! node_id r) |})
      (nodes x).

Definition np_scale (k : Q) (a : npfloat) : npfloat :=
  match a with
  | Num q => Num (q * k)
  | other => other
  end.

(** Python float division.  The quotient is exact here; the source rounds
    it to a double. *)
Definition py_div (a b : Q) : result Q :=
  if Qeq_bool b 0 then Raise ZeroDivisionError else Ok (a / b)%Q.

(** Second loop: one section per segment. *)
Definition build_section (x : TreeNeuron) (res : Q) (seg : list Z) : result Section :=
  len ← segment_length x seg;
  radii ← rmapM (fun n => of_option KeyError (radius <$> find_row x n)) seg;
  let mean := pd_mean radii in
  q ← py_div len (res * 2);
  Ok {| L := len;
        diam := np_scale 2 mean;
        nseg := (1 + 2 * py_int q)%Z;
        parentseg := None;
        mechanisms := ∅ |}.

(** [self.sections[v]] for [v] read from the [sec_ix] column.  A column
    with a missing entry is a float column, and a float is not an index:
    a numpy array raises IndexError on it, a Python list TypeError. *)
Definition sec_ix_is_int (tbl : list located_row) : bool :=
  forallb (fun r => bool_decide (is_Some (sec_ix r))) tbl.

Definition index_sections (ndarray : bool) (tbl : list located_row)
    (secs : list Section) (v : option nat) : result (nat * Section) :=
  if sec_ix_is_int tbl then
    j ← of_option IndexError v;
    s ← of_option IndexError (secs !! j);
    Ok (j, s)
  else Raise (if ndarray then IndexError else TypeError).

Definition loc (tbl : list located_row) (n : Z) : result located_row :=
  of_option KeyError (find (fun r => has_id n (row r)) tbl).

(** Third loop: connect every non-root section to its parent section. *)
Definition connect_segment (x : TreeNeuron) (tbl : list located_row)
    (secs : list Section) (i : nat) (seg : list Z) : result (list Section) :=
  p ← of_option IndexError (last seg);
  if in_list p (root x) then Ok secs
  else
    parent ← loc tbl p;
    parent_sec ← index_sections true tbl secs (sec_ix parent);
    child ← of_option IndexError (secs !! i);
    Ok (<[i := connect child (fst parent_sec)]> secs).

Record generated : Type := {
  g_nodes : list located_row;
  g_sections : list Section;
}.

Definition _generate_sections (x : TreeNeuron) (res : Q) : result generated :=
  maps ← locate_nodes x;
  let tbl := add_location_columns x maps in
  secs ← rmapM (build_section x res) (small_segments x);
  secs ← rfold_enum (connect_segment x tbl) 0 (small_segments x) secs;
  Ok {| g_nodes := tbl; g_sections := secs |}.

(** ** Sample skeletons *)

Definition mk_row (n : Z) (p : option Z) (w : Q) : node_row :=
  {| node_id := n; parent_id := p; radius := Num 1; weight := w |}.

Definition mk_neuron (rows : list node_row) : TreeNeuron :=
  {| nodes := rows; radius_column := true; units := Units um |}.

(** root 1 -> branch 2 -> leaves 3 and 4 *)
Definition y_skeleton : TreeNeuron :=
  mk_neuron [mk_row 1 None 0; mk_row 2 (Some 1%Z) 3;
             mk_row 3 (Some 2%Z) 1; mk_row 4 (Some 2%Z) 2].

(** root 1 -> mid 2 -> leaf 3, unit edges *)
Definition line_skeleton : TreeNeuron :=
  mk_neuron [mk_row 1 None 0; mk_row 2 (Some 1%Z) 1; mk_row 3 (Some 2%Z) 1].

(** a single parentless node *)
Definition point_skeleton : TreeNeuron := mk_neuron [mk_row 1 None 0].

(** root 1 and child 2 at the same place: the edge has weight 0 *)
Definition flat_skeleton : TreeNeuron :=
  mk_neuron [mk_row 1 None 0; mk_row 2 (Some 1%Z) 0].

(** root 1 with the two leaves 2 and 3 *)
Definition v_skeleton : TreeNeuron :=
  mk_neuron [mk_row 1 None 0; mk_row 2 (Some 1%Z) 1; mk_row 3 (Some 1%Z) 2].

(** root 1 -> leaf 2, the leaf's radius missing *)
Definition nan_radius_skeleton : TreeNeuron :=
  mk_neuron [mk_row 1 None 0;
             {| node_id := 2; parent_id := Some 1%Z; radius := NaN; weight := 1 |}].

(** two fragments, 1 -> 2 and 3 -> 4, in nanometres *)
Definition two_fragment_skeleton : TreeNeuron :=
  {| nodes := [mk_row 1 None 0; mk_row 2 (Some 1%Z) 1;
               mk_row 3 None 0; mk_row 4 (Some 3%Z) 1];
     radius_column := true; units := Units "nm" |}.

(** ** The model and its registries *)

(** A trace recorder, [neuron.h.Vector().record(getattr(seg, what))].  NEURON
    resolves the name [what] on the segment; which names exist there is
    NEURON's business and is not modelled. *)
Record recorder : Type := {
  rec_handle : nat;
  rec_seg : nat * npfloat;
  rec_ref : string;
}.

(** The NEURON objects the registries hold.  The handle is the identity of
    the object: two values with one handle are one object. *)
Inductive hobject : Type :=
| NetStim (h : nat) (number start noise interval : Q)
| Exp2Syn (h : nat) (seg : nat * npfloat) (tau1 tau2 e i : Q)
| NetCon (h : nat) (source target : nat) (threshold delay cn_weight : Q)
| PointProcess (h : nat) (kind : string) (seg : nat * npfloat)
               (attrs : list (string * Q))
| Vector (r : recorder).

Definition is_NetStim (o : hobject) : bool :=
  match o with
  | NetStim _ _ _ _ _ => true
  | _ => false
  end.

Definition handle_of (o : hobject) : nat :=
  match o with
  | NetStim h _ _ _ _ => h
  | Exp2Syn h _ _ _ _ _ => h
  | NetCon h _ _ _ _ _ => h
  | PointProcess h _ _ _ => h
  | Vector r => rec_handle r
  end.

(** [NeuronCompartmentModel].  [nrn_created] lists the objects created in
    NEURON on behalf of this model, oldest first; [next_handle] is the next
    free handle. *)
Record Model : Type := {
  skeleton_nodes : list located_row;
  _sections : list Section;
  (** [self._sections] is a numpy array once [_generate_sections] has run,
      and a Python list again after [clear] *)
  sections_ndarray : bool;
  _stimuli : gmap Z (list hobject);
  _records : gmap (string + Z) recorder;
  _synapses : gmap Z (list hobject);
  next_handle : nat;
  nrn_created : list hobject;
}.

Definition set_sections (secs : list Section) (m : Model) : Model :=
  {| skeleton_nodes := skeleton_nodes m; _sections := secs;
     sections_ndarray := sections_ndarray m;
     _stimuli := _stimuli m; _records := _records m; _synapses := _synapses m;
     next_handle := next_handle m; nrn_created := nrn_created m |}.

Definition set_stimuli (d : gmap Z (list hobject)) (m : Model) : Model :=
  {| skeleton_nodes := skeleton_nodes m; _sections := _sections m;
     sections_ndarray := sections_ndarray m;
     _stimuli := d; _records := _records m; _synapses := _synapses m;
     next_handle := next_handle m; nrn_created := nrn_created m |}.

Definition set_records (d : gmap (string + Z) recorder) (m : Model) : Model :=
  {| skeleton_nodes := skeleton_nodes m; _sections := _sections m;
     sections_ndarray := sections_ndarray m;
     _stimuli := _stimuli m; _records := d; _synapses := _synapses m;
     next_handle := next_handle m; nrn_created := nrn_created m |}.

Definition set_synapses (d : gmap Z (list hobject)) (m : Model) : Model :=
  {| skeleton_nodes := skeleton_nodes m; _sections := _sections m;
     sections_ndarray := sections_ndarray m;
     _stimuli := _stimuli m; _records := _records m; _synapses := d;
     next_handle := next_handle m; nrn_created := nrn_created m |}.

(** Create objects in NEURON: the handles advance and the objects are logged. *)
Definition allocate (n : nat) (objs : list hobject) (m : Model) : Model :=
  {| skeleton_nodes := skeleton_nodes m; _sections := _sections m;
     sections_ndarray := sections_ndarray m;
     _stimuli := _stimuli m; _records := _records m; _synapses := _synapses m;
     next_handle := n + next_handle m; nrn_created := nrn_created m ++ objs |}.

(** [__init__]: validate, build the sections, start with empty registries. *)
Definition __init__ (x : TreeNeuron) (res : Q) : list warning * result Model :=
  let v := _validate_skeleton x in
  (fst v,
   _ ← snd v;
   g ← _generate_sections x res;
   Ok {| skeleton_nodes := g_nodes g; _sections := g_sections g;
         sections_ndarray := true;
         _stimuli := ∅; _records := ∅; _synapses := ∅;
         next_handle := 0; nrn_created := [] |}).

(** [nodes.loc[where]]: the rows of the listed ids, in order; a missing id
    raises before any row is handed out.  [where_] is already a list
    ([utils.make_iterable] wraps a single id). *)
Definition loc_rows (tbl : list located_row) (where_ : list Z)
  : result (list located_row) :=
  rs ← rmapM (fun n =>
                match List.filter (fun r => has_id n (row r)) tbl with
                | [] => Raise KeyError
                | l => Ok l
                end) where_;
  Ok (concat rs).

(** [self.sections[node.sec_ix](node.sec_pos)] *)
Definition segment_at (m : Model) (node : located_row) : result (nat * npfloat) :=
  js ← index_sections (sections_ndarray m) (skeleton_nodes m) (_sections m)
                      (sec_ix node);
  Ok (fst js, sec_pos node).

(** [d[k] = d.get(k, []) + new] *)
Definition dict_append (d : gmap Z (list hobject)) (k : Z) (new : list hobject)
  : gmap Z (list hobject) :=
  <[k := default [] (d !! k) ++ new]> d.

(** *** Synaptic input *)

Record spike_params : Type := {
  start : Q; spike_no : Q; spike_int : Q; spike_noise : Q;
  syn_tau1 : Q; syn_tau2 : Q; syn_rev_pot : Q; syn_curr : Q;
  cn_thresh : Q; cn_delay : Q; cn_weight0 : Q;
}.

Fixpoint synaptic_input_loop (ps : spike_params) (stim : hobject)
    (rows : list located_row) (m : Model) : Model * result unit :=
  match rows with
  | [] => (m, Ok tt)
  | node :: rest =>
      match segment_at m node with
      | Raise e => (m, Raise e)
      | Ok seg =>
          let syn := Exp2Syn (next_handle m) seg (syn_tau1 ps) (syn_tau2 ps)
                             (syn_rev_pot ps) (syn_curr ps) in
          let m := allocate 1 [syn] m in
          let m := set_synapses
                     (dict_append (_synapses m) (node_id (row node)) [syn]) m in
          let ncstim := NetCon (next_handle m) (handle_of stim) (handle_of syn)
                               (cn_thresh ps) (cn_delay ps) (cn_weight0 ps) in
          let m := allocate 1 [ncstim] m in
          let m := set_stimuli
                     (dict_append (_stimuli m) (node_id (row node)) [ncstim; stim]) m in
          synaptic_input_loop ps stim rest m
      end
  end.

Definition add_synaptic_input (where_ : list Z) (ps : spike_params) (m : Model)
  : Model * result unit :=
  let stim := NetStim (next_handle m) (spike_no ps) (start ps)
                      (spike_noise ps) (spike_int ps) in
  let m := allocate 1 [stim] m in
  match loc_rows (skeleton_nodes m) where_ with
  | Raise e => (m, Raise e)
  | Ok rows => synaptic_input_loop ps stim rows m
  end.

(** *** Generic stimuli *)

Fixpoint add_stimulus_loop (stimulus : string) (kwargs : list (string * Q))
    (rows : list located_row) (m : Model) : Model * result unit :=
  match rows with
  | [] => (m, Ok tt)
  | node :: rest =>
      match segment_at m node with
      | Raise e => (m, Raise e)
      | Ok seg =>
          let stim := PointProcess (next_handle m) stimulus seg kwargs in
          let m := allocate 1 [stim] m in
          let m := set_stimuli
                     (dict_append (_stimuli m) (node_id (row node)) [stim]) m in
          add_stimulus_loop stimulus kwargs rest m
      end
  end.

Definition _add_stimulus (stimulus : string) (where_ : list Z)
    (kwargs : list (string * Q)) (m : Model) : Model * result unit :=
  match loc_rows (skeleton_nodes m) where_ with
  | Raise e => (m, Raise e)
  | Ok rows => add_stimulus_loop stimulus kwargs rows m
  end.

Definition inject_current_pulse (where_ : list Z) (start duration current : Q)
    (m : Model) : Model * result unit :=
  _add_stimulus "IClamp" where_
    [("delay", start); ("dur", duration); ("i", current)]%string m.

Definition add_synaptic_current (where_ : list Z) (start tau rev_pot max_syn_cond : Q)
    (m : Model) : Model * result unit :=
  _add_stimulus "AlphaSynapse" where_
    [("onset", start); ("tau", tau); ("e", rev_pot); ("gmax", max_syn_cond)]%string m.

(** *** Records *)

(** What a caller may pass as [what]. *)
Inductive pyval : Type :=
| PyStr (s : string)
| PyInt (z : Z)
| PyNone.

(** [if label:] -- [None] and the empty string are falsy. *)
Definition label_given (label : option string) : option string :=
  match label with
  | Some s => if String.eqb s EmptyString then None else Some s
  | None => None
  end.

Definition record_key (label : option string) (node : located_row) : string + Z :=
  match label_given label with
  | Some s => inl s
  | None => inr (node_id (row node))
  end.

Fixpoint add_record_loop (what : string) (label : option string)
    (rows : list located_row) (m : Model) : Model * result unit :=
  match rows with
  | [] => (m, Ok tt)
  | node :: rest =>
      match segment_at m node with
      | Raise e => (m, Raise e)
      | Ok seg =>
          let rec := {| rec_handle := next_handle m; rec_seg := seg;
                        rec_ref := what |} in
          let m := allocate 1 [Vector rec] m in
          let m := set_records (<[record_key label node := rec]> (_records m)) m in
          add_record_loop what label rest m
      end
  end.

Definition ref_name (what : string) : string :=
  if String.prefix "_ref_" what then what else ("_ref_" ++ what)%string.

Definition _add_record (where_ : list Z) (what : pyval) (label : option string)
    (m : Model) : Model * result unit :=
  match what with
  | PyStr w =>
      match loc_rows (skeleton_nodes m) where_ with
      | Raise e => (m, Raise e)
      | Ok rows => add_record_loop (ref_name w) label rows m
      end
  | _ => (m, Raise TypeError)
  end.

Definition add_voltage_record (where_ : list Z) (label : option string)
    (m : Model) : Model * result unit :=
  _add_record where_ (PyStr "v") label m.

Definition add_current_record (where_ : list Z) (label : option string)
    (m : Model) : Model * result unit :=
  _add_record where_ (PyStr "i") label m.

(** *** Clearing *)

Definition clear_records (m : Model) : Model := set_records ∅ m.
Definition clear_stimuli (m : Model) : Model := set_stimuli ∅ m.
Definition clear_synapses (m : Model) : Model := set_synapses ∅ m.

(** [self._sections = []]: the section array gives way to an empty list. *)
Definition drop_sections (m : Model) : Model :=
  {| skeleton_nodes := skeleton_nodes m; _sections := [];
     sections_ndarray := false;
     _stimuli := _stimuli m; _records := _records m; _synapses := _synapses m;
     next_handle := next_handle m; nrn_created := nrn_created m |}.

Definition clear (m : Model) : Model :=
  drop_sections (clear_synapses (clear_stimuli (clear_records m))).

(** *** Mechanisms *)

(** What a caller may pass as [subset]. *)
Inductive subset_arg : Type :=
| SubNone
| SubList (l : list Z)
| SubInt (i : Z).

(** Python truthiness of [subset]. *)
Definition truthy (subset : subset_arg) : bool :=
  match subset with
  | SubNone => false
  | SubList [] => false
  | SubList (_ :: _) => true
  | SubInt i => negb (Z.eqb i 0)
  end.

(** One numpy index, negative ones counted from the end. *)
Definition np_index (len : nat) (i : Z) : result nat :=
  let i' := if Z.ltb i 0 then (i + Z.of_nat len)%Z else i in
  if Z.ltb i' 0 then Raise IndexError
  else if Z.ltb i' (Z.of_nat len) then Ok (Z.to_nat i')
  else Raise IndexError.

(** The indices of the sections [insert] and [uninsert] work on:
    [self.sections[subset]].  A list of indices is numpy's fancy indexing;
    the Python list that [clear] leaves takes no list as an index. *)
Definition select_sections (subset : subset_arg) (m : Model) : result (list nat) :=
  if negb (truthy subset) then Ok (seq 0 (length (_sections m)))
  else match subset with
       | SubList l =>
           if sections_ndarray m then rmapM (np_index (length (_sections m))) l
           else Raise TypeError
       | SubInt i => j ← np_index (length (_sections m)) i; Ok [j]
       | SubNone => Ok (seq 0 (length (_sections m)))
       end.

Definition set_mechanisms (d : gmap string (list (gmap string Q))) (s : Section)
  : Section :=
  {| L := L s; diam := diam s; nseg := nseg s; parentseg := parentseg s;
     mechanisms := d |}.

(** [sec.insert(mechanism)] followed by setting every keyword on every
    segment's mechanism. *)
Definition insert_section (mechanism : string) (kwargs : list (string * Q))
    (s : Section) : Section :=
  let segs := default (replicate (Z.to_nat (nseg s)) ∅) (mechanisms s !! mechanism) in
  let set_all (params : gmap string Q) :=
    fold_left (fun acc kv => <[fst kv := snd kv]> acc) kwargs params in
  set_mechanisms (<[mechanism := map set_all segs]> (mechanisms s)) s.

(** [if hasattr(sec, mechanism): sec.uninsert(mechanism)] *)
Definition uninsert_section (mechanism : string) (s : Section) : Section :=
  match mechanisms s !! mechanism with
  | Some _ => set_mechanisms (delete mechanism (mechanisms s)) s
  | None => s
  end.

Definition apply_at (f : Section -> Section) (secs : list Section) (j : nat)
  : list Section :=
  match secs !! j with
  | Some s => <[j := f s]> secs
  | None => secs
  end.

Definition insert (mechanism : string) (subset : subset_arg)
    (kwargs : list (string * Q)) (m : Model) : Model * result unit :=
  match select_sections subset m with
  | Raise e => (m, Raise e)
  | Ok js =>
      (set_sections
         (fold_left (apply_at (insert_section mechanism kwargs)) js (_sections m)) m,
       Ok tt)
  end.

Definition uninsert (mechanism : string) (subset : subset_arg) (m : Model)
  : Model * result unit :=
  match select_sections subset m with
  | Raise e => (m, Raise e)
  | Ok js =>
      (set_sections
         (fold_left (apply_at (uninsert_section mechanism)) js (_sections m)) m,
       Ok tt)
  end.

(** [run_simulation] leaves the model's own fields alone: it acts on
    NEURON's global state only. *)
Definition run_simulation (duration v_init : Q) (m : Model) : Model := m.

(** ** The projection-neuron preset *)

(** The axial resistance and the membrane capacitance of the sections,
    index by index: [s.Ra] and [s.cm] of [self.sections[i]]. *)
Record DrosophilaPN : Type := {
  pn_model : Model;
  pn_Ra : list Q;
  pn_cm : list Q;
}.

(** The [Ra] and [cm] setters: one value for every section. *)
Definition set_all_sections (value : Q) (m : Model) : list Q :=
  map (fun _ => value) (_sections m).

(** [DrosophilaPN.__init__].  [passive] and [active] are accepted and not
    looked at. *)
Definition DrosophilaPN_init (x : TreeNeuron) (res : Q) (passive active : bool)
  : list warning * result DrosophilaPN :=
  let built := __init__ x res in
  (fst built,
   m ← snd built;
   let Ra := set_all_sections (2661 # 10) m in
   let cm := set_all_sections (8 # 10) m in
   let inserted := insert "pas" SubNone
                     [("g", 1 # 20800); ("e", - (60))]%string%Q m in
   _ ← snd inserted;
   Ok {| pn_model := fst inserted; pn_Ra := Ra; pn_cm := cm |}).

(** * Vocabulary of the properties *)

(** [(c, p)] is an edge of the graph: [c] is a node and [p] its parent. *)
Definition is_edge (x : TreeNeuron) (cp : Z * Z) : Prop :=
  exists r, r ∈ nodes x /\ node_id r = fst cp /\ parent_id r = Some (snd cp).

(** Edge weights are distances. *)
Definition weights_nonneg (x : TreeNeuron) : Prop :=
  Forall (fun r => (0 <= weight r)%Q) (nodes x).

Definition nseg_spec (res : Q) (s : Section) : Prop :=
  nseg s = (1 + 2 * Qfloor (L s / (2 * res)))%Z /\
  Z.odd (nseg s) = true /\ (1 <= nseg s)%Z.

Definition empty_model : Model :=
  {| skeleton_nodes := []; _sections := []; sections_ndarray := false;
     _stimuli := ∅; _records := ∅; _synapses := ∅;
     next_handle := 0; nrn_created := [] |}.

Definition model_of (x : TreeNeuron) (res : Q) : Model :=
  match snd (__init__ x res) with
  | Ok m => m
  | Raise _ => empty_model
  end.

Definition y_model : Model := model_of y_skeleton 1.

Definition rows_of (tbl : list located_row) (n : Z) : result (list located_row) :=
  match List.filter (fun r => has_id n (row r)) tbl with
  | [] => Raise KeyError
  | l => Ok l
  end.

(** The recorder the loop creates for [node] when [h] is the next handle. *)
Definition recorder_for (m : Model) (what : string) (h : nat) (node : located_row)
    (r : recorder) : Prop :=
  rec_handle r = h /\ rec_ref r = what /\
  segment_at m node = Ok (rec_seg r).

(** Storing a batch of recorders, one overwrite after the other. *)
Definition store_all (label : option string)
    (d : gmap (string + Z) recorder) (l : list (located_row * recorder))
  : gmap (string + Z) recorder :=
  fold_left (fun acc nr => <[record_key label (fst nr) := snd nr]> acc) l d.

(** Every stored recorder has been created already. *)
Definition records_allocated (m : Model) : Prop :=
  forall k r, _records m !! k = Some r -> rec_handle r < next_handle m.

(** A node id is in the location map when the node table has a row for it
    and that row carries a section index. *)
Definition located (m : Model) (n : Z) : Prop :=
  exists r, r ∈ skeleton_nodes m /\ node_id (row r) = n /\ is_Some (sec_ix r).

Definition same_registries (m m' : Model) : Prop :=
  _records m' = _records m /\ _stimuli m' = _stimuli m /\
  _synapses m' = _synapses m.

(** [d'] extends [d]: every list of [d] is still there, with new entries
    only at its end. *)
Definition extends (d d' : gmap Z (list hobject)) : Prop :=
  forall n l, d !! n = Some l -> exists new, d' !! n = Some (l ++ new).

Definition is_Exp2Syn (o : hobject) : bool :=
  match o with
  | Exp2Syn _ _ _ _ _ _ => true
  | _ => false
  end.

(** [nc] is a NetCon from the generator [stim] to the synapse [syn]. *)
Definition connects (stim syn nc : hobject) : Prop :=
  match nc with
  | NetCon _ source target _ _ _ =>
      source = handle_of stim /\ target = handle_of syn
  | _ => False
  end.

Definition sources_ok (stim : hobject) (o : hobject) : Prop :=
  match o with
  | NetCon _ source _ _ _ _ => source = handle_of stim
  | NetStim _ _ _ _ _ => False
  | _ => True
  end.

(** The keyword defaults of [add_synaptic_input]. *)
Definition default_spike : spike_params :=
  {| start := 5; spike_no := 1; spike_int := 10; spike_noise := 0;
     syn_tau1 := 1 # 10; syn_tau2 := 10; syn_rev_pot := 0; syn_curr := 1 # 10;
     cn_thresh := 10; cn_delay := 1; cn_weight0 := 0 |}.

(** The caller's obligation: node ids are unique, every parent is a node,
    and parent links never cycle -- some height function grows toward the
    roots and stays below the number of nodes. *)
Record tree_shaped (x : TreeNeuron) (h : Z -> nat) : Prop := {
  ts_nodup : NoDup (node_ids x);
  ts_parent : forall r p, r ∈ nodes x -> parent_id r = Some p -> p ∈ node_ids x;
  ts_height : forall r p, r ∈ nodes x -> parent_id r = Some p ->
                          h (node_id r) < h p;
  ts_bound : forall r, r ∈ nodes x -> h (node_id r) < length (nodes x);
}.

(** The walk from [p] up to the first stop. *)
Inductive path_up (x : TreeNeuron) : Z -> list Z -> Prop :=
| path_stop p :
    is_stop x p = true -> path_up x p [p]
| path_step p r q l :
    is_stop x p = false -> find_row x p = Some r -> parent_id r = Some q ->
    path_up x q l -> path_up x p (p :: l).

(** What [segment_positions] returns once the edge weights are known. *)
Definition norm_positions (ws : list Q) : list npfloat :=
  let dist := 0%Q :: rev ws in
  map (fun c => np_div c (qsum dist)) (cumsum dist).

Definition mapped_nodes (x : TreeNeuron) (seg : list Z) : list Z :=
  match last seg with
  | Some t => if in_list t (root x) then rev seg else tail (rev seg)
  | None => []
  end.

Definition mapped_positions (x : TreeNeuron) (seg : list Z) (ws : list Q)
  : list npfloat :=
  match last seg with
  | Some t =>
      if in_list t (root x) then norm_positions ws else tail (norm_positions ws)
  | None => []
  end.

(** A segment whose edge weights all resolve. *)
Definition seg_ok (x : TreeNeuron) (seg : list Z) : Prop :=
  exists ws,
    rmapM (edge_weight x) (zip (removelast seg) (tail seg)) = Ok ws /\
    S (length ws) = length seg.

(** No root is without a child. *)
Definition roots_have_children (x : TreeNeuron) : Prop :=
  forall r, r ∈ nodes x -> parent_id r = None -> n_children x (node_id r) <> 0.

(** Every edge has positive length. *)
Definition weights_positive (x : TreeNeuron) : Prop :=
  forall r, r ∈ nodes x -> parent_id r <> None -> (0 < weight r)%Q.

(** What the third loop does to the section of one segment. *)
Definition connected_as (x : TreeNeuron) (tbl : list located_row)
    (seg : list Z) (before after : option Section) : Prop :=
  exists p, last seg = Some p /\
    if in_list p (root x) then after = before
    else exists parent j b,
        loc tbl p = Ok parent /\ sec_ix parent = Some j /\
        before = Some b /\ after = Some (connect b j).

(** root 1 -> branch 2 at the root's place (weight 0) -> leaves 3 and 4 *)
Definition flat_y_skeleton : TreeNeuron :=
  mk_neuron [mk_row 1 None 0; mk_row 2 (Some 1%Z) 0;
             mk_row 3 (Some 2%Z) 1; mk_row 4 (Some 2%Z) 1].

(** Heights for the sample skeletons: the root is 1, the branch node 2. *)
Definition sample_height (n : Z) : nat :=
  if Z.eqb n 1 then 2 else if Z.eqb n 2 then 1 else 0.

(** ** More vocabulary *)

(** The value the keywords give to [k]: the last one listed wins. *)
Fixpoint kw_last (kwargs : list (string * Q)) (k : string) : option Q :=
  match kwargs with
  | [] => None
  | kv :: rest =>
      match kw_last rest k with
      | Some v => Some v
      | None => if String.eqb (fst kv) k then Some (snd kv) else None
      end
  end.

(** Two sections that differ in their mechanisms at most. *)
Definition same_geometry (s s' : Section) : Prop :=
  L s' = L s /\ diam s' = diam s /\ nseg s' = nseg s /\
  parentseg s' = parentseg s.

(** [mechanism] is inserted in [s] and every segment carries the keywords. *)
Definition carries (mechanism : string) (kwargs : list (string * Q))
    (s : Section) : Prop :=
  exists segs, mechanisms s !! mechanism = Some segs /\
    Forall (fun params => forall k v, kw_last kwargs k = Some v ->
                                      params !! k = Some v) segs.

(** Setting every keyword on one segment's mechanism. *)
Definition set_kwargs (kwargs : list (string * Q)) (params : gmap string Q)
  : gmap string Q :=
  fold_left (fun acc kv => <[fst kv := snd kv]> acc) kwargs params.

(** No section has [mechanism] inserted. *)
Definition no_mechanism (mechanism : string) (m : Model) : Prop :=
  Forall (fun s => mechanisms s !! mechanism = None) (_sections m).

(** The indices a truthy [subset] lists. *)
Definition subset_indices (subset : subset_arg) : list Z :=
  match subset with
  | SubNone => []
  | SubList l => l
  | SubInt i => [i]
  end.

(** A numpy index that is out of range for [len] entries. *)
Definition out_of_range (len : nat) (i : Z) : Prop :=
  (Z.of_nat len <= i)%Z \/ (i < - Z.of_nat len)%Z.

(** Counting negative numpy indices from the end. *)
Definition wrap_index (len : nat) (i : Z) : Z :=
  if Z.ltb i 0 then (i + Z.of_nat len)%Z else i.

(** Of the things made for the rows of a batch, those made at node [n]. *)
Definition made_at {A} (n : Z) (made : list (located_row * A)) : list A :=
  map snd (List.filter (fun p => has_id n (row (fst p))) made).

(** All three registries are empty. *)
Definition registries_empty (m : Model) : Prop :=
  _records m = ∅ /\ _stimuli m = ∅ /\ _synapses m = ∅.

(** The handles of the synapses a batch of [n] targets gets when [h] is the
    next free handle: every target takes two handles, synapse then NetCon. *)
Fixpoint synapse_handles (h : nat) (n : nat) : list nat :=
  match n with
  | O => []
  | S k => h :: synapse_handles (2 + h) k
  end.

(** The synapse and the NetCon made for one target. *)
Definition synapse_for (ps : spike_params) (stim : hobject) (m : Model)
    (node : located_row) (h : nat) (p : hobject * hobject) : Prop :=
  exists seg,
    segment_at m node = Ok seg /\
    fst p = Exp2Syn h seg (syn_tau1 ps) (syn_tau2 ps) (syn_rev_pot ps) (syn_curr ps) /\
    snd p = NetCon (1 + h) (handle_of stim) h
                   (cn_thresh ps) (cn_delay ps) (cn_weight0 ps).

(** The location columns of the node table can be used as they are: every
    row has a section index, and it points into the section array. *)
Definition well_located (m : Model) : Prop :=
  sec_ix_is_int (skeleton_nodes m) = true /\
  forall r j, r ∈ skeleton_nodes m -> sec_ix r = Some j ->
              j < length (_sections m).


(** What [_validate_skeleton] raises on: no radius column, or a radius that
    compares [<= 0]. *)
Definition bad_radius (x : TreeNeuron) : Prop :=
  radius_column x = false \/
  Exists (fun r => np_le0 (radius r) = true) (nodes x).


(** * Properties *)

(** ** The result monad *)

Lemma rbind_Ok {A B} (c : result A) (k : A -> result B) (b : B) :
  (c ≫= k) = Ok b -> exists a, c = Ok a /\ k a = Ok b.
Proof. destruct c as [a|e]; simpl; [eauto | discriminate]. Qed.

Lemma of_option_Ok {A} (e : exn) (o : option A) (a : A) :
  of_option e o = Ok a -> o = Some a.
Proof. destruct o; simpl; congruence. Qed.

Ltac inv_ok :=
  repeat match goal with
  | H : (_ ≫= _) = Ok _ |- _ =>
      let a := fresh "a" in
      let Ha := fresh "Ha" in
      apply rbind_Ok in H; destruct H as (a & Ha & H)
  | H : of_option _ _ = Ok _ |- _ => apply of_option_Ok in H
  | H : Ok _ = Ok _ |- _ => injection H as H
  end.

Lemma rmapM_Forall2 {A B} (f : A -> result B) (l : list A) (bs : list B) :
  rmapM f l = Ok bs -> Forall2 (fun a b => f a = Ok b) l bs.
Proof.
  revert bs; induction l as [|a t IH]; simpl; intros bs H.
  - injection H as <-. constructor.
  - inv_ok. subst bs. constructor; auto.
Qed.

Lemma rmapM_Forall {A B} (f : A -> result B) (P : B -> Prop) (l : list A)
    (bs : list B) :
  (forall a b, f a = Ok b -> P b) -> rmapM f l = Ok bs -> Forall P bs.
Proof.
  intros Hf H. apply rmapM_Forall2 in H.
  induction H; constructor; eauto.
Qed.

Lemma rfold_enum_inv {A St} (f : St -> nat -> A -> result St) (P : St -> Prop) :
  (forall s i a s', P s -> f s i a = Ok s' -> P s') ->
  forall l i s s', P s -> rfold_enum f i l s = Ok s' -> P s'.
Proof.
  intros Hstep l; induction l as [|a t IH]; simpl; intros i s s' Hs H.
  - injection H as <-. exact Hs.
  - inv_ok. eapply IH; [|exact H]. eapply Hstep; eauto.
Qed.

(** ** Validation *)

Lemma existsb_radius (l : list node_row) :
  existsb (fun r => np_le0 (radius r)) l = true <->
  Exists (fun r => np_le0 (radius r) = true) l.
Proof.
  rewrite existsb_exists, Exists_exists. unfold elem_of.
  split; intros (r & Hin & Hr); exists r; split; auto;
    apply list_elem_of_In; exact Hin.
Qed.

Lemma validate_raises_iff (x : TreeNeuron) :
  (exists e, snd (_validate_skeleton x) = Raise e) <-> bad_radius x.
Proof.
  unfold _validate_skeleton, bad_radius; simpl.
  destruct (radius_column x); simpl.
  - destruct (existsb _ (nodes x)) eqn:E.
    + split; [intros _; right; apply existsb_radius; exact E | eauto].
    + split; [intros [e He]; discriminate |].
      intros [Hc | Hex]; [discriminate |].
      apply existsb_radius in Hex. congruence.
  - split; eauto.
Qed.

Lemma validate_raises_ValueError (x : TreeNeuron) (e : exn) :
  snd (_validate_skeleton x) = Raise e -> exists msg, e = ValueError msg.
Proof.
  unfold _validate_skeleton; simpl.
  destruct (radius_column x); simpl; [destruct (existsb _ _) |];
    intros H; try discriminate; injection H as <-; eauto.
Qed.

(** C6.  A node whose radius is missing ([nan]) lacks a defined positive
    radius, and validation lets it through: [nan <= 0] is false.  The
    constructor returns a model, the diameter of the section being the mean
    of the radii that are there. *)
Theorem C6_undefined_radius_passes_validation :
  Exists (fun r => radius r = NaN) (nodes nan_radius_skeleton) /\
  radius_column nan_radius_skeleton = true /\
  _validate_skeleton nan_radius_skeleton = ([], Ok tt) /\
  exists m, __init__ nan_radius_skeleton 1 = ([], Ok m) /\
            map diam (_sections m) = [Num 2].
Proof.
  split; [right; left; reflexivity |].
  split; [reflexivity |].
  split; [reflexivity |].
  eexists. split; vm_compute; reflexivity.
Qed.

(** ** Section geometry *)

Lemma edge_weight_row (x : TreeNeuron) (cp : Z * Z) (w : Q) :
  edge_weight x cp = Ok w ->
  exists r, r ∈ nodes x /\ weight r = w /\
            node_id r = fst cp /\ parent_id r = Some (snd cp).
Proof.
  unfold edge_weight. destruct (find _ (nodes x)) as [r|] eqn:E; [|discriminate].
  intros H; injection H as <-.
  apply find_some in E. destruct E as [Hin Hb].
  apply andb_prop in Hb. destruct Hb as [Hid Hp].
  exists r. split; [apply list_elem_of_In; exact Hin |].
  split; [reflexivity |].
  unfold has_id in Hid. apply Z.eqb_eq in Hid. split; [exact Hid |].
  unfold has_parent in Hp. destruct (parent_id r); [|discriminate].
  apply Z.eqb_eq in Hp. congruence.
Qed.

Lemma qsum_nonneg (l : list Q) :
  Forall (fun w => (0 <= w)%Q) l -> (0 <= qsum l)%Q.
Proof.
  induction 1 as [|w t Hw _ IH]; simpl; [lra |].
  change (0 <= w + qsum t)%Q. lra.
Qed.

Lemma edge_weights_nonneg (x : TreeNeuron) (pairs : list (Z * Z)) (ws : list Q) :
  weights_nonneg x -> rmapM (edge_weight x) pairs = Ok ws ->
  Forall (fun w => (0 <= w)%Q) ws.
Proof.
  intros Hx H. eapply rmapM_Forall; [| exact H].
  intros cp w Hw.
  apply edge_weight_row in Hw. destruct Hw as (r & Hin & <- & _).
  unfold weights_nonneg in Hx. rewrite Forall_forall in Hx. auto.
Qed.

Lemma segment_length_nonneg (x : TreeNeuron) (seg : list Z) (len : Q) :
  weights_nonneg x -> segment_length x seg = Ok len -> (0 <= len)%Q.
Proof.
  intros Hx H. unfold segment_length in H. inv_ok. subst len.
  apply qsum_nonneg. eapply edge_weights_nonneg; eauto.
Qed.

(** On a non-negative number, truncation is the floor. *)
Lemma py_int_floor (q : Q) : (0 <= q)%Q -> py_int q = Qfloor q.
Proof.
  destruct q as [n d]. unfold Qle, py_int, Qfloor; simpl. intros H.
  apply Z.quot_div_nonneg; lia.
Qed.

Lemma build_section_nseg (x : TreeNeuron) (res : Q) (seg : list Z) (s : Section) :
  (0 < res)%Q -> weights_nonneg x ->
  build_section x res seg = Ok s -> nseg_spec res s.
Proof.
  intros Hres Hx H. unfold build_section in H. inv_ok.
  rename a into len, a1 into q.
  apply segment_length_nonneg in Ha; [|exact Hx].
  unfold py_div in Ha1. destruct (Qeq_bool (res * 2) 0); [discriminate |].
  injection Ha1 as <-. subst s. unfold nseg_spec; cbn [nseg L].
  assert (Hq : (0 <= len / (res * 2))%Q).
  { apply Qle_shift_div_l; lra. }
  rewrite (py_int_floor _ Hq).
  assert (Heq : (len / (res * 2) == len / (2 * res))%Q).
  { apply Qdiv_comp; [reflexivity | ring]. }
  rewrite <- (Qfloor_comp _ _ Heq).
  assert (Hfl : (0 <= Qfloor (len / (res * 2)))%Z).
  { change 0%Z with (Qfloor 0). apply Qfloor_resp_le. exact Hq. }
  split; [reflexivity |]. split; [| lia].
  rewrite Z.odd_add_mul_2. reflexivity.
Qed.

Lemma connect_segment_Forall (P : Section -> Prop) (x : TreeNeuron)
    (tbl : list located_row) :
  (forall s j, P s -> P (connect s j)) ->
  forall secs i seg secs',
    Forall P secs -> connect_segment x tbl secs i seg = Ok secs' -> Forall P secs'.
Proof.
  intros HP secs i seg secs' Hsecs H. unfold connect_segment in H. inv_ok.
  destruct (in_list a (root x)).
  - injection H as <-. exact Hsecs.
  - inv_ok. subst secs'. apply Forall_insert; [exact Hsecs |].
    apply HP. rewrite Forall_forall in Hsecs. apply Hsecs.
    eapply list_elem_of_lookup_2; eauto.
Qed.

(** C3.  Every section built at a positive resolution has
    [nseg = 1 + 2 * floor(L / (2 * res))], which is odd and at least 1. *)
Theorem C3_nseg_formula_odd_positive (x : TreeNeuron) (res : Q) (g : generated) :
  (0 < res)%Q -> weights_nonneg x ->
  _generate_sections x res = Ok g ->
  Forall (fun s => nseg s = (1 + 2 * Qfloor (L s / (2 * res)))%Z /\
                   Z.odd (nseg s) = true /\ (1 <= nseg s)%Z)
         (g_sections g).
Proof.
  intros Hres Hx H. unfold _generate_sections in H. inv_ok. subst g; simpl.
  rename a0 into built, a1 into secs.
  assert (Hbuilt : Forall (nseg_spec res) built).
  { eapply rmapM_Forall; [| exact Ha0].
    intros seg s Hs. eapply build_section_nseg; eauto. }
  revert Ha1. generalize 0 at 1. intros i0 Ha1.
  eapply (rfold_enum_inv _ (Forall (nseg_spec res))); [| exact Hbuilt | exact Ha1].
  intros s i seg s' Hs Hstep.
  eapply connect_segment_Forall; [| exact Hs | exact Hstep].
  intros s0 j Hs0. exact Hs0.
Qed.

Lemma C3_nseg_formula_witness :
  exists g, _generate_sections y_skeleton 1 = Ok g /\
            map nseg (g_sections g) = [3%Z; 1%Z; 3%Z] /\
            Forall (fun s => nseg s = (1 + 2 * Qfloor (L s / (2 * 1)))%Z /\
                             Z.odd (nseg s) = true /\ (1 <= nseg s)%Z)
                   (g_sections g).
Proof.
  eexists. split; [vm_compute; reflexivity |]. split; [reflexivity |].
  apply (C3_nseg_formula_odd_positive y_skeleton 1).
  - reflexivity.
  - unfold weights_nonneg; simpl. repeat constructor; discriminate.
  - vm_compute; reflexivity.
Defined.

(** ** Mechanisms *)

Lemma fold_apply_at_seq (f : Section -> Section) (l pre : list Section) :
  fold_left (apply_at f) (seq (length pre) (length l)) (pre ++ l) = pre ++ map f l.
Proof.
  revert pre; induction l as [|a t IH]; intros pre; simpl; [reflexivity |].
  unfold apply_at at 2.
  rewrite lookup_app_r, Nat.sub_diag by lia. simpl.
  rewrite insert_app_r_alt, Nat.sub_diag by lia. simpl.
  specialize (IH (pre ++ [f a])).
  rewrite length_app, Nat.add_1_r, <- !app_assoc in IH. exact IH.
Qed.

Lemma select_sections_falsy (subset : subset_arg) (m : Model) :
  truthy subset = false ->
  select_sections subset m = Ok (seq 0 (length (_sections m))).
Proof. intros H. unfold select_sections. rewrite H. reflexivity. Qed.

(** C9.  A falsy [subset] -- [None], the empty list, and also the index 0 --
    makes [insert] and [uninsert] work on every section. *)
Theorem C9_falsy_subset_selects_all (mechanism : string) (subset : subset_arg)
    (kwargs : list (string * Q)) (m : Model) :
  truthy subset = false ->
  insert mechanism subset kwargs m =
    (set_sections (map (insert_section mechanism kwargs) (_sections m)) m, Ok tt)
  /\ uninsert mechanism subset m =
    (set_sections (map (uninsert_section mechanism) (_sections m)) m, Ok tt).
Proof.
  intros H. unfold insert, uninsert.
  rewrite (select_sections_falsy _ _ H).
  rewrite (fold_apply_at_seq _ (_sections m) []).
  rewrite (fold_apply_at_seq _ (_sections m) []).
  split; reflexivity.
Qed.

Lemma C9_falsy_subset_witness :
  truthy (SubList []) = false /\
  fst (insert "pas" (SubList []) [] y_model) =
    set_sections (map (insert_section "pas" []) (_sections y_model)) y_model /\
  Forall (fun s => is_Some (mechanisms s !! "pas"))
         (_sections (fst (insert "pas" (SubList []) [] y_model))).
Proof.
  split; [reflexivity |].
  destruct (C9_falsy_subset_selects_all "pas" (SubList []) [] y_model eq_refl)
    as [Hi _].
  rewrite Hi. split; [reflexivity |].
  simpl. repeat constructor; vm_compute; eauto.
Defined.

(** ** Row lookup *)

Lemma loc_rows_unfold (tbl : list located_row) (where_ : list Z) :
  loc_rows tbl where_ = (rs ← rmapM (rows_of tbl) where_; Ok (concat rs)).
Proof. reflexivity. Qed.

Lemma rows_of_Ok (tbl : list located_row) (n : Z) (l : list located_row) :
  rows_of tbl n = Ok l ->
  l <> [] /\ Forall (fun node => node ∈ tbl /\ node_id (row node) = n) l.
Proof.
  unfold rows_of. intros H.
  assert (Hl : l = List.filter (fun r => has_id n (row r)) tbl).
  { destruct (List.filter _ tbl); [discriminate | congruence]. }
  split.
  - intros ->. rewrite <- Hl in H. discriminate.
  - rewrite Hl. apply Forall_forall. intros node Hin.
    apply list_elem_of_In, filter_In in Hin. destruct Hin as [Hin Hid].
    split; [apply list_elem_of_In; exact Hin |].
    apply Z.eqb_eq. exact Hid.
Qed.

Lemma rows_of_absent (tbl : list located_row) (n : Z) :
  (forall r, r ∈ tbl -> node_id (row r) <> n) -> rows_of tbl n = Raise KeyError.
Proof.
  intros H. unfold rows_of.
  destruct (List.filter _ tbl) as [|r l] eqn:E; [reflexivity |].
  exfalso. assert (Hin : In r (List.filter (fun r => has_id n (row r)) tbl)).
  { rewrite E. left; reflexivity. }
  apply filter_In in Hin. destruct Hin as [Hin Hid].
  apply Z.eqb_eq in Hid. apply (H r); [apply list_elem_of_In; exact Hin | exact Hid].
Qed.

Lemma rmapM_Raise {A B} (f : A -> result B) (l : list A) (a : A) (e : exn) :
  a ∈ l -> f a = Raise e -> exists e', rmapM f l = Raise e'.
Proof.
  induction 1 as [a t | a b t Hin IH]; simpl; intros Hf.
  - rewrite Hf. simpl. eauto.
  - destruct (f b); simpl; [| eauto].
    destruct (IH Hf) as [e' ->]. simpl. eauto.
Qed.

Lemma loc_rows_absent (tbl : list located_row) (where_ : list Z) (n : Z) :
  n ∈ where_ -> (forall r, r ∈ tbl -> node_id (row r) <> n) ->
  exists e, loc_rows tbl where_ = Raise e.
Proof.
  intros Hin Habs. rewrite loc_rows_unfold.
  destruct (rmapM_Raise (rows_of tbl) where_ n KeyError Hin (rows_of_absent _ _ Habs))
    as [e ->].
  simpl. eauto.
Qed.

Lemma loc_rows_length (tbl : list located_row) (where_ : list Z)
    (rows : list located_row) :
  loc_rows tbl where_ = Ok rows -> length where_ <= length rows.
Proof.
  rewrite loc_rows_unfold. intros H. inv_ok. subst rows.
  rename a into rs. apply rmapM_Forall2 in Ha.
  induction Ha as [|n l ns ls Hn _ IH]; simpl; [lia |].
  apply rows_of_Ok in Hn. destruct Hn as [Hn _].
  rewrite length_app. destruct l; [contradiction | simpl; lia].
Qed.

Lemma loc_rows_spec (tbl : list located_row) (where_ : list Z)
    (rows : list located_row) :
  loc_rows tbl where_ = Ok rows ->
  Forall (fun node => node ∈ tbl /\ node_id (row node) ∈ where_) rows /\
  (forall n, n ∈ where_ ->
     exists node, node ∈ rows /\ node ∈ tbl /\ node_id (row node) = n) /\
  (forall n, last where_ = Some n ->
     exists node, last rows = Some node /\ node_id (row node) = n).
Proof.
  rewrite loc_rows_unfold. intros H. inv_ok. subst rows.
  rename a into rs. apply rmapM_Forall2 in Ha.
  induction Ha as [|n l ns ls Hn Hrest IH]; simpl.
  - split; [constructor |]. split.
    + intros n Hn. inversion Hn.
    + intros n Hn. discriminate.
  - destruct IH as (IH1 & IH2 & IH3).
    apply rows_of_Ok in Hn. destruct Hn as [Hne Hl].
    split; [| split].
    + apply Forall_app. split.
      * eapply Forall_impl; [exact Hl |]. simpl. intros node [Hin Hid].
        split; [exact Hin |]. rewrite Hid. left.
      * eapply Forall_impl; [exact IH1 |]. simpl. intros node [Hin Hid].
        split; [exact Hin |]. right. exact Hid.
    + intros n' Hin. apply elem_of_cons in Hin. destruct Hin as [-> | Hin].
      * destruct l as [|node l']; [contradiction |].
        apply Forall_cons in Hl. destruct Hl as [[Hin Hid] _].
        exists node. split; [left | auto].
      * destruct (IH2 n' Hin) as (node & Hr & Ht & Hid).
        exists node. split; [apply elem_of_app; right; exact Hr | auto].
    + intros n' Hlast. destruct ns as [|n2 ns'].
      * simpl in Hlast. injection Hlast as <-.
        inversion Hrest; subst. simpl. rewrite app_nil_r.
        destruct (last l) as [node|] eqn:El.
        -- exists node. split; [reflexivity |].
           rewrite Forall_forall in Hl.
           apply (Hl node). apply last_Some_elem_of. exact El.
        -- apply last_None in El. contradiction.
      * assert (Hlast' : last (n2 :: ns') = Some n').
        { rewrite <- Hlast. reflexivity. }
        destruct (IH3 n' Hlast') as (node & Hl' & Hid).
        exists node. split; [| exact Hid].
        rewrite last_app, Hl'. reflexivity.
Qed.

(** ** Records *)

Lemma store_all_snoc label d l nr :
  store_all label d (l ++ [nr]) =
  <[record_key label (fst nr) := snd nr]> (store_all label d l).
Proof. unfold store_all. rewrite fold_left_app. reflexivity. Qed.

Lemma store_all_lookup_ne label d l k :
  (forall nr, nr ∈ l -> record_key label (fst nr) <> k) ->
  store_all label d l !! k = d !! k.
Proof.
  induction l as [|nr l IH] using rev_ind; intros H; [reflexivity |].
  rewrite store_all_snoc, lookup_insert_ne.
  - apply IH. intros nr' Hin. apply H. apply elem_of_app; left; exact Hin.
  - apply H. apply elem_of_app; right. left.
Qed.

Lemma store_all_lookup_in label d l nr :
  nr ∈ l ->
  exists nr', nr' ∈ l /\ record_key label (fst nr') = record_key label (fst nr) /\
              store_all label d l !! record_key label (fst nr) = Some (snd nr').
Proof.
  induction l as [|x l IH] using rev_ind; intros Hin; [inversion Hin |].
  rewrite store_all_snoc.
  destruct (decide (record_key label (fst x) = record_key label (fst nr)))
    as [Heq | Hne].
  - exists x. split; [apply elem_of_app; right; left |].
    split; [exact Heq |]. rewrite Heq. apply lookup_insert_eq.
  - apply elem_of_app in Hin. destruct Hin as [Hin | Hin].
    + destruct (IH Hin) as (nr' & Hin' & Hk & Hl).
      exists nr'. split; [apply elem_of_app; left; exact Hin' |].
      split; [exact Hk |]. rewrite lookup_insert_ne by exact Hne. exact Hl.
    + apply list_elem_of_singleton in Hin. subst x. contradiction.
Qed.

Lemma store_all_same_key label d l nr k :
  (forall nr', nr' ∈ l ++ [nr] -> record_key label (fst nr') = k) ->
  store_all label d (l ++ [nr]) = <[k := snd nr]> d.
Proof.
  revert nr; induction l as [|x l IH] using rev_ind; intros nr H.
  - unfold store_all; simpl. rewrite (H nr); [reflexivity | left].
  - rewrite store_all_snoc, IH.
    + rewrite (H nr) by (apply elem_of_app; right; left).
      apply insert_insert_eq.
    + intros nr' Hin. apply H. apply elem_of_app; left. exact Hin.
Qed.

(** What one run of the recording loop does when it does not raise. *)
Lemma add_record_loop_spec (what : string) (label : option string)
    (rows : list located_row) :
  forall m m',
    add_record_loop what label rows m = (m', Ok tt) ->
    exists recs,
      Forall2 (fun node_h r => recorder_for m what (snd node_h) (fst node_h) r)
              (zip rows (seq (next_handle m) (length rows))) recs /\
      nrn_created m' = nrn_created m ++ map Vector recs /\
      next_handle m' = length rows + next_handle m /\
      _records m' = store_all label (_records m) (zip rows recs) /\
      _stimuli m' = _stimuli m /\ _synapses m' = _synapses m /\
      _sections m' = _sections m /\ skeleton_nodes m' = skeleton_nodes m.
Proof.
  induction rows as [|node rest IH]; intros m m' H; simpl in H.
  - injection H as <-. exists []. simpl. rewrite app_nil_r.
    repeat split; constructor.
  - destruct (segment_at m node) as [seg|e] eqn:Eseg; [| discriminate].
    apply IH in H. destruct H as (recs & HF & Hc & Hn & Hr & Hst & Hsy & Hse & Hsk).
    simpl in Hc, Hn, Hr, Hst, Hsy, Hse, Hsk.
    exists ({| rec_handle := next_handle m; rec_seg := seg; rec_ref := what |}
              :: recs).
    split; [| repeat split].
    + simpl. constructor.
      * unfold recorder_for; simpl. auto.
      * eapply Forall2_impl; [exact HF |].
        intros [node' h] r; unfold recorder_for; simpl. tauto.
    + rewrite Hc, <- app_assoc. reflexivity.
    + rewrite Hn. simpl. lia.
    + exact Hr.
    + exact Hst.
    + exact Hsy.
    + exact Hse.
    + exact Hsk.
Qed.

Lemma recorders_by_index (m : Model) (what : string) (rows : list located_row)
    (a : nat) (recs : list recorder) :
  Forall2 (fun node_h r => recorder_for m what (snd node_h) (fst node_h) r)
          (zip rows (seq a (length rows))) recs ->
  length recs = length rows /\
  forall i r, recs !! i = Some r ->
    exists node, rows !! i = Some node /\ recorder_for m what (a + i) node r.
Proof.
  intros HF. split.
  - apply Forall2_length in HF.
    rewrite length_zip_with_l_eq in HF by (rewrite length_seq; reflexivity).
    symmetry; exact HF.
  - intros i r Hr.
    destruct (Forall2_lookup_r _ _ _ _ _ HF Hr) as ([node h] & Hz & HP).
    apply lookup_zip_with_Some in Hz. destruct Hz as (x & y & Heq & Hx & Hy).
    injection Heq as -> ->. apply lookup_seq in Hy. destruct Hy as [-> _].
    exists x. split; [exact Hx | exact HP].
Qed.

Lemma zip_elem_of_index {A B} (l : list A) (k : list B) (i : nat) (a : A) (b : B) :
  l !! i = Some a -> k !! i = Some b -> (a, b) ∈ zip l k.
Proof.
  intros Ha Hb. apply list_elem_of_lookup. exists i.
  apply lookup_zip_with_Some. exists a, b. auto.
Qed.

(** C1, as the code has it.  A call that returns stores, under a non-empty
    label, one of the recorders it has just created and leaves every other
    key alone; without a label it stores under each listed node id one of
    the recorders it has just created -- a single recorder, replacing what
    was there, not a list -- and leaves every other key alone. *)
Theorem C1_records_stored_by_overwrite (where_ : list Z) (w : string)
    (label : option string) (m m' : Model) :
  _add_record where_ (PyStr w) label m = (m', Ok tt) ->
  (forall s, label_given label = Some s ->
     (where_ <> [] ->
      exists r, _records m' !! inl s = Some r /\
                next_handle m <= rec_handle r /\ rec_ref r = ref_name w) /\
     (forall k, k <> inl s -> _records m' !! k = _records m !! k)) /\
  (label_given label = None ->
     (forall n, n ∈ where_ ->
      exists r, _records m' !! inr n = Some r /\
                next_handle m <= rec_handle r /\ rec_ref r = ref_name w) /\
     (forall k, (forall n, n ∈ where_ -> k <> inr n) ->
                _records m' !! k = _records m !! k)).
Proof.
  intros H. unfold _add_record in H.
  destruct (loc_rows (skeleton_nodes m) where_) as [rows|e] eqn:El;
    [| discriminate].
  apply loc_rows_spec in El. destruct El as (Hrows & Hcover & _).
  apply add_record_loop_spec in H.
  destruct H as (recs & HF & _ & _ & Hr & _).
  apply recorders_by_index in HF. destruct HF as [Hlen Hidx].
  assert (Hnew : forall nr, nr ∈ zip rows recs ->
            next_handle m <= rec_handle (snd nr) /\ rec_ref (snd nr) = ref_name w).
  { intros [node r] Hin. apply elem_of_zip_r in Hin.
    apply list_elem_of_lookup in Hin. destruct Hin as [i Hi].
    destruct (Hidx i r Hi) as (node' & _ & Hh & Hw & _). simpl.
    split; [lia | exact Hw]. }
  assert (Hpair : forall node, node ∈ rows -> exists r, (node, r) ∈ zip rows recs).
  { intros node Hin. apply list_elem_of_lookup in Hin. destruct Hin as [i Hi].
    destruct (lookup_lt_is_Some_2 recs i) as [r Hri].
    { rewrite Hlen. eapply lookup_lt_Some; eauto. }
    exists r. eapply zip_elem_of_index; eauto. }
  split.
  - intros s Hs.
    assert (Hkey : forall node, record_key label node = inl s).
    { intros node. unfold record_key. rewrite Hs. reflexivity. }
    split.
    + intros Hne. destruct where_ as [|n rest]; [contradiction |].
      destruct (Hcover n) as (node & Hin & _); [left |].
      destruct (Hpair node Hin) as [r Hz].
      destruct (store_all_lookup_in label (_records m) _ _ Hz)
        as (nr' & Hin' & _ & Hl).
      simpl in Hl. rewrite Hkey in Hl.
      exists (snd nr'). rewrite Hr. split; [exact Hl |]. apply Hnew; exact Hin'.
    + intros k Hk. rewrite Hr. apply store_all_lookup_ne.
      intros nr _. rewrite Hkey. congruence.
  - intros Hnone.
    assert (Hkey : forall node, record_key label node = inr (node_id (row node))).
    { intros node. unfold record_key. rewrite Hnone. reflexivity. }
    split.
    + intros n Hn. destruct (Hcover n Hn) as (node & Hin & _ & Hid).
      destruct (Hpair node Hin) as [r Hz].
      destruct (store_all_lookup_in label (_records m) _ _ Hz)
        as (nr' & Hin' & _ & Hl).
      simpl in Hl. rewrite Hkey, Hid in Hl.
      exists (snd nr'). rewrite Hr. split; [exact Hl |]. apply Hnew; exact Hin'.
    + intros k Hk. rewrite Hr. apply store_all_lookup_ne.
      intros [node r] Hin. simpl. rewrite Hkey.
      apply elem_of_zip_l in Hin. rewrite Forall_forall in Hrows.
      destruct (Hrows node Hin) as [_ Hw]. intros Heq. apply (Hk _ Hw). congruence.
Qed.

Lemma C1_records_overwrite_witness :
  exists m',
    _add_record [3%Z] (PyStr "v") (Some "soma"%string) y_model = (m', Ok tt) /\
    exists r, _records m' !! inl "soma"%string = Some r /\
              next_handle y_model <= rec_handle r /\ rec_ref r = "_ref_v"%string.
Proof.
  exists (fst (_add_record [3%Z] (PyStr "v") (Some "soma"%string) y_model)).
  assert (H : _add_record [3%Z] (PyStr "v") (Some "soma"%string) y_model =
              (fst (_add_record [3%Z] (PyStr "v") (Some "soma"%string) y_model),
               Ok tt)) by (vm_compute; reflexivity).
  split; [exact H |].
  destruct (C1_records_stored_by_overwrite _ _ _ _ _ H) as [Hlab _].
  destruct (Hlab "soma"%string eq_refl) as [Hstore _].
  apply Hstore. discriminate.
Defined.

(** C1 as stated fails: two unlabelled recordings at node 3 leave one
    recorder under the node id, and the first one is stored nowhere. *)
Lemma C1_node_key_replaces_counterexample :
  let m1 := fst (add_voltage_record [3%Z] None y_model) in
  let m2 := fst (add_voltage_record [3%Z] None m1) in
  snd (add_voltage_record [3%Z] None y_model) = Ok tt /\
  snd (add_voltage_record [3%Z] None m1) = Ok tt /\
  exists r1 r2,
    _records m1 !! inr 3%Z = Some r1 /\
    _records m2 !! inr 3%Z = Some r2 /\
    rec_handle r1 <> rec_handle r2 /\
    ~ (exists k, _records m2 !! k = Some r1).
Proof.
  set (r1 := {| rec_handle := 0; rec_seg := (1, Num 1); rec_ref := "_ref_v" |}).
  set (r2 := {| rec_handle := 1; rec_seg := (1, Num 1); rec_ref := "_ref_v" |}).
  assert (H1 : _records (fst (add_voltage_record [3%Z] None y_model)) =
               <[inr 3%Z := r1]> ∅) by (vm_compute; reflexivity).
  assert (H2 : _records (fst (add_voltage_record [3%Z] None
                 (fst (add_voltage_record [3%Z] None y_model)))) =
               <[inr 3%Z := r2]> (<[inr 3%Z := r1]> ∅)) by (vm_compute; reflexivity).
  cbv zeta. split; [vm_compute; reflexivity |]. split; [vm_compute; reflexivity |].
  exists r1, r2. rewrite H1, H2.
  split; [apply lookup_insert_eq |]. split; [apply lookup_insert_eq |].
  split; [discriminate |].
  intros [k Hk]. rewrite insert_insert_eq in Hk.
  destruct (decide (k = inr 3%Z)) as [-> | Hne].
  - rewrite lookup_insert_eq in Hk. discriminate.
  - rewrite lookup_insert_ne, lookup_empty in Hk by congruence. discriminate.
Qed.

Lemma zip_snoc {A B} (l : list A) (k : list B) (a : A) (b : B) :
  length l = length k -> zip (l ++ [a]) (k ++ [b]) = zip l k ++ [(a, b)].
Proof. intros H. rewrite zip_with_app by exact H. reflexivity. Qed.

(** C10.  With a label and a batch of nodes, the call creates one recorder
    per row, in order; afterwards the label holds the last of them and none
    of the earlier ones is stored under any key. *)
Theorem C10_label_keeps_last_recorder_only (where_ : list Z) (w s : string)
    (label : option string) (m m' : Model) :
  records_allocated m ->
  label_given label = Some s ->
  where_ <> [] ->
  _add_record where_ (PyStr w) label m = (m', Ok tt) ->
  exists earlier r_last node,
    nrn_created m' = nrn_created m ++ map Vector (earlier ++ [r_last]) /\
    length where_ <= length (earlier ++ [r_last]) /\
    Some (node_id (row node)) = last where_ /\
    segment_at m node = Ok (rec_seg r_last) /\
    _records m' = <[inl s := r_last]> (_records m) /\
    forall r, r ∈ earlier -> forall k, _records m' !! k <> Some r.
Proof.
  intros Hwf Hs Hne H. unfold _add_record in H.
  destruct (loc_rows (skeleton_nodes m) where_) as [rows|e] eqn:El;
    [| discriminate].
  apply add_record_loop_spec in H.
  destruct H as (recs & HF & Hc & _ & Hr & _).
  apply recorders_by_index in HF. destruct HF as [Hlen Hidx].
  pose proof (loc_rows_spec _ _ _ El) as (_ & Hcover & Hlast).
  destruct (last where_) as [n|] eqn:Ew; [| apply last_None in Ew; contradiction].
  destruct (Hlast n eq_refl) as (node & Hnode & Hid).
  apply last_Some in Hnode. destruct Hnode as [rows0 ->].
  destruct recs as [|r0 recs0] using rev_ind.
  { rewrite length_app in Hlen. simpl in Hlen. exfalso. lia. }
  clear IHrecs0. rename recs0 into earlier, r0 into r_last.
  rewrite !length_app in Hlen. simpl in Hlen.
  assert (Hlen0 : length rows0 = length earlier) by lia.
  exists earlier, r_last, node.
  assert (Hlast_rec : recorder_for m (ref_name w)
                        (next_handle m + length earlier) node r_last).
  { destruct (Hidx (length earlier) r_last) as (node' & Hn' & Hrec).
    - rewrite lookup_app_r, Nat.sub_diag by lia. reflexivity.
    - rewrite lookup_app_r, Hlen0, Nat.sub_diag in Hn' by lia.
      injection Hn' as <-. exact Hrec. }
  assert (Hstore : _records m' = <[inl s := r_last]> (_records m)).
  { rewrite Hr, zip_snoc by exact Hlen0.
    apply (store_all_same_key label (_records m) (zip rows0 earlier) (node, r_last)).
    intros nr _. unfold record_key. rewrite Hs. reflexivity. }
  split; [exact Hc |].
  split.
  { rewrite length_app. simpl. rewrite <- Hlen0.
    apply loc_rows_length in El. rewrite length_app in El. simpl in El. lia. }
  split; [rewrite Hid; reflexivity |].
  split; [apply Hlast_rec |].
  split; [exact Hstore |].
  intros r Hin k Hk. rewrite Hstore in Hk.
  apply list_elem_of_lookup in Hin. destruct Hin as [i Hi].
  destruct (Hidx i r) as (_ & _ & Hh & _).
  { rewrite lookup_app_l; [exact Hi | eapply lookup_lt_Some; eauto]. }
  apply lookup_lt_Some in Hi.
  destruct Hlast_rec as [Hhl _].
  destruct (decide (k = inl s)) as [-> | Hk'].
  - rewrite lookup_insert_eq in Hk. injection Hk as ->. lia.
  - rewrite lookup_insert_ne in Hk by congruence.
    apply Hwf in Hk. lia.
Qed.

Lemma C10_label_keeps_last_witness :
  exists m' earlier r_last,
    _add_record [3%Z; 4%Z] (PyStr "v") (Some "tips"%string) y_model = (m', Ok tt) /\
    length earlier = 1 /\
    _records m' = <[inl "tips"%string := r_last]> (_records y_model) /\
    forall r, r ∈ earlier -> forall k, _records m' !! k <> Some r.
Proof.
  set (call := _add_record [3%Z; 4%Z] (PyStr "v") (Some "tips"%string) y_model).
  assert (H : call = (fst call, Ok tt)) by (vm_compute; reflexivity).
  assert (Hwf : records_allocated y_model).
  { intros k r Hk. vm_compute in Hk. discriminate. }
  destruct (C10_label_keeps_last_recorder_only [3%Z; 4%Z] "v" "tips"
              (Some "tips"%string) y_model (fst call) Hwf eq_refl
              ltac:(discriminate) H)
    as (earlier & r_last & node & Hc & _ & _ & _ & Hst & Hgone).
  exists (fst call), earlier, r_last.
  split; [exact H |]. split; [| split; [exact Hst | exact Hgone]].
  apply (f_equal (@length hobject)) in Hc.
  rewrite length_app, length_map, length_app in Hc.
  assert (Hl : length (nrn_created (fst call)) = 2) by (vm_compute; reflexivity).
  assert (Hy : length (nrn_created y_model) = 0) by (vm_compute; reflexivity).
  rewrite Hl, Hy in Hc. simpl in Hc. lia.
Defined.

(** ** Failed calls *)

Lemma sec_ix_float (tbl : list located_row) (r : located_row) :
  r ∈ tbl -> sec_ix r = None -> sec_ix_is_int tbl = false.
Proof.
  intros Hin Hr. unfold sec_ix_is_int.
  apply not_true_is_false. intros Hall.
  rewrite forallb_forall in Hall.
  specialize (Hall r (proj1 (list_elem_of_In _ _) Hin)).
  rewrite Hr in Hall. apply bool_decide_eq_true in Hall.
  destruct Hall; discriminate.
Qed.

Lemma index_sections_float (a : bool) (tbl : list located_row)
    (secs : list Section) (v : option nat) :
  sec_ix_is_int tbl = false ->
  index_sections a tbl secs v = Raise (if a then IndexError else TypeError).
Proof. intros H. unfold index_sections. rewrite H. reflexivity. Qed.

(** Either the row lookup raises, or there are rows and the section index
    column is not an integer column. *)
Lemma unlocated_batch (m : Model) (where_ : list Z) (n : Z) :
  n ∈ where_ -> ~ located m n ->
  (exists e, loc_rows (skeleton_nodes m) where_ = Raise e) \/
  (exists node rest, loc_rows (skeleton_nodes m) where_ = Ok (node :: rest) /\
                     sec_ix_is_int (skeleton_nodes m) = false).
Proof.
  intros Hin Hun.
  destruct (loc_rows (skeleton_nodes m) where_) as [rows|e] eqn:El; [| eauto].
  right. apply loc_rows_spec in El. destruct El as (_ & Hcover & _).
  destruct (Hcover n Hin) as (node & Hr & Ht & Hid).
  assert (Hnone : sec_ix node = None).
  { destruct (sec_ix node) eqn:E; [| reflexivity].
    exfalso. apply Hun. exists node. rewrite E. eauto. }
  destruct rows as [|node0 rest]; [inversion Hr |].
  exists node0, rest. split; [reflexivity |].
  eapply sec_ix_float; eauto.
Qed.

(** C8.  When some id of the batch is not in the location map, every
    instrumentation call raises and the three registries are as before;
    [_add_record] with a [what] that is not a string raises [TypeError]
    and changes nothing at all. *)
Theorem C8_failed_call_mutates_no_registry (m : Model) (where_ : list Z) :
  ((exists n, n ∈ where_ /\ ~ located m n) ->
     (forall what label,
        exists e, snd (_add_record where_ what label m) = Raise e /\
                  same_registries m (fst (_add_record where_ what label m))) /\
     (forall stimulus kwargs,
        exists e, snd (_add_stimulus stimulus where_ kwargs m) = Raise e /\
                  same_registries m (fst (_add_stimulus stimulus where_ kwargs m))) /\
     (forall ps,
        exists e, snd (add_synaptic_input where_ ps m) = Raise e /\
                  same_registries m (fst (add_synaptic_input where_ ps m))))
  /\ (forall what label,
        (forall s, what <> PyStr s) ->
        _add_record where_ what label m = (m, Raise TypeError)).
Proof.
  split.
  - intros (n & Hin & Hun).
    destruct (unlocated_batch m where_ n Hin Hun)
      as [[e He] | (node & rest & Hrows & Hfloat)].
    + split; [| split].
      * intros what label. unfold _add_record.
        destruct what; [rewrite He |..]; simpl; eexists;
          (split; [reflexivity | repeat split]).
      * intros stimulus kwargs. unfold _add_stimulus. rewrite He; simpl.
        eexists; split; [reflexivity | repeat split].
      * intros ps. unfold add_synaptic_input. cbv zeta.
        change (skeleton_nodes (allocate 1 _ m)) with (skeleton_nodes m).
        rewrite He; simpl. eexists; split; [reflexivity | repeat split].
    + split; [| split].
      * intros what label. unfold _add_record.
        destruct what; [rewrite Hrows |..]; simpl.
        -- unfold segment_at. rewrite index_sections_float by exact Hfloat.
           simpl. eexists; split; [reflexivity | repeat split].
        -- eexists; split; [reflexivity | repeat split].
        -- eexists; split; [reflexivity | repeat split].
      * intros stimulus kwargs. unfold _add_stimulus. rewrite Hrows; simpl.
        unfold segment_at. rewrite index_sections_float by exact Hfloat.
        simpl. eexists; split; [reflexivity | repeat split].
      * intros ps. unfold add_synaptic_input. cbv zeta.
        change (skeleton_nodes (allocate 1 _ m)) with (skeleton_nodes m).
        rewrite Hrows; simpl.
        unfold segment_at.
        change (skeleton_nodes (allocate 1 _ m)) with (skeleton_nodes m).
        rewrite index_sections_float by exact Hfloat.
        simpl. eexists; split; [reflexivity | repeat split].
  - intros what label Hns. unfold _add_record.
    destruct what as [s | z |]; [destruct (Hns s eq_refl) | reflexivity ..].
Qed.

Lemma C8_failed_call_witness :
  (exists n, n ∈ [3%Z; 9%Z] /\ ~ located y_model n) /\
  (exists e, snd (_add_record [3%Z; 9%Z] (PyStr "v") None y_model) = Raise e /\
             same_registries y_model
               (fst (_add_record [3%Z; 9%Z] (PyStr "v") None y_model))) /\
  _add_record [3%Z] (PyInt 7) None y_model = (y_model, Raise TypeError).
Proof.
  assert (Hun : exists n, n ∈ [3%Z; 9%Z] /\ ~ located y_model n).
  { exists 9%Z. split; [right; left |].
    intros (r & Hin & Hid & _). vm_compute in Hin.
    repeat (apply elem_of_cons in Hin; destruct Hin as [-> | Hin];
            [discriminate |]).
    inversion Hin. }
  split; [exact Hun |].
  destruct (C8_failed_call_mutates_no_registry y_model [3%Z; 9%Z]) as [Hfail _].
  destruct (Hfail Hun) as (Hrec & _ & _).
  split; [apply Hrec |].
  destruct (C8_failed_call_mutates_no_registry y_model [3%Z]) as [_ Hty].
  apply Hty. discriminate.
Defined.

(** ** Synaptic input *)

Lemma extends_refl d : extends d d.
Proof. intros n l H. exists []. rewrite app_nil_r. exact H. Qed.

Lemma extends_trans d1 d2 d3 : extends d1 d2 -> extends d2 d3 -> extends d1 d3.
Proof.
  intros H12 H23 n l H. destruct (H12 n l H) as [new1 H1].
  destruct (H23 n _ H1) as [new2 H2]. exists (new1 ++ new2).
  rewrite app_assoc. exact H2.
Qed.

Lemma extends_dict_append d k new : extends d (dict_append d k new).
Proof.
  intros n l H. unfold dict_append.
  destruct (decide (k = n)) as [-> | Hne].
  - exists new. rewrite lookup_insert_eq, H. reflexivity.
  - exists []. rewrite lookup_insert_ne, app_nil_r by exact Hne. exact H.
Qed.

Lemma dict_append_lookup d k new :
  dict_append d k new !! k = Some (default [] (d !! k) ++ new).
Proof. unfold dict_append. apply lookup_insert_eq. Qed.

Lemma synaptic_input_loop_spec (ps : spike_params) (stim : hobject)
    (rows : list located_row) :
  forall m m' r,
    synaptic_input_loop ps stim rows m = (m', r) ->
    exists objs,
      nrn_created m' = nrn_created m ++ objs /\
      Forall (sources_ok stim) objs /\
      extends (_stimuli m) (_stimuli m') /\
      extends (_synapses m) (_synapses m') /\
      _records m' = _records m /\
      (r = Ok tt ->
       forall node, node ∈ rows ->
         exists syn nc lsy lst,
           syn ∈ objs /\ nc ∈ objs /\
           is_Exp2Syn syn = true /\ connects stim syn nc /\
           _synapses m' !! node_id (row node) = Some lsy /\ syn ∈ lsy /\
           _stimuli m' !! node_id (row node) = Some lst /\
           nc ∈ lst /\ stim ∈ lst).
Proof.
  induction rows as [|node rest IH]; intros m m' r H; simpl in H.
  - injection H as <- <-. exists []. rewrite app_nil_r.
    repeat split; auto using extends_refl.
    intros _ node Hin. inversion Hin.
  - destruct (segment_at m node) as [seg|e] eqn:Eseg.
    + apply IH in H.
      destruct H as (objs & Hc & Hsrc & Hst & Hsy & Hr & Hok).
      simpl in Hc, Hst, Hsy, Hr.
      set (syn := Exp2Syn (next_handle m) seg (syn_tau1 ps) (syn_tau2 ps)
                          (syn_rev_pot ps) (syn_curr ps)) in *.
      set (nc := NetCon (1 + next_handle m) (handle_of stim) (handle_of syn)
                        (cn_thresh ps) (cn_delay ps) (cn_weight0 ps)) in *.
      exists (syn :: nc :: objs).
      split; [rewrite Hc, <- !app_assoc; reflexivity |].
      split; [repeat constructor; exact Hsrc |].
      split; [eapply extends_trans; [apply extends_dict_append | exact Hst] |].
      split; [eapply extends_trans; [apply extends_dict_append | exact Hsy] |].
      split; [exact Hr |].
      intros Hrok node' Hin. apply elem_of_cons in Hin.
      destruct Hin as [-> | Hin].
      * destruct (Hst (node_id (row node)) _ (dict_append_lookup _ _ _))
          as [new Hnew].
        destruct (Hsy (node_id (row node)) _ (dict_append_lookup _ _ _))
          as [new' Hnew'].
        exists syn, nc,
          ((default [] (_synapses m !! node_id (row node)) ++ [syn]) ++ new'),
          ((default [] (_stimuli m !! node_id (row node)) ++ [nc; stim]) ++ new).
        split; [left |]. split; [right; left |].
        split; [reflexivity |]. split; [split; reflexivity |].
        split; [exact Hnew' |].
        split; [apply elem_of_app; left; apply elem_of_app; right; left |].
        split; [exact Hnew |].
        split; apply elem_of_app; left; apply elem_of_app; right;
          [left | right; left].
      * destruct (Hok Hrok node' Hin)
          as (syn' & nc' & lsy & lst & H1 & H2 & H3 & H4 & H5 & H6 & H7 & H8 & H9).
        exists syn', nc', lsy, lst.
        split; [right; right; exact H1 |]. split; [right; right; exact H2 |].
        repeat split; assumption.
    + injection H as <- <-. exists []. rewrite app_nil_r.
      repeat split; auto using extends_refl. discriminate.
Qed.

(** C7.  [add_synaptic_input] creates one NetStim, before anything else;
    nothing it creates afterwards is a NetStim, and every NetCon it creates
    has that NetStim as its source.  The per-node synapse and stimulus lists
    only grow at their end.  After a call that returns, every target has a
    synapse created by this call in its synapse list, and in its stimulus
    list the shared NetStim together with a NetCon, created by this call,
    from the NetStim to that synapse. *)
Theorem C7_one_shared_generator_lists_appended (where_ : list Z)
    (ps : spike_params) (m : Model) :
  let call := add_synaptic_input where_ ps m in
  exists stim objs,
    is_NetStim stim = true /\ handle_of stim = next_handle m /\
    nrn_created (fst call) = nrn_created m ++ stim :: objs /\
    Forall (fun o => is_NetStim o = false) objs /\
    Forall (fun o => forall h source target th de we,
                       o = NetCon h source target th de we ->
                       source = handle_of stim) objs /\
    extends (_stimuli m) (_stimuli (fst call)) /\
    extends (_synapses m) (_synapses (fst call)) /\
    (snd call = Ok tt ->
     forall n, n ∈ where_ ->
       exists syn nc lsy lst,
         syn ∈ objs /\ nc ∈ objs /\
         is_Exp2Syn syn = true /\ connects stim syn nc /\
         _synapses (fst call) !! n = Some lsy /\ syn ∈ lsy /\
         _stimuli (fst call) !! n = Some lst /\ nc ∈ lst /\ stim ∈ lst).
Proof.
  cbv zeta. unfold add_synaptic_input. cbv zeta.
  set (stim := NetStim (next_handle m) (spike_no ps) (start ps)
                       (spike_noise ps) (spike_int ps)).
  change (skeleton_nodes (allocate 1 [stim] m)) with (skeleton_nodes m).
  destruct (loc_rows (skeleton_nodes m) where_) as [rows|e] eqn:El.
  - destruct (synaptic_input_loop ps stim rows (allocate 1 [stim] m))
      as [m' r] eqn:Eloop.
    apply synaptic_input_loop_spec in Eloop.
    destruct Eloop as (objs & Hc & Hsrc & Hst & Hsy & _ & Hok).
    simpl in Hc, Hst, Hsy. simpl fst; simpl snd.
    exists stim, objs.
    split; [reflexivity |]. split; [reflexivity |].
    split; [rewrite Hc, <- app_assoc; reflexivity |].
    split.
    { eapply Forall_impl; [exact Hsrc |]. intros [] Ho; simpl in *; tauto. }
    split.
    { eapply Forall_impl; [exact Hsrc |].
      intros o Ho h source target th de we ->. exact Ho. }
    split; [exact Hst |]. split; [exact Hsy |].
    intros Hr n Hn.
    apply loc_rows_spec in El. destruct El as (_ & Hcover & _).
    destruct (Hcover n Hn) as (node & Hin & _ & <-).
    exact (Hok Hr node Hin).
  - simpl. exists stim, [].
    repeat split; auto using extends_refl; try constructor. discriminate.
Qed.

(** On the Y skeleton with a synapse already at node 3: the call returns,
    node 3 keeps its old synapse in front of the new one, and node 4 gets
    its first. *)
Lemma C7_shared_generator_witness :
  let m := fst (add_synaptic_input [3%Z] default_spike y_model) in
  let call := add_synaptic_input [3%Z; 4%Z] default_spike m in
  snd call = Ok tt /\
  (exists old, _synapses m !! 3%Z = Some [old] /\
     exists new, _synapses (fst call) !! 3%Z = Some ([old] ++ new)) /\
  exists stim objs syn nc lsy lst,
    nrn_created (fst call) = nrn_created m ++ stim :: objs /\
    is_NetStim stim = true /\
    syn ∈ objs /\ nc ∈ objs /\
    is_Exp2Syn syn = true /\ connects stim syn nc /\
    _synapses (fst call) !! 4%Z = Some lsy /\ syn ∈ lsy /\
    _stimuli (fst call) !! 4%Z = Some lst /\ nc ∈ lst /\ stim ∈ lst.
Proof.
  cbv zeta.
  set (m := fst (add_synaptic_input [3%Z] default_spike y_model)).
  assert (Hok : snd (add_synaptic_input [3%Z; 4%Z] default_spike m) = Ok tt)
    by (vm_compute; reflexivity).
  destruct (C7_one_shared_generator_lists_appended [3%Z; 4%Z] default_spike m)
    as (stim & objs & Hs & _ & Hc & _ & _ & _ & Hsy & Hall).
  split; [exact Hok |]. split.
  - eexists. split; [vm_compute; reflexivity |].
    eapply Hsy. vm_compute. reflexivity.
  - destruct (Hall Hok 4%Z) as (syn & nc & lsy & lst & H); [right; left |].
    exists stim, objs, syn, nc, lsy, lst.
    split; [exact Hc |]. split; [exact Hs |]. exact H.
Defined.

(** On the Y skeleton: one generator for two targets. *)
Example synaptic_input_on_y :
  let call := add_synaptic_input [3%Z; 4%Z] default_spike y_model in
  snd call = Ok tt /\
  map handle_of (nrn_created (fst call)) = [0; 1; 2; 3; 4] /\
  length (List.filter is_NetStim (nrn_created (fst call))) = 1.
Proof. vm_compute. repeat split; reflexivity. Qed.

(** ** Tree-shaped skeletons *)

Lemma nodup_map_inj {A B} (f : A -> B) (l : list A) (a b : A) :
  NoDup (map f l) -> a ∈ l -> b ∈ l -> f a = f b -> a = b.
Proof.
  induction l as [|c l IH]; simpl; intros Hnd Ha Hb Hf; [inversion Ha |].
  apply NoDup_cons in Hnd. destruct Hnd as [Hc Hnd].
  apply elem_of_cons in Ha. apply elem_of_cons in Hb.
  destruct Ha as [-> | Ha], Hb as [-> | Hb]; auto.
  - exfalso. apply Hc. rewrite Hf. apply (list_elem_of_fmap_2 f). exact Hb.
  - exfalso. apply Hc. rewrite <- Hf. apply (list_elem_of_fmap_2 f). exact Ha.
Qed.

Lemma find_row_Some (x : TreeNeuron) (n : Z) (r : node_row) :
  find_row x n = Some r -> r ∈ nodes x /\ node_id r = n.
Proof.
  unfold find_row. intros H. apply find_some in H. destruct H as [Hin Hid].
  split; [apply list_elem_of_In; exact Hin | apply Z.eqb_eq; exact Hid].
Qed.

Lemma in_list_spec (n : Z) (l : list Z) : in_list n l = true <-> n ∈ l.
Proof.
  unfold in_list. rewrite existsb_exists. split.
  - intros (m & Hin & Heq). apply Z.eqb_eq in Heq. subst m.
    apply list_elem_of_In; exact Hin.
  - intros Hin. exists n. split; [apply list_elem_of_In; exact Hin | apply Z.eqb_refl].
Qed.

Lemma in_root_spec (x : TreeNeuron) (n : Z) :
  in_list n (root x) = true <->
  exists r, r ∈ nodes x /\ node_id r = n /\ parent_id r = None.
Proof.
  rewrite in_list_spec. unfold root. split.
  - intros Hin. apply list_elem_of_In, in_map_iff in Hin.
    destruct Hin as (r & Hid & Hin). apply filter_In in Hin.
    destruct Hin as [Hin Hroot]. exists r.
    split; [apply list_elem_of_In; exact Hin |]. split; [exact Hid |].
    unfold is_root_row in Hroot. destruct (parent_id r); [discriminate | reflexivity].
  - intros (r & Hin & Hid & Hp). apply list_elem_of_In, in_map_iff.
    exists r. split; [exact Hid |]. apply filter_In.
    split; [apply list_elem_of_In; exact Hin |].
    unfold is_root_row. rewrite Hp. reflexivity.
Qed.

Lemma child_exists (x : TreeNeuron) (n : Z) :
  n_children x n <> 0 ->
  exists c, c ∈ nodes x /\ parent_id c = Some n.
Proof.
  unfold n_children. intros H.
  destruct (List.filter (fun r => has_parent n r) (nodes x)) as [|c l] eqn:E;
    [contradiction |].
  assert (Hin : In c (List.filter (fun r => has_parent n r) (nodes x))).
  { rewrite E. left; reflexivity. }
  apply filter_In in Hin. destruct Hin as [Hin Hp].
  exists c. split; [apply list_elem_of_In; exact Hin |].
  unfold has_parent in Hp. destruct (parent_id c); [| discriminate].
  apply Z.eqb_eq in Hp. congruence.
Qed.

Lemma child_counts (x : TreeNeuron) (c : node_row) (n : Z) :
  c ∈ nodes x -> parent_id c = Some n -> n_children x n <> 0.
Proof.
  intros Hin Hp. unfold n_children.
  assert (H : In c (List.filter (fun r => has_parent n r) (nodes x))).
  { apply filter_In. split; [apply list_elem_of_In; exact Hin |].
    unfold has_parent. rewrite Hp. apply Z.eqb_refl. }
  destruct (List.filter _ (nodes x)); [destruct H | simpl; lia].
Qed.

Section Tree.
Variable x : TreeNeuron.
Variable h : Z -> nat.
Hypothesis Hts : tree_shaped x h.

Lemma row_unique (r r' : node_row) :
  r ∈ nodes x -> r' ∈ nodes x -> node_id r = node_id r' -> r = r'.
Proof using Hts.
  intros Hr Hr' Hid.
  exact (nodup_map_inj node_id (nodes x) r r' (ts_nodup x h Hts) Hr Hr' Hid).
Qed.

Lemma find_row_in (r : node_row) :
  r ∈ nodes x -> find_row x (node_id r) = Some r.
Proof using Hts.
  intros Hr. unfold find_row.
  destruct (find (has_id (node_id r)) (nodes x)) as [r'|] eqn:E.
  - apply (find_row_Some x) in E. destruct E as [Hr' Hid].
    f_equal. apply row_unique; auto.
  - exfalso.
    pose proof (find_none _ _ E r (proj1 (list_elem_of_In _ _) Hr)) as E'.
    unfold has_id in E'. rewrite Z.eqb_refl in E'. discriminate.
Qed.

Lemma find_row_id (n : Z) :
  n ∈ node_ids x -> exists r, find_row x n = Some r /\ node_id r = n.
Proof using Hts.
  intros Hn. unfold node_ids in Hn.
  apply list_elem_of_In, in_map_iff in Hn. destruct Hn as (r & Hid & Hin).
  exists r. subst n. split; [| reflexivity].
  apply find_row_in. apply list_elem_of_In; exact Hin.
Qed.

Lemma not_root_parent (r : node_row) :
  r ∈ nodes x -> in_list (node_id r) (root x) = false ->
  exists p, parent_id r = Some p.
Proof using Hts.
  intros Hr Hroot. destruct (parent_id r) as [p|] eqn:E; [eauto |].
  exfalso. assert (H : in_list (node_id r) (root x) = true).
  { apply in_root_spec. exists r. auto. }
  congruence.
Qed.

Lemma parent_not_root (r : node_row) (p : Z) :
  r ∈ nodes x -> parent_id r = Some p -> in_list (node_id r) (root x) = false.
Proof using Hts.
  intros Hr Hp. apply not_true_is_false. intros H.
  apply in_root_spec in H. destruct H as (r' & Hr' & Hid & Hnone).
  assert (r' = r) by (apply row_unique; auto). subst r'. congruence.
Qed.

(** With one unit of fuel per node the walk never runs dry. *)
Lemma walk_up_path (fuel : nat) (p : Z) :
  p ∈ node_ids x -> length (nodes x) <= fuel + h p ->
  path_up x p (walk_up x fuel p).
Proof using Hts.
  revert p; induction fuel as [|f IH]; intros p Hp Hfuel.
  - exfalso. destruct (find_row_id p Hp) as (r & Hr & Hid).
    apply find_row_Some in Hr. destruct Hr as [Hr _].
    pose proof (ts_bound x h Hts r Hr) as Hb. rewrite Hid in Hb. simpl in Hfuel. lia.
  - simpl. destruct (is_stop x p) eqn:Estop; [constructor; exact Estop |].
    destruct (find_row_id p Hp) as (r & Hfind & Hid). rewrite Hfind.
    pose proof (find_row_Some _ _ _ Hfind) as [Hr _].
    unfold is_stop in Estop. apply orb_false_elim in Estop.
    destruct Estop as [Hroot Hkids].
    rewrite <- Hid in Hroot.
    destruct (not_root_parent r Hr Hroot) as [q Hq]. rewrite Hq.
    eapply path_step; eauto.
    + unfold is_stop. rewrite <- Hid at 1. rewrite Hroot, Hkids. reflexivity.
    + apply IH; [eapply ts_parent; eauto |].
      pose proof (ts_height x h Hts r q Hr Hq) as Hh. rewrite Hid in Hh. lia.
Qed.

Lemma path_up_head (p : Z) (l : list Z) :
  path_up x p l -> exists l', l = p :: l'.
Proof. destruct 1; eauto. Qed.

Lemma path_up_last_stop (p : Z) (l : list Z) :
  path_up x p l -> exists t, last l = Some t /\ is_stop x t = true.
Proof.
  induction 1 as [p Hstop | p r q l Hstop Hfind Hq Hpath IH].
  - exists p. split; [reflexivity | exact Hstop].
  - destruct IH as (t & Hlast & Ht). exists t. split; [| exact Ht].
    destruct (path_up_head _ _ Hpath) as [l' ->]. exact Hlast.
Qed.

Lemma path_up_inner (p : Z) (l : list Z) :
  path_up x p l -> forall c, c ∈ removelast l -> is_stop x c = false.
Proof.
  induction 1 as [p Hstop | p r q l Hstop Hfind Hq Hpath IH]; intros c Hc.
  - inversion Hc.
  - destruct (path_up_head _ _ Hpath) as [l' ->].
    change (removelast (p :: q :: l')) with (p :: removelast (q :: l')) in Hc.
    apply elem_of_cons in Hc. destruct Hc as [-> | Hc]; auto.
Qed.

Lemma path_up_ids (p : Z) (l : list Z) :
  p ∈ node_ids x -> path_up x p l -> Forall (fun n => n ∈ node_ids x) l.
Proof using Hts.
  intros Hp Hpath. induction Hpath as [p Hstop | p r q l Hstop Hfind Hq Hpath IH].
  - repeat constructor. exact Hp.
  - constructor; [exact Hp |]. apply IH.
    apply find_row_Some in Hfind. destruct Hfind as [Hr _].
    eapply ts_parent; eauto.
Qed.

Lemma path_up_edges (p : Z) (l : list Z) :
  path_up x p l -> Forall (is_edge x) (zip (removelast l) (tail l)).
Proof.
  induction 1 as [p Hstop | p r q l Hstop Hfind Hq Hpath IH].
  - constructor.
  - destruct (path_up_head _ _ Hpath) as [l' ->].
    change (removelast (p :: q :: l')) with (p :: removelast (q :: l')).
    simpl tail in *.
    change (zip (p :: removelast (q :: l')) (q :: l'))
      with ((p, q) :: zip (removelast (q :: l')) l').
    constructor; [| exact IH].
    apply find_row_Some in Hfind. destruct Hfind as [Hr Hid].
    exists r. simpl. auto.
Qed.

(** Where a child sits on a walk, below the top, its parent follows. *)
Lemma path_up_follow (p : Z) (l : list Z) :
  path_up x p l ->
  forall c rc n, c ∈ removelast l -> rc ∈ nodes x -> node_id rc = c ->
                 parent_id rc = Some n ->
                 n ∈ l /\ (is_stop x n = false -> n ∈ removelast l).
Proof using Hts.
  induction 1 as [p Hstop | p r q l Hstop Hfind Hq Hpath IH];
    intros c rc n Hc Hrc Hid Hn.
  - inversion Hc.
  - destruct (path_up_head _ _ Hpath) as [l' ->].
    change (removelast (p :: q :: l')) with (p :: removelast (q :: l')) in *.
    apply elem_of_cons in Hc. destruct Hc as [-> | Hc].
    + apply find_row_Some in Hfind. destruct Hfind as [Hr Hidr].
      assert (rc = r) by (apply row_unique; congruence). subst rc.
      assert (n = q) by congruence. subst n.
      split; [right; left |].
      intros Hns. right.
      inversion Hpath as [? Hs | ? r' q' l'' Hs' Hf' Hq' Hp']; subst;
        [congruence |].
      destruct (path_up_head _ _ Hp') as [l3 ->]. left.
    + destruct (IH c rc n Hc Hrc Hid Hn) as [H1 H2].
      split; [right; exact H1 | intros Hns; right; auto].
Qed.

Lemma path_up_height (p : Z) (l : list Z) :
  path_up x p l -> Forall (fun c => h p <= h c) l.
Proof using Hts.
  induction 1 as [p Hstop | p r q l Hstop Hfind Hq Hpath IH].
  - repeat constructor.
  - constructor; [lia |].
    apply find_row_Some in Hfind. destruct Hfind as [Hr Hid].
    pose proof (ts_height x h Hts r q Hr Hq) as Hh. rewrite Hid in Hh.
    eapply Forall_impl; [exact IH |]. simpl. intros c Hc. lia.
Qed.

End Tree.

(** ** Segments of a tree *)

Lemma head_rev {A} (l : list A) : head (rev l) = last l.
Proof.
  induction l as [|a l IH] using rev_ind; [reflexivity |].
  rewrite rev_app_distr, last_snoc. reflexivity.
Qed.

Lemma tail_rev {A} (l : list A) : tail (rev l) = rev (removelast l).
Proof.
  induction l as [|a l IH] using rev_ind; [reflexivity |].
  rewrite rev_app_distr, removelast_last. reflexivity.
Qed.

Lemma length_removelast_cons {A} (a : A) (l : list A) :
  length (removelast (a :: l)) = length l.
Proof.
  revert a; induction l as [|b l IH]; intros a; [reflexivity |].
  change (removelast (a :: b :: l)) with (a :: removelast (b :: l)).
  cbn [length]. rewrite IH. reflexivity.
Qed.

Lemma segment_positions_eq (x : TreeNeuron) (seg : list Z) (ws : list Q) :
  rmapM (edge_weight x) (zip (removelast seg) (tail seg)) = Ok ws ->
  seg <> [] ->
  segment_positions x seg = Ok (mapped_nodes x seg, mapped_positions x seg ws).
Proof.
  intros Hws Hne. unfold segment_positions, mapped_nodes, mapped_positions.
  rewrite Hws. simpl. rewrite head_rev.
  destruct (last seg) as [t|] eqn:El; [| apply last_None in El; contradiction].
  simpl. destruct (in_list t (root x)); reflexivity.
Qed.

Lemma rmapM_total {A B} (f : A -> result B) (l : list A) :
  Forall (fun a => exists b, f a = Ok b) l ->
  exists bs, rmapM f l = Ok bs /\ length bs = length l.
Proof.
  induction 1 as [|a l [b Hb] _ (bs & Hbs & Hlen)]; simpl.
  - exists []. auto.
  - exists (b :: bs). rewrite Hb, Hbs. simpl. auto.
Qed.

Section Chains.
Variable x : TreeNeuron.
Variable h : Z -> nat.
Hypothesis Hts : tree_shaped x h.

Lemma edge_weight_total (cp : Z * Z) :
  is_edge x cp -> exists w, edge_weight x cp = Ok w.
Proof.
  intros (r & Hr & Hid & Hp). unfold edge_weight.
  destruct (find _ (nodes x)) as [r'|] eqn:E; [eauto |].
  exfalso.
  pose proof (find_none _ _ E r (proj1 (list_elem_of_In _ _) Hr)) as E'.
  simpl in E'. unfold has_id, has_parent in E'.
  rewrite Hid, Hp, !Z.eqb_refl in E'. discriminate.
Qed.

(** A seed is a leaf or a branch point below the roots, or a root without
    children. *)
Lemma seed_cases (s : node_row) :
  is_seed x s = true ->
  (exists q, parent_id s = Some q) \/
  (parent_id s = None /\ n_children x (node_id s) = 0).
Proof.
  unfold is_seed, is_root_row. intros H.
  apply andb_prop in H. destruct H as [_ H].
  destruct (parent_id s) as [q|]; [left; eauto | right].
  simpl in H. apply Nat.eqb_eq in H. auto.
Qed.

(** The chain of a childless root is the root alone. *)
Lemma lone_root_chain (s : node_row) :
  s ∈ nodes x -> parent_id s = None ->
  chain_of x s = [node_id s] /\ in_list (node_id s) (root x) = true /\
  is_stop x (node_id s) = true.
Proof.
  intros Hs Hp. unfold chain_of. rewrite Hp.
  assert (Hroot : in_list (node_id s) (root x) = true).
  { apply in_root_spec. exists s. auto. }
  split; [reflexivity |]. split; [exact Hroot |].
  unfold is_stop. rewrite Hroot. reflexivity.
Qed.

(** The chain of a seed with a parent: the seed, then the walk from its
    parent. *)
Lemma chain_shape (s : node_row) (q : Z) :
  s ∈ nodes x -> parent_id s = Some q ->
  exists l, chain_of x s = node_id s :: q :: l /\ path_up x q (q :: l).
Proof using Hts.
  intros Hs Hq. unfold chain_of. rewrite Hq.
  assert (Hpath : path_up x q (walk_up x (length (nodes x)) q)).
  { apply (walk_up_path x h Hts); [eapply ts_parent; eauto | lia]. }
  destruct (path_up_head x _ _ Hpath) as [l Hl].
  exists l. rewrite Hl in *. auto.
Qed.

Lemma chain_edges (s : node_row) :
  s ∈ nodes x -> is_seed x s = true ->
  Forall (is_edge x) (zip (removelast (chain_of x s)) (tail (chain_of x s))).
Proof using Hts.
  intros Hs Hseed.
  destruct (seed_cases s Hseed) as [[q Hq] | [Hp _]].
  - destruct (chain_shape s q Hs Hq) as (l & -> & Hpath).
    change (removelast (node_id s :: q :: l))
      with (node_id s :: removelast (q :: l)).
    simpl tail.
    change (zip (node_id s :: removelast (q :: l)) (q :: l))
      with ((node_id s, q) :: zip (removelast (q :: l)) (tail (q :: l))).
    constructor; [exists s; simpl; auto |].
    eapply path_up_edges; eauto.
  - destruct (lone_root_chain s Hs Hp) as [-> _]. constructor.
Qed.

Lemma chain_weights (s : node_row) :
  s ∈ nodes x -> is_seed x s = true ->
  exists ws,
    rmapM (edge_weight x)
          (zip (removelast (chain_of x s)) (tail (chain_of x s))) = Ok ws /\
    S (length ws) = length (chain_of x s).
Proof using Hts.
  intros Hs Hseed.
  destruct (rmapM_total (edge_weight x)
              (zip (removelast (chain_of x s)) (tail (chain_of x s))))
    as (ws & Hws & Hlen).
  { eapply Forall_impl; [apply chain_edges; assumption |].
    intros cp. apply edge_weight_total. }
  exists ws. split; [exact Hws |]. rewrite Hlen.
  destruct (seed_cases s Hseed) as [[q Hq] | [Hp _]].
  - destruct (chain_shape s q Hs Hq) as (l & -> & _).
    rewrite length_zip_with, length_removelast_cons. simpl. lia.
  - destruct (lone_root_chain s Hs Hp) as [-> _]. reflexivity.
Qed.

Lemma chain_ids (s : node_row) :
  s ∈ nodes x -> is_seed x s = true ->
  Forall (fun n => n ∈ node_ids x) (chain_of x s).
Proof using Hts.
  intros Hs Hseed.
  assert (Hid : node_id s ∈ node_ids x)
    by (apply (list_elem_of_fmap_2 node_id); exact Hs).
  destruct (seed_cases s Hseed) as [[q Hq] | [Hp _]].
  - destruct (chain_shape s q Hs Hq) as (l & -> & Hpath).
    constructor; [exact Hid |].
    apply (path_up_ids x h Hts q); [| exact Hpath].
    eapply ts_parent; eauto.
  - destruct (lone_root_chain s Hs Hp) as [-> _]. repeat constructor. exact Hid.
Qed.

(** Below the top of a chain, a node's parent is on the chain too. *)
Lemma chain_follow (s : node_row) (c n : Z) (rc : node_row) :
  s ∈ nodes x -> is_seed x s = true ->
  c ∈ removelast (chain_of x s) ->
  rc ∈ nodes x -> node_id rc = c -> parent_id rc = Some n ->
  n ∈ chain_of x s /\
  (is_stop x n = false -> n ∈ removelast (chain_of x s)).
Proof using Hts.
  intros Hs Hseed Hc Hrc Hid Hn.
  destruct (seed_cases s Hseed) as [[q Hq] | [Hp _]].
  2: { destruct (lone_root_chain s Hs Hp) as [Hchain _].
       rewrite Hchain in Hc. inversion Hc. }
  destruct (chain_shape s q Hs Hq) as (l & Hchain & Hpath).
  rewrite Hchain in *.
  change (removelast (node_id s :: q :: l))
    with (node_id s :: removelast (q :: l)) in *.
  apply elem_of_cons in Hc. destruct Hc as [Hc | Hc].
  - assert (rc = s) by (eapply row_unique; eauto; congruence). subst rc.
    assert (n = q) by congruence. subst n.
    split; [right; left |].
    intros Hns. right.
    inversion Hpath as [? Hstop | ? r' q' l' Hstop Hf Hq' Hp']; subst;
      [congruence |].
    destruct (path_up_head x _ _ Hp') as [l3 ->]. left.
  - destruct (path_up_follow x h Hts _ _ Hpath c rc n Hc Hrc Hid Hn) as [H1 H2].
    split; [right; exact H1 | intros Hns; right; auto].
Qed.

Lemma slab_not_stop (r : node_row) (q : Z) :
  r ∈ nodes x -> parent_id r = Some q -> n_children x (node_id r) = 1 ->
  is_stop x (node_id r) = false.
Proof using Hts.
  intros Hr Hq Hk. unfold is_stop.
  rewrite (parent_not_root x h Hts r q Hr Hq), Hk. reflexivity.
Qed.

(** Every node with a parent lies on the chain of some seed, below its top. *)
Lemma covered_nonroot (k : nat) :
  forall r q, h (node_id r) < k -> r ∈ nodes x -> parent_id r = Some q ->
    exists s, s ∈ nodes x /\ is_seed x s = true /\
              node_id r ∈ removelast (chain_of x s).
Proof using Hts.
  induction k as [|k IH]; intros r q Hk Hr Hq; [lia |].
  destruct (Nat.eqb (n_children x (node_id r)) 1) eqn:Ekids.
  - apply Nat.eqb_eq in Ekids.
    destruct (child_exists x (node_id r)) as (c & Hc & Hcp); [lia |].
    pose proof (ts_height x h Hts c _ Hc Hcp) as Hh.
    destruct (IH c (node_id r)) as (s & Hs & Hseed & Hin); auto; [lia |].
    exists s. split; [exact Hs |]. split; [exact Hseed |].
    destruct (chain_follow s (node_id c) (node_id r) c Hs Hseed Hin Hc eq_refl Hcp)
      as [_ Hrem].
    apply Hrem. eapply slab_not_stop; eauto.
  - exists r. split; [exact Hr |].
    assert (Hseed : is_seed x r = true).
    { unfold is_seed, is_root_row. rewrite Hq, Ekids. reflexivity. }
    split; [exact Hseed |].
    destruct (chain_shape r q Hr Hq) as (l & -> & _).
    change (removelast (node_id r :: q :: l))
      with (node_id r :: removelast (q :: l)). left.
Qed.

Lemma chain_top (s : node_row) :
  s ∈ nodes x -> is_seed x s = true ->
  exists t, last (chain_of x s) = Some t /\ is_stop x t = true /\
            forall c, c ∈ removelast (chain_of x s) -> c <> node_id s ->
                      is_stop x c = false.
Proof using Hts.
  intros Hs Hseed.
  destruct (seed_cases s Hseed) as [[q Hq] | [Hp _]].
  - destruct (chain_shape s q Hs Hq) as (l & -> & Hpath).
    destruct (path_up_last_stop x _ _ Hpath) as (t & Hlast & Ht).
    exists t. split; [exact Hlast |]. split; [exact Ht |].
    intros c Hc Hne.
    change (removelast (node_id s :: q :: l))
      with (node_id s :: removelast (q :: l)) in Hc.
    apply elem_of_cons in Hc. destruct Hc as [-> | Hc]; [contradiction |].
    eapply path_up_inner; eauto.
  - destruct (lone_root_chain s Hs Hp) as (-> & _ & Hstop).
    exists (node_id s). split; [reflexivity |]. split; [exact Hstop |].
    intros c Hc. inversion Hc.
Qed.

End Chains.

(** ** The node -> location maps *)

Lemma dict_update_snoc {V} (d : gmap Z V) (kvs : list (Z * V)) (kv : Z * V) :
  dict_update d (kvs ++ [kv]) = <[fst kv := snd kv]> (dict_update d kvs).
Proof. unfold dict_update. rewrite fold_left_app. reflexivity. Qed.

Lemma dict_update_is_Some {V} (d : gmap Z V) (kvs : list (Z * V)) (n : Z) :
  is_Some (dict_update d kvs !! n) <-> is_Some (d !! n) \/ n ∈ map fst kvs.
Proof.
  induction kvs as [|kv kvs IH] using rev_ind.
  - simpl. split; [auto | intros [H | H]; [exact H | inversion H]].
  - rewrite dict_update_snoc, map_app, elem_of_app. simpl.
    rewrite list_elem_of_singleton.
    destruct (decide (fst kv = n)) as [Heq | Hne].
    + rewrite Heq, lookup_insert_eq. split; [intros _; right; right; reflexivity |].
      intros _. eauto.
    + rewrite lookup_insert_ne by exact Hne. rewrite IH.
      split; [tauto |]. intros [H | [H | H]]; auto. congruence.
Qed.

Lemma dict_update_not_in {V} (d : gmap Z V) (kvs : list (Z * V)) (n : Z) :
  n ∉ map fst kvs -> dict_update d kvs !! n = d !! n.
Proof.
  induction kvs as [|kv kvs IH] using rev_ind; intros H; [reflexivity |].
  rewrite map_app, elem_of_app in H. simpl in H.
  rewrite dict_update_snoc, lookup_insert_ne.
  - apply IH. tauto.
  - intros Heq. apply H. right. rewrite Heq. left.
Qed.

Lemma dict_update_last {V} (d : gmap Z V) (kvs : list (Z * V)) (n : Z) (v : V) :
  dict_update d (kvs ++ [(n, v)]) !! n = Some v.
Proof. rewrite dict_update_snoc. apply lookup_insert_eq. Qed.

Lemma map_fst_zip {A B} (l : list A) (k : list B) :
  length l = length k -> map fst (zip l k) = l.
Proof.
  revert k; induction l as [|a l IH]; intros [|b k] H; try discriminate;
    [reflexivity |].
  simpl. f_equal. apply IH. simpl in H. lia.
Qed.

Lemma cumsum_from_length (acc : Q) (l : list Q) :
  length (cumsum_from acc l) = length l.
Proof.
  revert acc; induction l as [|a l IH]; intros acc; simpl; [reflexivity |].
  rewrite IH. reflexivity.
Qed.

Lemma norm_positions_length (ws : list Q) :
  length (norm_positions ws) = S (length ws).
Proof.
  unfold norm_positions, cumsum. cbv zeta.
  rewrite length_map, cumsum_from_length. simpl. rewrite length_rev. reflexivity.
Qed.

Lemma mapped_lengths (x : TreeNeuron) (seg : list Z) (ws : list Q) :
  S (length ws) = length seg ->
  length (mapped_nodes x seg) = length (mapped_positions x seg ws).
Proof.
  intros Hlen. unfold mapped_nodes, mapped_positions.
  destruct (last seg) as [t|]; [| reflexivity].
  destruct (in_list t (root x)).
  - rewrite norm_positions_length, length_rev. lia.
  - rewrite !length_tl, norm_positions_length, length_rev. lia.
Qed.

Lemma locate_segment_eq (x : TreeNeuron) (st : gmap Z nat * gmap Z npfloat)
    (i : nat) (seg : list Z) (ws : list Q) :
  rmapM (edge_weight x) (zip (removelast seg) (tail seg)) = Ok ws ->
  S (length ws) = length seg ->
  locate_segment x st i seg =
    Ok (dict_update (fst st)
          (zip (mapped_nodes x seg) (replicate (length (mapped_nodes x seg)) i)),
        dict_update (snd st)
          (zip (mapped_nodes x seg) (mapped_positions x seg ws))).
Proof.
  intros Hws Hlen. unfold locate_segment.
  rewrite (segment_positions_eq x seg ws Hws); [reflexivity |].
  intros ->. simpl in Hlen. lia.
Qed.

Section LocateFold.
Variable x : TreeNeuron.

Lemma locate_fold_ok (segs : list (list Z)) :
  Forall (seg_ok x) segs ->
  forall i st, exists st', rfold_enum (locate_segment x) i segs st = Ok st'.
Proof.
  induction 1 as [|seg segs (ws & Hws & Hlen) _ IH]; intros i st; simpl.
  - eauto.
  - rewrite (locate_segment_eq x st i seg ws Hws Hlen). simpl. apply IH.
Qed.

Lemma locate_fold_dom (segs : list (list Z)) :
  Forall (seg_ok x) segs ->
  forall i st st',
    rfold_enum (locate_segment x) i segs st = Ok st' ->
    forall n,
      (is_Some (fst st' !! n) <->
       is_Some (fst st !! n) \/ exists seg, seg ∈ segs /\ n ∈ mapped_nodes x seg)
      /\
      (is_Some (snd st' !! n) <->
       is_Some (snd st !! n) \/ exists seg, seg ∈ segs /\ n ∈ mapped_nodes x seg).
Proof.
  induction 1 as [|seg segs (ws & Hws & Hlen) _ IH]; intros i st st' H n;
    simpl in H.
  - injection H as <-.
    split; (split; [auto | intros [Hs | (seg & Hin & _)];
                           [exact Hs | inversion Hin]]).
  - rewrite (locate_segment_eq x st i seg ws Hws Hlen) in H. simpl in H.
    destruct (IH _ _ _ H n) as [IH1 IH2]. simpl in IH1, IH2.
    rewrite dict_update_is_Some, map_fst_zip in IH1
      by (rewrite length_replicate; reflexivity).
    rewrite dict_update_is_Some, map_fst_zip in IH2
      by (apply mapped_lengths; exact Hlen).
    split.
    + rewrite IH1. split.
      * intros [[Hs | Hm] | (seg' & Hin & Hm)]; eauto.
        -- right. exists seg. split; [left | exact Hm].
        -- right. exists seg'. split; [right; exact Hin | exact Hm].
      * intros [Hs | (seg' & Hin & Hm)]; [auto |].
        apply elem_of_cons in Hin. destruct Hin as [-> | Hin]; eauto.
    + rewrite IH2. split.
      * intros [[Hs | Hm] | (seg' & Hin & Hm)]; eauto.
        -- right. exists seg. split; [left | exact Hm].
        -- right. exists seg'. split; [right; exact Hin | exact Hm].
      * intros [Hs | (seg' & Hin & Hm)]; [auto |].
        apply elem_of_cons in Hin. destruct Hin as [-> | Hin]; eauto.
Qed.

Lemma locate_fold_unmapped (segs : list (list Z)) (n : Z) :
  Forall (seg_ok x) segs ->
  Forall (fun seg => n ∉ mapped_nodes x seg) segs ->
  forall i st st',
    rfold_enum (locate_segment x) i segs st = Ok st' ->
    fst st' !! n = fst st !! n /\ snd st' !! n = snd st !! n.
Proof.
  induction 1 as [|seg segs (ws & Hws & Hlen) _ IH]; intros Hun i st st' H;
    simpl in H.
  - injection H as <-. auto.
  - apply Forall_cons in Hun. destruct Hun as [Hn Hun].
    rewrite (locate_segment_eq x st i seg ws Hws Hlen) in H. simpl in H.
    destruct (IH Hun _ _ _ H) as [IH1 IH2]. simpl in IH1, IH2.
    rewrite IH1, IH2. split; apply dict_update_not_in.
    + rewrite map_fst_zip by (rewrite length_replicate; reflexivity). exact Hn.
    + rewrite map_fst_zip by (apply mapped_lengths; exact Hlen). exact Hn.
Qed.

End LocateFold.

Lemma removelast_elem_of {A} (l : list A) (a : A) : a ∈ removelast l -> a ∈ l.
Proof.
  induction l as [|b l IH] using rev_ind; [simpl; auto |].
  rewrite removelast_last. intros H. apply elem_of_app; left; exact H.
Qed.

Lemma elem_of_removelast_or_last {A} (l : list A) (a : A) :
  a ∈ l -> a ∈ removelast l \/ last l = Some a.
Proof.
  induction l as [|b l IH] using rev_ind; [inversion 1 |].
  rewrite removelast_last, last_snoc, elem_of_app, list_elem_of_singleton.
  intros [H | ->]; auto.
Qed.

Lemma mapped_removelast (x : TreeNeuron) (seg : list Z) (n : Z) :
  n ∈ removelast seg -> n ∈ mapped_nodes x seg.
Proof.
  intros H. unfold mapped_nodes.
  destruct (last seg) as [t|] eqn:El.
  - destruct (in_list t (root x)).
    + apply list_elem_of_In, in_rev. rewrite rev_involutive.
      apply list_elem_of_In, removelast_elem_of. exact H.
    + rewrite tail_rev. apply list_elem_of_In, in_rev. rewrite rev_involutive.
      apply list_elem_of_In. exact H.
  - apply last_None in El. subst seg. inversion H.
Qed.

Lemma mapped_subset (x : TreeNeuron) (seg : list Z) (n : Z) :
  n ∈ mapped_nodes x seg -> n ∈ seg.
Proof.
  unfold mapped_nodes. destruct (last seg) as [t|]; [| inversion 1].
  destruct (in_list t (root x)); intros H.
  - apply list_elem_of_In, in_rev in H. apply list_elem_of_In. exact H.
  - rewrite tail_rev in H. apply list_elem_of_In, in_rev in H.
    apply removelast_elem_of, list_elem_of_In. exact H.
Qed.

Lemma mapped_top (x : TreeNeuron) (seg : list Z) (t : Z) :
  last seg = Some t ->
  (in_list t (root x) = true -> t ∈ mapped_nodes x seg) /\
  (in_list t (root x) = false -> t ∉ removelast seg -> t ∉ mapped_nodes x seg).
Proof.
  intros El. unfold mapped_nodes. rewrite El. split; intros Hr.
  - rewrite Hr. apply list_elem_of_In, in_rev. rewrite rev_involutive.
    apply list_elem_of_In, last_Some_elem_of. exact El.
  - rewrite Hr, tail_rev. intros Hn H. apply Hn.
    apply list_elem_of_In, in_rev in H. apply list_elem_of_In. exact H.
Qed.

Section Coverage.
Variable x : TreeNeuron.
Variable h : Z -> nat.
Hypothesis Hts : tree_shaped x h.

Lemma small_segments_spec (seg : list Z) :
  seg ∈ small_segments x <->
  exists s, s ∈ nodes x /\ is_seed x s = true /\ seg = chain_of x s.
Proof.
  unfold small_segments. split.
  - intros H. apply list_elem_of_In, in_map_iff in H.
    destruct H as (s & Heq & Hin). apply filter_In in Hin.
    destruct Hin as [Hin Hseed]. exists s.
    split; [apply list_elem_of_In; exact Hin | auto].
  - intros (s & Hin & Hseed & ->). apply list_elem_of_In, in_map_iff.
    exists s. split; [reflexivity |]. apply filter_In.
    split; [apply list_elem_of_In; exact Hin | exact Hseed].
Qed.

Lemma small_segments_ok : Forall (seg_ok x) (small_segments x).
Proof using Hts.
  apply Forall_forall. intros seg Hseg.
  apply small_segments_spec in Hseg. destruct Hseg as (s & Hs & Hseed & ->).
  destruct (chain_weights x h Hts s Hs Hseed) as (ws & Hws & Hlen).
  exists ws. auto.
Qed.

Lemma covered_root (r : node_row) :
  r ∈ nodes x -> parent_id r = None ->
  exists s, s ∈ nodes x /\ is_seed x s = true /\
            last (chain_of x s) = Some (node_id r).
Proof using Hts.
  intros Hr Hp.
  destruct (Nat.eqb (n_children x (node_id r)) 0) eqn:Ekids.
  { exists r. split; [exact Hr |]. split.
    - unfold is_seed, is_root_row. rewrite Hp, Ekids.
      apply Nat.eqb_eq in Ekids. rewrite Ekids. reflexivity.
    - destruct (lone_root_chain x r Hr Hp) as [-> _]. reflexivity. }
  apply Nat.eqb_neq in Ekids. rename Ekids into Hkids.
  destruct (child_exists x (node_id r) Hkids) as (c & Hc & Hcp).
  destruct (covered_nonroot x h Hts (S (h (node_id c))) c (node_id r))
    as (s & Hs & Hseed & Hin); auto.
  exists s. split; [exact Hs |]. split; [exact Hseed |].
  destruct (chain_follow x h Hts s (node_id c) (node_id r) c
              Hs Hseed Hin Hc eq_refl Hcp) as [Hon _].
  assert (Hstop : is_stop x (node_id r) = true).
  { unfold is_stop. apply orb_true_intro. left.
    apply in_root_spec. exists r. auto. }
  destruct (chain_top x h Hts s Hs Hseed) as (t & Hlast & _ & Hinner).
  apply elem_of_removelast_or_last in Hon. destruct Hon as [Hon | Hon];
    [| exact Hon].
  exfalso. destruct (decide (node_id r = node_id s)) as [Heq | Hne].
  - assert (r = s) by (eapply row_unique; eauto). subst s.
    destruct (seed_cases x r Hseed) as [[q Hq] | [_ H0]]; congruence.
  - rewrite (Hinner _ Hon Hne) in Hstop. discriminate.
Qed.

(** Every node is mapped by some segment. *)
Lemma every_node_mapped (r : node_row) :
  r ∈ nodes x ->
  exists seg, seg ∈ small_segments x /\ node_id r ∈ mapped_nodes x seg.
Proof using Hts.
  intros Hr. destruct (parent_id r) as [q|] eqn:Hq.
  - destruct (covered_nonroot x h Hts (S (h (node_id r))) r q)
      as (s & Hs & Hseed & Hin); auto.
    exists (chain_of x s). split; [apply small_segments_spec; eauto |].
    apply mapped_removelast. exact Hin.
  - destruct (covered_root r Hr Hq) as (s & Hs & Hseed & Hlast).
    exists (chain_of x s). split; [apply small_segments_spec; eauto |].
    apply (mapped_top x _ _ Hlast). apply in_root_spec. exists r. auto.
Qed.

Lemma mapped_are_nodes (seg : list Z) (n : Z) :
  seg ∈ small_segments x -> n ∈ mapped_nodes x seg -> n ∈ node_ids x.
Proof using Hts.
  intros Hseg Hn. apply small_segments_spec in Hseg.
  destruct Hseg as (s & Hs & Hseed & ->).
  pose proof (chain_ids x h Hts s Hs Hseed) as Hids.
  rewrite Forall_forall in Hids. apply Hids. eapply mapped_subset; eauto.
Qed.

(** Heights grow strictly along a chain: its top is not met before. *)
Lemma path_up_top_fresh (p : Z) (l : list Z) :
  path_up x p l ->
  forall c t, c ∈ removelast l -> last l = Some t -> h c < h t.
Proof using Hts.
  induction 1 as [p Hstop | p r q l Hstop Hfind Hq Hpath IH];
    intros c t Hc Hlast.
  - inversion Hc.
  - destruct (path_up_head x _ _ Hpath) as [l' ->].
    change (removelast (p :: q :: l')) with (p :: removelast (q :: l')) in Hc.
    change (last (p :: q :: l')) with (last (q :: l')) in Hlast.
    apply elem_of_cons in Hc. destruct Hc as [-> | Hc]; [| eauto].
    apply find_row_Some in Hfind. destruct Hfind as [Hr Hid].
    pose proof (ts_height x h Hts r q Hr Hq) as Hh. rewrite Hid in Hh.
    pose proof (path_up_height x h Hts _ _ Hpath) as Hall.
    rewrite Forall_forall in Hall.
    specialize (Hall t (last_Some_elem_of _ _ Hlast)). lia.
Qed.

Lemma chain_top_fresh (s : node_row) (t : Z) :
  s ∈ nodes x -> is_seed x s = true -> last (chain_of x s) = Some t ->
  t ∉ removelast (chain_of x s).
Proof using Hts.
  intros Hs Hseed Hlast Hin.
  destruct (seed_cases x s Hseed) as [[q Hq] | [Hp _]].
  2: { destruct (lone_root_chain x s Hs Hp) as [Hchain _].
       rewrite Hchain in Hin. inversion Hin. }
  destruct (chain_shape x h Hts s q Hs Hq) as (l & Hchain & Hpath).
  rewrite Hchain in *.
  change (removelast (node_id s :: q :: l))
    with (node_id s :: removelast (q :: l)) in Hin.
  change (last (node_id s :: q :: l)) with (last (q :: l)) in Hlast.
  apply elem_of_cons in Hin. destruct Hin as [Heq | Hin].
  - pose proof (ts_height x h Hts s q Hs Hq) as Hh.
    pose proof (path_up_height x h Hts _ _ Hpath) as Hall.
    rewrite Forall_forall in Hall.
    specialize (Hall t (last_Some_elem_of _ _ Hlast)). rewrite Heq in Hall. lia.
  - pose proof (path_up_top_fresh _ _ Hpath t t Hin Hlast). lia.
Qed.

(** The key sets of the two maps, on a tree. *)
Lemma locate_nodes_keys :
  exists node2sec node2pos,
    locate_nodes x = Ok (node2sec, node2pos) /\
    forall n, (is_Some (node2sec !! n) <-> n ∈ node_ids x) /\
              (is_Some (node2pos !! n) <-> n ∈ node_ids x).
Proof using Hts.
  pose proof small_segments_ok as Hok.
  destruct (locate_fold_ok x _ Hok 0 (∅, ∅)) as [[n2s n2p] Hfold].
  exists n2s, n2p. split; [exact Hfold |].
  intros n. destruct (locate_fold_dom x _ Hok _ _ _ Hfold n) as [H1 H2].
  simpl in H1, H2. rewrite lookup_empty in H1. rewrite lookup_empty in H2.
  assert (Hcov : (exists seg, seg ∈ small_segments x /\ n ∈ mapped_nodes x seg)
                 <-> n ∈ node_ids x).
  { split.
    - intros (seg & Hseg & Hn). eapply mapped_are_nodes; eauto.
    - intros Hn. apply list_elem_of_In, in_map_iff in Hn.
      destruct Hn as (r & <- & Hr).
      apply (every_node_mapped r). apply list_elem_of_In; exact Hr. }
  split.
  - rewrite H1, <- Hcov.
    split; [intros [[? Hs] | Hm]; [discriminate | exact Hm] | auto].
  - rewrite H2, <- Hcov.
    split; [intros [[? Hs] | Hm]; [discriminate | exact Hm] | auto].
Qed.

End Coverage.


(** ** Where a segment's distal node ends up *)

Lemma locate_fold_last (x : TreeNeuron) (pre post : list (list Z))
    (seg : list Z) (ws : list Q) (n : Z) (M0 : list Z) (P0 : list npfloat)
    (v : npfloat) :
  Forall (seg_ok x) (pre ++ seg :: post) ->
  rmapM (edge_weight x) (zip (removelast seg) (tail seg)) = Ok ws ->
  mapped_nodes x seg = M0 ++ [n] ->
  mapped_positions x seg ws = P0 ++ [v] ->
  Forall (fun seg' => n ∉ mapped_nodes x seg') post ->
  forall i st st',
    rfold_enum (locate_segment x) i (pre ++ seg :: post) st = Ok st' ->
    fst st' !! n = Some (i + length pre) /\ snd st' !! n = Some v.
Proof.
  intros Hok Hws HM HP Hpost.
  induction pre as [|a pre IH]; intros i st st' H; simpl in H.
  - simpl in Hok. apply Forall_cons in Hok. destruct Hok as [(ws' & Hws' & Hlen) Hok].
    assert (ws' = ws) by congruence. subst ws'.
    rewrite (locate_segment_eq x st i seg ws Hws Hlen) in H. simpl in H.
    destruct (locate_fold_unmapped x post n Hok Hpost _ _ _ H) as [H1 H2].
    simpl in H1, H2. rewrite H1, H2.
    pose proof (mapped_lengths x seg ws Hlen) as Hl.
    rewrite HM, HP in *. rewrite !length_app in Hl. simpl in Hl.
    assert (Hl0 : length M0 = length P0) by lia.
    rewrite length_app. simpl length. rewrite Nat.add_1_r, replicate_S_end.
    rewrite !zip_snoc by (rewrite ?length_replicate; auto).
    rewrite !dict_update_last. simpl. rewrite Nat.add_0_r. auto.
  - simpl in Hok. apply Forall_cons in Hok.
    destruct Hok as [(wa & Hwa & Hla) Hok].
    rewrite (locate_segment_eq x st i a wa Hwa Hla) in H. simpl in H.
    destruct (IH Hok _ _ _ H) as [H1 H2]. rewrite H1, H2. simpl.
    split; [f_equal; lia | reflexivity].
Qed.

Lemma cumsum_from_last (l : list Q) :
  l <> [] ->
  forall acc, exists c pre,
    cumsum_from acc l = pre ++ [c] /\ (c == acc + qsum l)%Q.
Proof.
  induction l as [|a l IH]; intros Hne acc; [contradiction |].
  destruct l as [|b l].
  - exists (acc + a)%Q, []. split; [reflexivity |]. simpl. ring.
  - destruct (IH ltac:(discriminate) (acc + a)%Q) as (c & pre & Heq & Hc).
    exists c, ((acc + a)%Q :: pre). split.
    + change (cumsum_from acc (a :: b :: l))
        with ((acc + a)%Q :: cumsum_from (acc + a) (b :: l)).
      rewrite Heq. reflexivity.
    + rewrite Hc. change (qsum (a :: b :: l)) with (a + qsum (b :: l))%Q. ring.
Qed.

Lemma np_div_self (c s : Q) :
  (c == s)%Q -> ~ (s == 0)%Q -> exists q, np_div c s = Num q /\ (q == 1)%Q.
Proof.
  intros Hc Hs. unfold np_div.
  destruct (Qeq_bool s 0) eqn:E; [apply Qeq_bool_iff in E; contradiction |].
  exists (c / s)%Q. split; [reflexivity |]. rewrite Hc. field. exact Hs.
Qed.

Lemma qsum_rev (l : list Q) : (qsum (rev l) == qsum l)%Q.
Proof.
  induction l as [|a l IH]; simpl; [reflexivity |].
  assert (Happ : forall k, (qsum (k ++ [a]) == qsum k + a)%Q).
  { induction k as [|b k IHk]; simpl; [ring |].
    change (b + qsum (k ++ [a]) == b + qsum k + a)%Q. rewrite IHk. ring. }
  rewrite Happ, IH. change (qsum l + a == a + qsum l)%Q. ring.
Qed.

Lemma qsum_positive (l : list Q) :
  l <> [] -> Forall (fun w => (0 < w)%Q) l -> (0 < qsum l)%Q.
Proof.
  intros Hne Hpos. destruct Hpos as [|a l Ha Hl]; [contradiction |].
  assert (Hl' : (0 <= qsum l)%Q).
  { apply qsum_nonneg. eapply Forall_impl; [exact Hl |]. simpl. intros; lra. }
  change (0 < a + qsum l)%Q. lra.
Qed.

(** The last position of a segment is total / total. *)
Lemma norm_positions_last (ws : list Q) :
  ws <> [] -> Forall (fun w => (0 < w)%Q) ws ->
  exists P0 q,
    tail (norm_positions ws) = P0 ++ [Num q] /\ (q == 1)%Q /\
    exists v0, norm_positions ws = v0 :: P0 ++ [Num q].
Proof.
  intros Hne Hpos. unfold norm_positions, cumsum. cbv zeta.
  set (s := qsum (0%Q :: rev ws)).
  assert (Hs : (0 < s)%Q).
  { unfold s. change (0 < 0 + qsum (rev ws))%Q. rewrite qsum_rev.
    pose proof (qsum_positive ws Hne Hpos). lra. }
  change (cumsum_from 0 (0%Q :: rev ws))
    with ((0 + 0)%Q :: cumsum_from (0 + 0) (rev ws)).
  destruct (cumsum_from_last (rev ws)) with (acc := (0 + 0)%Q)
    as (c & pre & Heq & Hc).
  { intros Hnil. apply (f_equal (@rev Q)) in Hnil.
    rewrite rev_involutive in Hnil. contradiction. }
  rewrite Heq. simpl map. rewrite map_app. simpl map.
  destruct (np_div_self c s) as (q & Hq & Hq1).
  { rewrite Hc. unfold s. change (qsum (0%Q :: rev ws)) with (0 + qsum (rev ws))%Q.
    ring. }
  { lra. }
  rewrite Hq.
  exists (map (fun c0 => np_div c0 s) pre), q. simpl tail.
  split; [reflexivity |]. split; [exact Hq1 |]. eauto.
Qed.

Section OwnChain.
Variable x : TreeNeuron.
Variable h : Z -> nat.
Hypothesis Hts : tree_shaped x h.

(** A seed below the roots is the last node its own chain maps; with
    positive edge lengths its position there is 1. *)
Lemma own_chain_mapping (s : node_row) (p : Z) :
  s ∈ nodes x -> is_seed x s = true -> parent_id s = Some p ->
  exists ws M0 P0 v,
    rmapM (edge_weight x)
          (zip (removelast (chain_of x s)) (tail (chain_of x s))) = Ok ws /\
    mapped_nodes x (chain_of x s) = M0 ++ [node_id s] /\
    mapped_positions x (chain_of x s) ws = P0 ++ [v] /\
    (weights_positive x -> exists q, v = Num q /\ (q == 1)%Q).
Proof using Hts.
  intros Hs Hseed Hp.
  destruct (chain_weights x h Hts s Hs Hseed) as (ws & Hws & Hlen).
  destruct (chain_shape x h Hts s p Hs Hp) as (l & Hchain & Hpath).
  assert (Hne : ws <> []).
  { intros ->. rewrite Hchain in Hlen. simpl in Hlen. lia. }
  assert (Hshape : exists v0 P0 v, norm_positions ws = v0 :: P0 ++ [v]).
  { pose proof (norm_positions_length ws) as Hl.
    destruct (norm_positions ws) as [|v0 rest]; [discriminate |].
    destruct rest as [|v1 rest'] using rev_ind.
    - destruct ws; [contradiction | discriminate].
    - eauto. }
  destruct Hshape as (v0 & P0 & v & Hall).
  assert (Hone : weights_positive x -> exists q, v = Num q /\ (q == 1)%Q).
  { intros Hpos.
    assert (Hwpos : Forall (fun w => (0 < w)%Q) ws).
    { eapply rmapM_Forall; [| exact Hws]. intros cp w Hw.
      apply edge_weight_row in Hw. destruct Hw as (r & Hr & <- & _ & Hpar).
      apply Hpos; [exact Hr | congruence]. }
    destruct (norm_positions_last ws Hne Hwpos) as (P0' & q & _ & Hq & v0' & Hall').
    rewrite Hall in Hall'. injection Hall' as _ Htail.
    apply app_inj_tail in Htail. destruct Htail as [_ ->]. eauto. }
  destruct (path_up_last_stop x _ _ Hpath) as (t & Hlast & _).
  assert (Hlast' : last (chain_of x s) = Some t) by (rewrite Hchain; exact Hlast).
  unfold mapped_nodes, mapped_positions. rewrite Hlast'.
  rewrite Hchain. change (rev (node_id s :: p :: l)) with (rev (p :: l) ++ [node_id s]).
  rewrite <- Hchain.
  destruct (in_list t (root x)).
  - exists ws, (rev (p :: l)), (v0 :: P0), v.
    split; [exact Hws |]. split; [reflexivity |]. split; [exact Hall | exact Hone].
  - exists ws, (tail (rev (p :: l))), P0, v.
    split; [exact Hws |].
    split; [| split; [rewrite Hall; reflexivity | exact Hone]].
    simpl rev. destruct (rev l) as [|a k]; reflexivity.
Qed.

(** A branch point below the root is mapped by no chain but its own. *)
Lemma stop_not_mapped_elsewhere (s : node_row) (p : Z) :
  s ∈ nodes x -> is_seed x s = true ->
  is_stop x p = true -> in_list p (root x) = false -> p <> node_id s ->
  p ∉ mapped_nodes x (chain_of x s).
Proof using Hts.
  intros Hs Hseed Hstop Hroot Hne Hin.
  destruct (chain_top x h Hts s Hs Hseed) as (t & Hlast & _ & Hinner).
  assert (Hrem : p ∉ removelast (chain_of x s)).
  { intros Hrem. rewrite (Hinner p Hrem Hne) in Hstop. discriminate. }
  pose proof (mapped_subset x _ _ Hin) as Hon.
  apply elem_of_removelast_or_last in Hon.
  destruct Hon as [Hon | Hon]; [contradiction |].
  assert (t = p) by congruence. subst t.
  apply (proj2 (mapped_top x _ _ Hlast) Hroot Hrem). exact Hin.
Qed.

End OwnChain.

(** ** Connecting the sections *)

Lemma connect_segment_spec (x : TreeNeuron) (tbl : list located_row)
    (secs secs' : list Section) (i : nat) (seg : list Z) :
  connect_segment x tbl secs i seg = Ok secs' ->
  (forall k, k <> i -> secs' !! k = secs !! k) /\
  connected_as x tbl seg (secs !! i) (secs' !! i).
Proof.
  intros H. unfold connect_segment in H. inv_ok. rename a into p.
  unfold connected_as.
  destruct (in_list p (root x)) eqn:Eroot.
  - injection H as <-. split; [reflexivity |].
    exists p. rewrite Eroot. auto.
  - inv_ok. rename a into parent, a0 into js, a1 into child. subst secs'.
    split.
    + intros k Hk. apply list_lookup_insert_ne. congruence.
    + exists p. rewrite Eroot. split; [exact Ha |].
      unfold index_sections in Ha1.
      destruct (sec_ix_is_int tbl); [| discriminate].
      inv_ok. subst js. simpl.
      exists parent, a, child. repeat split; auto.
      apply list_lookup_insert_eq. eapply lookup_lt_Some; eauto.
Qed.

Lemma connect_fold_spec (x : TreeNeuron) (tbl : list located_row)
    (segs : list (list Z)) :
  forall i0 secs0 secs,
    rfold_enum (connect_segment x tbl) i0 segs secs0 = Ok secs ->
    (forall k, k < i0 -> secs !! k = secs0 !! k) /\
    (forall k seg, segs !! k = Some seg ->
       connected_as x tbl seg (secs0 !! (i0 + k)) (secs !! (i0 + k))).
Proof.
  induction segs as [|seg segs IH]; intros i0 secs0 secs H; simpl in H.
  - injection H as <-. split; [reflexivity |]. intros k seg Hk. discriminate.
  - inv_ok. rename a into secs1.
    apply connect_segment_spec in Ha. destruct Ha as [Hother Hstep].
    destruct (IH _ _ _ H) as [IH1 IH2].
    split.
    + intros k Hk. rewrite IH1 by lia. apply Hother. lia.
    + intros [|k] seg' Hk; simpl in Hk.
      * injection Hk as <-. rewrite Nat.add_0_r, IH1 by lia. exact Hstep.
      * specialize (IH2 k seg' Hk).
        rewrite Nat.add_succ_r. simpl in IH2.
        rewrite (Hother (S (i0 + k))) in IH2 by lia. exact IH2.
Qed.

Lemma loc_add_location_columns (x : TreeNeuron)
    (maps : gmap Z nat * gmap Z npfloat) (p : Z) (lr : located_row) :
  loc (add_location_columns x maps) p = Ok lr ->
  sec_ix lr = fst maps !! p /\ sec_pos lr = default NaN (snd maps !! p).
Proof.
  unfold loc. intros H. inv_ok. apply find_some in H. destruct H as [Hin Hid].
  unfold add_location_columns in Hin. apply in_map_iff in Hin.
  destruct Hin as (r & <- & _). simpl in *.
  unfold has_id in Hid. apply Z.eqb_eq in Hid. rewrite Hid. auto.
Qed.

Section BranchPoints.
Variable x : TreeNeuron.
Variable h : Z -> nat.
Hypothesis Hts : tree_shaped x h.

Lemma nodes_nodup : NoDup (nodes x).
Proof using Hts. exact (NoDup_fmap_1 node_id (nodes x) (ts_nodup x h Hts)). Qed.

(** The top of a segment, when it is not a root, is a seed itself. *)
Lemma segment_top_is_seed (seg : list Z) (p : Z) :
  seg ∈ small_segments x -> last seg = Some p -> in_list p (root x) = false ->
  exists r q, r ∈ nodes x /\ node_id r = p /\ parent_id r = Some q /\
              is_seed x r = true /\ is_stop x p = true.
Proof using Hts.
  intros Hseg Hlast Hroot.
  apply (small_segments_spec x) in Hseg. destruct Hseg as (s & Hs & Hseed & ->).
  destruct (chain_top x h Hts s Hs Hseed) as (t & Hlast' & Hstop & _).
  assert (t = p) by congruence. subst t.
  pose proof (chain_ids x h Hts s Hs Hseed) as Hids.
  rewrite Forall_forall in Hids.
  specialize (Hids p (last_Some_elem_of _ _ Hlast)).
  destruct (find_row_id x h Hts p Hids) as (r & Hfind & Hid).
  apply find_row_Some in Hfind. destruct Hfind as [Hr _].
  rewrite <- Hid in Hroot.
  destruct (not_root_parent x h Hts r Hr Hroot) as [q Hq].
  exists r, q. split; [exact Hr |]. split; [exact Hid |]. split; [exact Hq |].
  split; [| exact Hstop].
  unfold is_seed, is_root_row. rewrite Hq. simpl. rewrite andb_true_r.
  unfold is_stop in Hstop. rewrite Hid in *. rewrite Hroot in Hstop.
  exact Hstop.
Qed.

(** A branch point below the root resolves to the end of its own section. *)
Lemma branch_point_location (maps : gmap Z nat * gmap Z npfloat)
    (seg : list Z) (p : Z) :
  locate_nodes x = Ok maps ->
  seg ∈ small_segments x -> last seg = Some p -> in_list p (root x) = false ->
  exists j seg_j v,
    small_segments x !! j = Some seg_j /\ head seg_j = Some p /\
    fst maps !! p = Some j /\ snd maps !! p = Some v /\
    (weights_positive x -> exists q, v = Num q /\ (q == 1)%Q).
Proof using Hts.
  intros Hmaps Hseg Hlast Hroot.
  destruct (segment_top_is_seed seg p Hseg Hlast Hroot)
    as (r & q0 & Hr & Hid & Hq0 & Hseed & Hstop).
  assert (Hin : In r (List.filter (fun r => is_seed x r) (nodes x))).
  { apply filter_In. split; [apply list_elem_of_In; exact Hr | exact Hseed]. }
  destruct (in_split _ _ Hin) as (pre & post & Hsplit).
  assert (Hnd : NoDup (pre ++ r :: post)).
  { rewrite <- Hsplit. apply NoDup_ListNoDup, List.NoDup_filter.
    apply NoDup_ListNoDup. exact nodes_nodup. }
  apply NoDup_app in Hnd. destruct Hnd as (_ & _ & Hnd).
  apply NoDup_cons in Hnd. destruct Hnd as [Hfresh _].
  assert (Hsegs : small_segments x =
                  map (chain_of x) pre ++ chain_of x r :: map (chain_of x) post).
  { unfold small_segments. rewrite Hsplit, map_app. reflexivity. }
  assert (Hposts : forall s, s ∈ post -> s ∈ nodes x /\ is_seed x s = true).
  { intros s Hs.
    assert (Hs' : In s (List.filter (fun r => is_seed x r) (nodes x))).
    { rewrite Hsplit. apply in_or_app. right. right.
      apply list_elem_of_In; exact Hs. }
    apply filter_In in Hs'. destruct Hs' as [Hs1 Hs2].
    split; [apply list_elem_of_In; exact Hs1 | exact Hs2]. }
  destruct (own_chain_mapping x h Hts r q0 Hr Hseed Hq0)
    as (ws & M0 & P0 & v & Hws & HM & HP & Hq).
  rewrite Hid in HM.
  pose proof (small_segments_ok x h Hts) as Hok. rewrite Hsegs in Hok.
  unfold locate_nodes in Hmaps. rewrite Hsegs in Hmaps.
  destruct (locate_fold_last x _ _ _ ws p M0 P0 v Hok Hws HM HP)
    with (i := 0) (st := (∅ : gmap Z nat, ∅ : gmap Z npfloat)) (st' := maps)
    as [H1 H2]; [| exact Hmaps |].
  { apply Forall_forall. intros seg' Hseg'.
    apply list_elem_of_In, in_map_iff in Hseg'.
    destruct Hseg' as (s & <- & Hs). apply list_elem_of_In in Hs.
    destruct (Hposts s Hs) as [Hs1 Hs2].
    apply (stop_not_mapped_elsewhere x h Hts s p Hs1 Hs2 Hstop Hroot).
    intros Heq. apply Hfresh.
    assert (s = r) by (eapply row_unique; eauto; congruence). subst s. exact Hs. }
  exists (length (map (chain_of x) pre)), (chain_of x r), v.
  split; [rewrite Hsegs; apply list_lookup_middle; reflexivity |].
  split.
  { destruct (chain_shape x h Hts r q0 Hr Hq0) as (l & -> & _).
    simpl. rewrite Hid. reflexivity. }
  split; [exact H1 |]. split; [exact H2 | exact Hq].
Qed.

End BranchPoints.

Lemma build_section_unconnected (x : TreeNeuron) (res : Q) (seg : list Z)
    (s : Section) :
  build_section x res seg = Ok s -> parentseg s = None.
Proof. intros H. unfold build_section in H. inv_ok. subst s. reflexivity. Qed.

(** X14.  On a tree-shaped skeleton the section of a segment that ends at
    a root is left unconnected; the section of any other segment is
    connected to position 1 of the section the segment's top node resolves
    to, which is the section of the segment that starts at that node. *)
Theorem X14_sections_connect_at_parent_end (x : TreeNeuron) (h : Z -> nat)
    (res : Q) (g : generated) :
  tree_shaped x h ->
  _generate_sections x res = Ok g ->
  forall i seg p,
    small_segments x !! i = Some seg -> last seg = Some p ->
    (in_list p (root x) = true ->
       exists s, g_sections g !! i = Some s /\ parentseg s = None) /\
    (in_list p (root x) = false ->
       exists s j seg_j lr,
         g_sections g !! i = Some s /\ parentseg s = Some (j, 1%Q) /\
         small_segments x !! j = Some seg_j /\ head seg_j = Some p /\
         loc (g_nodes g) p = Ok lr /\ sec_ix lr = Some j).
Proof.
  intros Hts Hg i seg p Hi Hlast.
  unfold _generate_sections in Hg. inv_ok.
  rename a into maps, a0 into built, a1 into secs. subst g. simpl.
  pose proof (rmapM_Forall2 _ _ _ Ha0) as Hbuilt.
  destruct (Forall2_lookup_l _ _ _ _ _ Hbuilt Hi) as (b & Hb & Hbs).
  apply build_section_unconnected in Hbs.
  destruct (connect_fold_spec _ _ _ _ _ _ Ha1) as [_ Hconn].
  destruct (Hconn i seg Hi) as (p' & Hlast' & Hcase). simpl in Hcase.
  assert (p' = p) by congruence. subst p'.
  split; intros Hroot; rewrite Hroot in Hcase.
  - exists b. rewrite Hcase. auto.
  - destruct Hcase as (parent & j & b' & Hloc & Hix & Hb' & Hs).
    assert (b' = b) by congruence. subst b'.
    destruct (loc_add_location_columns _ _ _ _ Hloc) as [Hix' Hpos'].
    destruct (branch_point_location x h Hts maps seg p Ha
                (list_elem_of_lookup_2 _ _ _ Hi) Hlast Hroot)
      as (j' & seg_j & v & Hj & Hhead & H1 & H2 & Hq).
    assert (j' = j) by congruence. subst j'.
    exists (connect b j), j, seg_j, parent.
    split; [exact Hs |]. split; [reflexivity |].
    split; [exact Hj |]. split; [exact Hhead |].
    split; [exact Hloc | exact Hix].
Qed.

(** Where every edge has positive length, the top node of a segment that
    does not end at a root resolves to position 1 of its section, which is
    where the segment's section is connected. *)
Lemma branch_node_resolves_to_section_end (x : TreeNeuron) (h : Z -> nat)
    (res : Q) (g : generated) (seg : list Z) (p : Z) (lr : located_row) :
  tree_shaped x h -> weights_positive x ->
  _generate_sections x res = Ok g ->
  seg ∈ small_segments x -> last seg = Some p -> in_list p (root x) = false ->
  loc (g_nodes g) p = Ok lr ->
  exists q, sec_pos lr = Num q /\ (q == 1)%Q.
Proof.
  intros Hts Hpos Hg Hseg Hlast Hroot Hloc.
  unfold _generate_sections in Hg. inv_ok. subst g. simpl in Hloc.
  destruct (loc_add_location_columns _ _ _ _ Hloc) as [_ Hpos'].
  destruct (branch_point_location x h Hts a seg p Ha Hseg Hlast Hroot)
    as (j & seg_j & v & _ & _ & _ & H2 & Hq).
  destruct (Hq Hpos) as (q & -> & Hq1).
  exists q. split; [| exact Hq1]. rewrite Hpos', H2. reflexivity.
Qed.

Ltac in_rows H :=
  simpl in H;
  repeat (apply elem_of_cons in H; destruct H as [-> | H]);
  [.. | inversion H].

Lemma y_skeleton_tree : tree_shaped y_skeleton sample_height.
Proof.
  constructor.
  - apply (bool_decide_unpack _). vm_compute. exact I.
  - intros r p Hr Hp. in_rows Hr; simpl in Hp; try discriminate;
      injection Hp as <-; apply (bool_decide_unpack _); vm_compute; exact I.
  - intros r p Hr Hp. in_rows Hr; simpl in Hp; try discriminate;
      injection Hp as <-; unfold sample_height; simpl; lia.
  - intros r Hr. in_rows Hr; unfold sample_height; simpl; lia.
Qed.

Lemma flat_y_skeleton_tree : tree_shaped flat_y_skeleton sample_height.
Proof.
  constructor.
  - apply (bool_decide_unpack _). vm_compute. exact I.
  - intros r p Hr Hp. in_rows Hr; simpl in Hp; try discriminate;
      injection Hp as <-; apply (bool_decide_unpack _); vm_compute; exact I.
  - intros r p Hr Hp. in_rows Hr; simpl in Hp; try discriminate;
      injection Hp as <-; unfold sample_height; simpl; lia.
  - intros r Hr. in_rows Hr; unfold sample_height; simpl; lia.
Qed.

Lemma point_skeleton_tree : tree_shaped point_skeleton (fun _ => 0).
Proof.
  constructor.
  - apply (bool_decide_unpack _). vm_compute. exact I.
  - intros r p Hr Hp. in_rows Hr; simpl in Hp; discriminate.
  - intros r p Hr Hp. in_rows Hr; simpl in Hp; discriminate.
  - intros r Hr. in_rows Hr; simpl; lia.
Qed.

Lemma y_skeleton_positive : weights_positive y_skeleton.
Proof.
  intros r Hr Hp. in_rows Hr; simpl in *; try reflexivity. congruence.
Qed.

Lemma y_skeleton_roots : roots_have_children y_skeleton.
Proof. intros r Hr Hp. in_rows Hr; simpl in Hp; discriminate. Qed.

(** Scenario 2: in the Y skeleton both leaf sections hang on the end of the
    branch section, the section node 2 resolves to. *)
Lemma X14_y_skeleton_witness :
  exists g, _generate_sections y_skeleton 1 = Ok g /\
    map parentseg (g_sections g) = [None; Some (0, 1%Q); Some (0, 1%Q)] /\
    exists s j seg_j lr,
      g_sections g !! 1 = Some s /\ parentseg s = Some (j, 1%Q) /\
      small_segments y_skeleton !! j = Some seg_j /\ head seg_j = Some 2%Z /\
      loc (g_nodes g) 2 = Ok lr /\ sec_ix lr = Some j.
Proof.
  assert (Hg : exists g, _generate_sections y_skeleton 1 = Ok g /\
             map parentseg (g_sections g) = [None; Some (0, 1%Q); Some (0, 1%Q)]).
  { eexists. split; vm_compute; reflexivity. }
  destruct Hg as (g & Hg & Hconn). exists g. split; [exact Hg |].
  split; [exact Hconn |].
  destruct (X14_sections_connect_at_parent_end y_skeleton sample_height 1 g
              y_skeleton_tree Hg 1 [3%Z; 2%Z] 2%Z eq_refl eq_refl) as [_ H].
  exact (H eq_refl).
Defined.

(** C2.  Where a branch segment has no length (the branch node sits at
    the root's place), the leaf sections are connected at position 1 of the
    branch section, while the branch node itself resolves to 0/0 = NaN in
    that section: the connection is not at the node's resolved position. *)
Theorem C2_zero_length_parent_position :
  snd (_validate_skeleton flat_y_skeleton) = Ok tt /\
  tree_shaped flat_y_skeleton sample_height /\
  exists g s lr,
    _generate_sections flat_y_skeleton 1 = Ok g /\
    small_segments flat_y_skeleton !! 1 = Some [3%Z; 2%Z] /\
    g_sections g !! 1 = Some s /\ parentseg s = Some (0, 1%Q) /\
    loc (g_nodes g) 2 = Ok lr /\ sec_ix lr = Some 0 /\
    sec_pos lr = NaN /\ ~ np_eq (Num 1) (sec_pos lr).
Proof.
  split; [reflexivity |]. split; [exact flat_y_skeleton_tree |].
  eexists. eexists. eexists.
  split; [vm_compute; reflexivity |].
  split; [reflexivity |]. split; [reflexivity |]. split; [reflexivity |].
  split; [vm_compute; reflexivity |]. split; [reflexivity |].
  split; [reflexivity |]. simpl. tauto.
Qed.



(** Scenario 1: the line root -> mid -> leaf is one section of length 2 and
    diameter 2, cut in three at resolution 1. *)
Example line_skeleton_one_section :
  exists g, _generate_sections line_skeleton 1 = Ok g /\
            map L (g_sections g) = [2%Q] /\
            Forall2 np_eq (map diam (g_sections g)) [Num 2] /\
            map nseg (g_sections g) = [3%Z] /\
            map parentseg (g_sections g) = [None].
Proof.
  eexists. split; [vm_compute; reflexivity |].
  split; [vm_compute; reflexivity |].
  split; [repeat constructor |].
  split; vm_compute; reflexivity.
Qed.

(** A root without children is a segment of its own, of length zero: it
    gets section 0, and 0/0 as its position. *)
Example lone_root_is_located :
  small_segments point_skeleton = [[1%Z]] /\
  exists g, _generate_sections point_skeleton 1 = Ok g /\
            map sec_ix (g_nodes g) = [Some 0] /\
            map sec_pos (g_nodes g) = [NaN] /\
            map L (g_sections g) = [0%Q].
Proof.
  split; [reflexivity |]. eexists. split; [vm_compute; reflexivity |].
  repeat split; vm_compute; reflexivity.
Qed.

(** C5: on a segment of length zero the positions are 0/0.  Validation
    accepts the skeleton, and both nodes resolve to NaN, which is not in
    [0, 1]. *)
Theorem C5_zero_length_segment_gives_nan :
  snd (_validate_skeleton flat_skeleton) = Ok tt /\
  tree_shaped flat_skeleton (fun n => if Z.eqb n 1 then 1 else 0) /\
  exists g,
    _generate_sections flat_skeleton 1 = Ok g /\
    map sec_pos (g_nodes g) = [NaN; NaN] /\
    Forall (fun r => ~ in_unit_interval (sec_pos r)) (g_nodes g).
Proof.
  split; [reflexivity |]. split.
  - constructor.
    + apply (bool_decide_unpack _). vm_compute. exact I.
    + intros r p Hr Hp. in_rows Hr; simpl in Hp; try discriminate;
        injection Hp as <-; apply (bool_decide_unpack _); vm_compute; exact I.
    + intros r p Hr Hp. in_rows Hr; simpl in Hp; try discriminate;
        injection Hp as <-; simpl; lia.
    + intros r Hr. in_rows Hr; simpl; lia.
  - eexists. split; [vm_compute; reflexivity |]. split; [reflexivity |].
    repeat constructor; simpl; tauto.
Qed.

(** ** Bounds on the positions *)

Lemma cumsum_from_bounds (l : list Q) :
  Forall (fun w => (0 <= w)%Q) l ->
  forall acc,
    Forall (fun c => (acc <= c)%Q /\ (c <= acc + qsum l)%Q) (cumsum_from acc l).
Proof.
  induction 1 as [|a l Ha Hl IH]; intros acc; simpl; [constructor |].
  pose proof (qsum_nonneg l Hl) as Hs.
  change (qsum (a :: l)) with (a + qsum l)%Q.
  constructor; [split; lra |].
  eapply Forall_impl; [apply (IH (acc + a)%Q) |].
  simpl. intros c [H1 H2]. split; lra.
Qed.

Lemma np_div_unit (c s : Q) :
  (0 <= c)%Q -> (c <= s)%Q -> (0 < s)%Q -> in_unit_interval (np_div c s).
Proof.
  intros H0 H1 Hs. unfold np_div.
  destruct (Qeq_bool s 0) eqn:E.
  - apply Qeq_bool_iff in E. lra.
  - simpl. split.
    + apply Qle_shift_div_l; lra.
    + apply Qle_shift_div_r; lra.
Qed.

Lemma norm_positions_bounds (ws : list Q) :
  ws <> [] -> Forall (fun w => (0 < w)%Q) ws ->
  Forall in_unit_interval (norm_positions ws).
Proof.
  intros Hne Hpos. unfold norm_positions, cumsum. cbv zeta.
  set (dist := 0%Q :: rev ws).
  assert (Hs : (0 < qsum dist)%Q).
  { unfold dist. change (0 < 0 + qsum (rev ws))%Q. rewrite qsum_rev.
    pose proof (qsum_positive ws Hne Hpos). lra. }
  assert (Hnn : Forall (fun w => (0 <= w)%Q) dist).
  { unfold dist. constructor; [lra |].
    apply Forall_forall. intros w Hw.
    apply list_elem_of_In, in_rev, list_elem_of_In in Hw.
    rewrite Forall_forall in Hpos. specialize (Hpos w Hw). lra. }
  apply Forall_forall. intros v Hv.
  apply list_elem_of_In, in_map_iff in Hv. destruct Hv as (c & <- & Hc).
  pose proof (cumsum_from_bounds dist Hnn 0%Q) as Hb.
  rewrite Forall_forall in Hb.
  destruct (Hb c (proj2 (list_elem_of_In _ _) Hc)) as [H1 H2].
  apply np_div_unit; lra.
Qed.

Lemma dict_update_value {V} (d : gmap Z V) (kvs : list (Z * V)) (n : Z) (v : V) :
  dict_update d kvs !! n = Some v -> d !! n = Some v \/ v ∈ map snd kvs.
Proof.
  induction kvs as [|kv kvs IH] using rev_ind; [auto |].
  rewrite dict_update_snoc, map_app, elem_of_app. simpl.
  destruct (decide (fst kv = n)) as [Heq | Hne].
  - rewrite Heq, lookup_insert_eq. intros H; injection H as <-.
    right; right; left.
  - rewrite lookup_insert_ne by exact Hne. intros H.
    destruct (IH H); auto.
Qed.

Lemma zip_snd_elem_of {A B} (l : list A) (k : list B) (b : B) :
  b ∈ map snd (zip l k) -> b ∈ k.
Proof.
  intros H. apply list_elem_of_In, in_map_iff in H.
  destruct H as ([a b'] & <- & Hin). apply list_elem_of_In in Hin.
  eapply elem_of_zip_r; eauto.
Qed.

(** Every position stored by the first loop comes from some segment. *)
Lemma locate_fold_values (x : TreeNeuron) (P : npfloat -> Prop)
    (segs : list (list Z)) :
  Forall (fun seg => exists ws,
            rmapM (edge_weight x) (zip (removelast seg) (tail seg)) = Ok ws /\
            S (length ws) = length seg /\
            Forall P (mapped_positions x seg ws)) segs ->
  forall i st st',
    rfold_enum (locate_segment x) i segs st = Ok st' ->
    (forall n v, snd st !! n = Some v -> P v) ->
    forall n v, snd st' !! n = Some v -> P v.
Proof.
  induction 1 as [|seg segs (ws & Hws & Hlen & HP) _ IH]; intros i st st' H Hst;
    simpl in H.
  - injection H as <-. exact Hst.
  - rewrite (locate_segment_eq x st i seg ws Hws Hlen) in H. simpl in H.
    eapply IH; [exact H |]. simpl. intros n v Hv.
    apply dict_update_value in Hv. destruct Hv as [Hv | Hv]; [eauto |].
    apply zip_snd_elem_of in Hv. rewrite Forall_forall in HP. auto.
Qed.

Section Bounds.
Variable x : TreeNeuron.
Variable h : Z -> nat.
Hypothesis Hts : tree_shaped x h.

Lemma chain_positions_bounded (s : node_row) :
  weights_positive x -> roots_have_children x ->
  s ∈ nodes x -> is_seed x s = true ->
  exists ws,
    rmapM (edge_weight x)
          (zip (removelast (chain_of x s)) (tail (chain_of x s))) = Ok ws /\
    S (length ws) = length (chain_of x s) /\
    Forall in_unit_interval (mapped_positions x (chain_of x s) ws).
Proof using Hts.
  intros Hpos Hrc Hs Hseed.
  destruct (chain_weights x h Hts s Hs Hseed) as (ws & Hws & Hlen).
  exists ws. split; [exact Hws |]. split; [exact Hlen |].
  assert (Hwpos : Forall (fun w => (0 < w)%Q) ws).
  { eapply rmapM_Forall; [| exact Hws]. intros cp w Hw.
    apply edge_weight_row in Hw. destruct Hw as (r & Hr & <- & _ & Hpar).
    apply Hpos; [exact Hr | congruence]. }
  assert (Hne : ws <> []).
  { destruct (seed_cases x s Hseed) as [[p Hp] | [Hp H0]];
      [| destruct (Hrc s Hs Hp H0)].
    destruct (chain_shape x h Hts s p Hs Hp) as (l & Hchain & _).
    intros ->. rewrite Hchain in Hlen. simpl in Hlen. lia. }
  pose proof (norm_positions_bounds ws Hne Hwpos) as Hb.
  unfold mapped_positions. destruct (last (chain_of x s)); [| constructor].
  destruct (in_list z (root x)); [exact Hb |].
  destruct (norm_positions ws); [constructor |].
  apply Forall_cons in Hb. tauto.
Qed.

(** Where no segment has length zero and no root stands alone, every
    node resolves to a position in [0, 1]. *)
Lemma positions_in_unit_interval (res : Q) (g : generated) :
  weights_positive x -> roots_have_children x ->
  _generate_sections x res = Ok g ->
  Forall (fun r => in_unit_interval (sec_pos r)) (g_nodes g).
Proof using Hts.
  intros Hpos Hrc Hg.
  destruct (locate_nodes_keys x h Hts) as (n2s & n2p & Hloc & Hkeys).
  unfold _generate_sections in Hg. rewrite Hloc in Hg. simpl in Hg.
  inv_ok. subst g. simpl.
  assert (Hval : forall n v, n2p !! n = Some v -> in_unit_interval v).
  { unfold locate_nodes in Hloc.
    apply (locate_fold_values x in_unit_interval (small_segments x))
      with (i := 0) (st := (∅, ∅)) (st' := (n2s, n2p)); [| exact Hloc |].
    - apply Forall_forall. intros seg Hseg.
      apply (small_segments_spec x) in Hseg.
      destruct Hseg as (s & Hs & Hseed & ->).
      apply chain_positions_bounded; assumption.
    - simpl. intros n v Hv. rewrite lookup_empty in Hv. discriminate. }
  unfold add_location_columns. apply Forall_forall. intros lr Hin.
  apply list_elem_of_In, in_map_iff in Hin. destruct Hin as (r & <- & Hr).
  simpl.
  destruct (Hkeys (node_id r)) as [_ Hk].
  destruct (proj2 Hk) as [v Hv].
  { apply (list_elem_of_fmap_2 node_id). apply list_elem_of_In; exact Hr. }
  rewrite Hv. simpl. eapply Hval; eauto.
Qed.

End Bounds.

(** ** The node table is never written after construction *)

Lemma add_record_loop_nodes (what : string) (label : option string)
    (rows : list located_row) (m : Model) :
  skeleton_nodes (fst (add_record_loop what label rows m)) = skeleton_nodes m.
Proof.
  revert m; induction rows as [|node rest IH]; intros m; simpl; [reflexivity |].
  destruct (segment_at m node); [| reflexivity]. rewrite IH. reflexivity.
Qed.

Lemma add_stimulus_loop_nodes (stimulus : string) (kwargs : list (string * Q))
    (rows : list located_row) (m : Model) :
  skeleton_nodes (fst (add_stimulus_loop stimulus kwargs rows m)) = skeleton_nodes m.
Proof.
  revert m; induction rows as [|node rest IH]; intros m; simpl; [reflexivity |].
  destruct (segment_at m node); [| reflexivity]. rewrite IH. reflexivity.
Qed.

Lemma synaptic_input_loop_nodes (ps : spike_params) (stim : hobject)
    (rows : list located_row) (m : Model) :
  skeleton_nodes (fst (synaptic_input_loop ps stim rows m)) = skeleton_nodes m.
Proof.
  revert m; induction rows as [|node rest IH]; intros m; simpl; [reflexivity |].
  destruct (segment_at m node); [| reflexivity]. rewrite IH. reflexivity.
Qed.

(** No operation of the model changes a resolved position. *)
Lemma operations_keep_positions (m : Model) :
  (forall where_ what label,
     skeleton_nodes (fst (_add_record where_ what label m)) = skeleton_nodes m) /\
  (forall stimulus where_ kwargs,
     skeleton_nodes (fst (_add_stimulus stimulus where_ kwargs m)) = skeleton_nodes m) /\
  (forall where_ ps,
     skeleton_nodes (fst (add_synaptic_input where_ ps m)) = skeleton_nodes m) /\
  (forall mechanism subset kwargs,
     skeleton_nodes (fst (insert mechanism subset kwargs m)) = skeleton_nodes m) /\
  (forall mechanism subset,
     skeleton_nodes (fst (uninsert mechanism subset m)) = skeleton_nodes m) /\
  skeleton_nodes (clear m) = skeleton_nodes m /\
  (forall duration v_init,
     skeleton_nodes (run_simulation duration v_init m) = skeleton_nodes m).
Proof.
  repeat split.
  - intros where_ what label. unfold _add_record.
    destruct what; try reflexivity.
    destruct (loc_rows _ _); [apply add_record_loop_nodes | reflexivity].
  - intros stimulus where_ kwargs. unfold _add_stimulus.
    destruct (loc_rows _ _); [apply add_stimulus_loop_nodes | reflexivity].
  - intros where_ ps. unfold add_synaptic_input. cbv zeta.
    destruct (loc_rows _ _); [| reflexivity].
    rewrite synaptic_input_loop_nodes. reflexivity.
  - intros mechanism subset kwargs. unfold insert.
    destruct (select_sections _ _); reflexivity.
  - intros mechanism subset. unfold uninsert.
    destruct (select_sections _ _); reflexivity.
Qed.

(** * Further properties *)

(** ** Mechanisms *)

Lemma apply_at_lookup (f : Section -> Section) (l : list Section) (j i : nat) :
  apply_at f l j !! i = if decide (j = i) then f <$> l !! i else l !! i.
Proof.
  unfold apply_at. destruct (l !! j) as [s|] eqn:E.
  - destruct (decide (j = i)) as [<- | Hne].
    + rewrite list_lookup_insert_eq by (eapply lookup_lt_Some; eauto).
      rewrite E. reflexivity.
    + apply list_lookup_insert_ne. exact Hne.
  - destruct (decide (j = i)) as [<- | Hne]; [rewrite E |]; reflexivity.
Qed.

(** Each index gets [f] once for every time it is listed. *)
Lemma fold_apply_at_lookup (f : Section -> Section) (js : list nat) :
  forall (l : list Section) (i : nat),
    fold_left (apply_at f) js l !! i =
    Nat.iter (count_occ Nat.eq_dec js i) f <$> l !! i.
Proof.
  induction js as [|j js IH]; intros l i; simpl.
  - destruct (l !! i); reflexivity.
  - rewrite IH, apply_at_lookup.
    destruct (Nat.eq_dec j i) as [Heq | Hne].
    + rewrite decide_True by exact Heq.
      destruct (l !! i) as [s|]; simpl; [| reflexivity].
      rewrite <- Nat.iter_succ_r. reflexivity.
    + rewrite decide_False by exact Hne. reflexivity.
Qed.

Lemma fold_apply_at_length (f : Section -> Section) (js : list nat) :
  forall l : list Section, length (fold_left (apply_at f) js l) = length l.
Proof.
  induction js as [|j js IH]; intros l; simpl; [reflexivity |].
  rewrite IH. unfold apply_at. destruct (l !! j); [apply length_insert | reflexivity].
Qed.

Lemma insert_section_eq (mechanism : string) (kwargs : list (string * Q))
    (s : Section) :
  insert_section mechanism kwargs s =
  set_mechanisms
    (<[mechanism :=
         map (set_kwargs kwargs)
             (default (replicate (Z.to_nat (nseg s)) ∅)
                      (mechanisms s !! mechanism))]> (mechanisms s)) s.
Proof. reflexivity. Qed.

Lemma set_kwargs_lookup (kwargs : list (string * Q)) :
  forall (params : gmap string Q) (k : string),
    set_kwargs kwargs params !! k =
    match kw_last kwargs k with
    | Some v => Some v
    | None => params !! k
    end.
Proof.
  unfold set_kwargs.
  induction kwargs as [|kv rest IH]; intros params k; simpl; [reflexivity |].
  rewrite IH. destruct (kw_last rest k) as [v|]; [reflexivity |].
  destruct (String.eqb_spec (fst kv) k) as [<- | Hne].
  - apply lookup_insert_eq.
  - apply lookup_insert_ne. exact Hne.
Qed.

Lemma set_kwargs_idempotent (kwargs : list (string * Q)) (params : gmap string Q) :
  set_kwargs kwargs (set_kwargs kwargs params) = set_kwargs kwargs params.
Proof.
  apply map_eq. intros k. rewrite !set_kwargs_lookup.
  destruct (kw_last kwargs k); reflexivity.
Qed.

Lemma section_eq (s s' : Section) :
  same_geometry s s' -> mechanisms s' = mechanisms s -> s' = s.
Proof.
  destruct s, s'. unfold same_geometry; simpl.
  intros (-> & -> & -> & ->) ->. reflexivity.
Qed.

Lemma insert_section_geometry mechanism kwargs s :
  same_geometry s (insert_section mechanism kwargs s).
Proof. repeat split. Qed.

Lemma insert_section_carries mechanism kwargs s :
  carries mechanism kwargs (insert_section mechanism kwargs s).
Proof.
  rewrite insert_section_eq. unfold carries. simpl.
  eexists. split; [apply lookup_insert_eq |].
  apply Forall_forall. intros params Hin k v Hk.
  apply list_elem_of_In, in_map_iff in Hin. destruct Hin as (p0 & <- & _).
  rewrite set_kwargs_lookup, Hk. reflexivity.
Qed.

Lemma insert_section_other mechanism kwargs s other :
  other <> mechanism ->
  mechanisms (insert_section mechanism kwargs s) !! other = mechanisms s !! other.
Proof.
  intros Hne. rewrite insert_section_eq. simpl.
  apply lookup_insert_ne. congruence.
Qed.

Lemma insert_section_idempotent mechanism kwargs s :
  insert_section mechanism kwargs (insert_section mechanism kwargs s) =
  insert_section mechanism kwargs s.
Proof.
  apply section_eq; [repeat split |].
  rewrite (insert_section_eq _ _ (insert_section mechanism kwargs s)).
  rewrite insert_section_eq. simpl.
  rewrite lookup_insert_eq. simpl. rewrite insert_insert_eq.
  f_equal. rewrite map_map. apply map_ext. intros p.
  apply set_kwargs_idempotent.
Qed.

Lemma iter_idempotent {A} (f : A -> A) (n : nat) (a : A) :
  (forall b, f (f b) = f b) ->
  Nat.iter n f a = match n with O => a | S _ => f a end.
Proof.
  intros Hf. induction n as [|n IH]; [reflexivity |].
  simpl. rewrite IH. destruct n; [reflexivity | apply Hf].
Qed.

Lemma uninsert_insert_section mechanism kwargs s :
  mechanisms s !! mechanism = None ->
  uninsert_section mechanism (insert_section mechanism kwargs s) = s.
Proof.
  intros Habs. unfold uninsert_section.
  rewrite insert_section_eq. simpl. rewrite lookup_insert_eq.
  apply section_eq; [repeat split |]. simpl.
  rewrite delete_insert_eq. apply delete_id. exact Habs.
Qed.

Lemma uninsert_section_absent mechanism s :
  mechanisms s !! mechanism = None -> uninsert_section mechanism s = s.
Proof. intros H. unfold uninsert_section. rewrite H. reflexivity. Qed.

Lemma uninsert_section_idempotent mechanism s :
  uninsert_section mechanism (uninsert_section mechanism s) =
  uninsert_section mechanism s.
Proof.
  destruct (mechanisms s !! mechanism) as [segs|] eqn:E.
  - assert (H : uninsert_section mechanism s =
                set_mechanisms (delete mechanism (mechanisms s)) s).
    { unfold uninsert_section. rewrite E. reflexivity. }
    rewrite H. apply uninsert_section_absent. simpl. apply lookup_delete_eq.
  - rewrite (uninsert_section_absent _ _ E). apply uninsert_section_absent, E.
Qed.

Lemma set_sections_id (m : Model) : set_sections (_sections m) m = m.
Proof. destruct m; reflexivity. Qed.

Lemma select_sections_length (subset : subset_arg) (m m' : Model) :
  length (_sections m') = length (_sections m) ->
  sections_ndarray m' = sections_ndarray m ->
  select_sections subset m' = select_sections subset m.
Proof. intros H Ha. unfold select_sections. rewrite H, Ha. reflexivity. Qed.

Lemma np_index_bound (len : nat) (i : Z) (j : nat) :
  np_index len i = Ok j -> j < len.
Proof.
  unfold np_index. intros H.
  destruct (Z.ltb_spec i 0);
    repeat match type of H with
    | context [Z.ltb ?a ?b] => destruct (Z.ltb_spec a b)
    end; try discriminate; injection H as <-; lia.
Qed.

Lemma select_sections_bound (subset : subset_arg) (m : Model) (js : list nat) :
  select_sections subset m = Ok js ->
  Forall (fun j => j < length (_sections m)) js.
Proof.
  unfold select_sections. intros H.
  assert (Hall : Forall (fun j => j < length (_sections m))
                        (seq 0 (length (_sections m)))).
  { apply Forall_forall. intros j Hj. apply list_elem_of_In, in_seq in Hj. lia. }
  destruct (truthy subset); simpl in H.
  - destruct subset as [| l | i].
    + injection H as <-. exact Hall.
    + destruct (sections_ndarray m); [| discriminate].
      eapply rmapM_Forall; [| exact H]. intros a b. apply np_index_bound.
    + inv_ok. subst js. repeat constructor. eapply np_index_bound; eauto.
  - injection H as <-. exact Hall.
Qed.

Lemma count_occ_zero_iff (js : list nat) (i : nat) :
  count_occ Nat.eq_dec js i = 0 <-> i ∉ js.
Proof.
  rewrite <- count_occ_not_In. split; intros H Hin; apply H;
    apply list_elem_of_In; exact Hin.
Qed.



Lemma set_sections_twice (a b : list Section) (m : Model) :
  set_sections a (set_sections b m) = set_sections a m.
Proof. reflexivity. Qed.

(** X2.  Inserting a mechanism a second time, with the same subset and
    keywords, changes nothing more. *)
Theorem X2_insert_idempotent (mechanism : string) (subset : subset_arg)
    (kwargs : list (string * Q)) (m : Model) :
  insert mechanism subset kwargs (fst (insert mechanism subset kwargs m)) =
  insert mechanism subset kwargs m.
Proof.
  destruct (select_sections subset m) as [js|e] eqn:Hsel.
  - assert (Hins : insert mechanism subset kwargs m =
                   (set_sections
                      (fold_left (apply_at (insert_section mechanism kwargs)) js
                                 (_sections m)) m, Ok tt)).
    { unfold insert. rewrite Hsel. reflexivity. }
    rewrite Hins. simpl fst. unfold insert.
    rewrite (select_sections_length subset m (set_sections _ m))
      by (simpl; first [apply fold_apply_at_length | reflexivity]).
    rewrite Hsel. simpl _sections. rewrite set_sections_twice.
    f_equal. f_equal. apply list_eq. intros i.
    rewrite !fold_apply_at_lookup.
    destruct (_sections m !! i) as [s|]; simpl; [| reflexivity].
    f_equal.
    rewrite !(iter_idempotent _ _ _ (insert_section_idempotent mechanism kwargs)).
    destruct (count_occ Nat.eq_dec js i); [reflexivity |].
    apply insert_section_idempotent.
  - assert (Hins : insert mechanism subset kwargs m = (m, Raise e)).
    { unfold insert. rewrite Hsel. reflexivity. }
    rewrite Hins. simpl fst. exact Hins.
Qed.

(** X3.  Removing a mechanism right after inserting it, on the same subset,
    gives back the model, provided no section had the mechanism before. *)
Theorem X3_uninsert_undoes_insert (mechanism : string) (subset : subset_arg)
    (kwargs : list (string * Q)) (m : Model) :
  no_mechanism mechanism m ->
  snd (insert mechanism subset kwargs m) = Ok tt ->
  uninsert mechanism subset (fst (insert mechanism subset kwargs m)) = (m, Ok tt).
Proof.
  intros Hno Hok.
  destruct (select_sections subset m) as [js|e] eqn:Hsel.
  2: { unfold insert in Hok. rewrite Hsel in Hok. discriminate. }
  assert (Hins : insert mechanism subset kwargs m =
                 (set_sections
                    (fold_left (apply_at (insert_section mechanism kwargs)) js
                               (_sections m)) m, Ok tt)).
  { unfold insert. rewrite Hsel. reflexivity. }
  rewrite Hins. simpl fst. unfold uninsert.
  rewrite (select_sections_length subset m (set_sections _ m))
    by (simpl; first [apply fold_apply_at_length | reflexivity]).
  rewrite Hsel. simpl _sections. rewrite set_sections_twice.
  f_equal. transitivity (set_sections (_sections m) m); [| apply set_sections_id].
  f_equal.
  apply list_eq. intros i. rewrite !fold_apply_at_lookup.
  destruct (_sections m !! i) as [s|] eqn:Hs; simpl; [| reflexivity].
  f_equal.
  assert (Habs : mechanisms s !! mechanism = None).
  { unfold no_mechanism in Hno. rewrite Forall_forall in Hno.
    apply Hno. eapply list_elem_of_lookup_2; eauto. }
  rewrite (iter_idempotent _ _ s (insert_section_idempotent mechanism kwargs)).
  rewrite (iter_idempotent _ _ _ (uninsert_section_idempotent mechanism)).
  destruct (count_occ Nat.eq_dec js i); [reflexivity |].
  apply uninsert_insert_section. exact Habs.
Qed.

Lemma y_model_no_mechanism (mechanism : string) : no_mechanism mechanism y_model.
Proof.
  unfold no_mechanism.
  assert (H : Forall (fun s => mechanisms s = ∅) (_sections y_model)).
  { vm_compute. repeat constructor. }
  eapply Forall_impl; [exact H |]. simpl. intros s ->. apply lookup_empty.
Qed.

Lemma X3_uninsert_undoes_insert_witness :
  uninsert "pas" (SubList [1%Z; 1%Z; (-1)%Z])
    (fst (insert "pas" (SubList [1%Z; 1%Z; (-1)%Z]) [("e", - (60))%Q]%string
                 y_model))
  = (y_model, Ok tt).
Proof.
  apply X3_uninsert_undoes_insert.
  - apply y_model_no_mechanism.
  - vm_compute. reflexivity.
Defined.

(** X4.  [uninsert] never changes a model none of whose sections has the
    mechanism: the call is a no-op, whether the subset resolves or not. *)
Theorem X4_uninsert_absent_is_noop (mechanism : string) (subset : subset_arg)
    (m : Model) :
  no_mechanism mechanism m ->
  fst (uninsert mechanism subset m) = m.
Proof.
  intros Hno. unfold uninsert.
  destruct (select_sections subset m) as [js|e]; [| reflexivity].
  simpl. transitivity (set_sections (_sections m) m); [| apply set_sections_id].
  f_equal.
  apply list_eq. intros i. rewrite fold_apply_at_lookup.
  destruct (_sections m !! i) as [s|] eqn:Hs; simpl; [| reflexivity].
  f_equal.
  assert (Habs : mechanisms s !! mechanism = None).
  { unfold no_mechanism in Hno. rewrite Forall_forall in Hno.
    apply Hno. eapply list_elem_of_lookup_2; eauto. }
  rewrite (iter_idempotent _ _ _ (uninsert_section_idempotent mechanism)).
  destruct (count_occ Nat.eq_dec js i); [reflexivity |].
  apply uninsert_section_absent. exact Habs.
Qed.

Lemma X4_uninsert_absent_witness :
  fst (uninsert "hh" SubNone y_model) = y_model.
Proof. apply X4_uninsert_absent_is_noop. apply y_model_no_mechanism. Defined.

Lemma np_index_out_of_range (len : nat) (i : Z) :
  out_of_range len i -> np_index len i = Raise IndexError.
Proof.
  unfold out_of_range, np_index. intros H.
  destruct (Z.ltb_spec i 0);
    repeat match goal with
    | |- context [Z.ltb ?a ?b] => destruct (Z.ltb_spec a b)
    end; try reflexivity; lia.
Qed.

Lemma np_index_raises (len : nat) (i : Z) (e : exn) :
  np_index len i = Raise e -> e = IndexError.
Proof.
  unfold np_index. intros H.
  repeat match type of H with
  | context [Z.ltb ?a ?b] => destruct (Z.ltb a b)
  end; congruence.
Qed.

Lemma rmapM_Raise_same {A B} (f : A -> result B) (l : list A) (a : A) (e0 : exn) :
  (forall b e, f b = Raise e -> e = e0) ->
  a ∈ l -> f a = Raise e0 -> rmapM f l = Raise e0.
Proof.
  intros Hsame. induction 1 as [a t | a b t Hin IH]; simpl; intros Hf.
  - rewrite Hf. reflexivity.
  - destruct (f b) as [y|e] eqn:E; simpl.
    + rewrite (IH Hf). reflexivity.
    + rewrite (Hsame b e E). reflexivity.
Qed.

Lemma select_sections_out_of_range (subset : subset_arg) (m : Model) (i : Z) :
  sections_ndarray m = true ->
  truthy subset = true -> i ∈ subset_indices subset ->
  out_of_range (length (_sections m)) i ->
  select_sections subset m = Raise IndexError.
Proof.
  intros Harr Ht Hin Hout. unfold select_sections. rewrite Ht, Harr. simpl.
  destruct subset as [| l | k]; simpl in Hin.
  - inversion Hin.
  - apply (rmapM_Raise_same _ l i IndexError); auto.
    + intros b e. apply np_index_raises.
    + apply np_index_out_of_range. exact Hout.
  - apply list_elem_of_singleton in Hin. subst k.
    rewrite (np_index_out_of_range _ _ Hout). reflexivity.
Qed.

(** X5.  While the sections are the array that [_generate_sections] made,
    a subset that lists an index outside it makes [insert] and [uninsert]
    raise IndexError before any section is touched: the model is as it was,
    also where other listed indices are fine. *)
Theorem X5_subset_out_of_range_raises (mechanism : string) (subset : subset_arg)
    (kwargs : list (string * Q)) (m : Model) (i : Z) :
  sections_ndarray m = true ->
  truthy subset = true -> i ∈ subset_indices subset ->
  out_of_range (length (_sections m)) i ->
  insert mechanism subset kwargs m = (m, Raise IndexError) /\
  uninsert mechanism subset m = (m, Raise IndexError).
Proof.
  intros Harr Ht Hin Hout. unfold insert, uninsert.
  rewrite (select_sections_out_of_range subset m i Harr Ht Hin Hout).
  split; reflexivity.
Qed.

Lemma X5_subset_out_of_range_witness :
  insert "pas" (SubList [1%Z; 3%Z]) [] y_model = (y_model, Raise IndexError) /\
  uninsert "pas" (SubList [1%Z; 3%Z]) y_model = (y_model, Raise IndexError).
Proof.
  apply (X5_subset_out_of_range_raises "pas" (SubList [1%Z; 3%Z]) [] y_model 3%Z).
  - vm_compute; reflexivity.
  - reflexivity.
  - right; left.
  - left. assert (H : length (_sections y_model) = 3) by (vm_compute; reflexivity).
    rewrite H. lia.
Defined.

Lemma np_index_wrap (len : nat) (i : Z) :
  (- Z.of_nat len <= i)%Z ->
  np_index len (wrap_index len i) = np_index len i.
Proof.
  unfold np_index, wrap_index. intros H. cbv zeta.
  destruct (Z.ltb i 0) eqn:E; [| rewrite ?E; reflexivity].
  apply Z.ltb_lt in E.
  destruct (Z.ltb (i + Z.of_nat len) 0) eqn:E2;
    [apply Z.ltb_lt in E2; lia | rewrite ?E2; reflexivity].
Qed.

(** X6.  Negative subset indices count from the end: listing [i - len]
    selects the same section as listing [i]. *)
Theorem X6_negative_indices_count_from_end (mechanism : string) (l : list Z)
    (kwargs : list (string * Q)) (m : Model) :
  Forall (fun i => (- Z.of_nat (length (_sections m)) <= i)%Z) l ->
  insert mechanism (SubList (map (wrap_index (length (_sections m))) l)) kwargs m
  = insert mechanism (SubList l) kwargs m /\
  uninsert mechanism (SubList (map (wrap_index (length (_sections m))) l)) m
  = uninsert mechanism (SubList l) m.
Proof.
  intros Hall.
  assert (Hsel : select_sections
                   (SubList (map (wrap_index (length (_sections m))) l)) m =
                 select_sections (SubList l) m).
  { unfold select_sections. destruct l as [|a l']; [reflexivity |].
    simpl truthy. cbv iota. simpl negb. cbv iota.
    destruct (sections_ndarray m); [| reflexivity].
    induction Hall as [|b k Hb _ IH]; [reflexivity |].
    simpl. rewrite (np_index_wrap _ _ Hb).
    destruct (np_index (length (_sections m)) b); simpl; [| reflexivity].
    rewrite IH. reflexivity. }
  unfold insert, uninsert. rewrite Hsel. split; reflexivity.
Qed.

Lemma X6_negative_indices_witness :
  insert "pas" (SubList [2%Z]) [] y_model = insert "pas" (SubList [(-1)%Z]) [] y_model.
Proof.
  assert (H : length (_sections y_model) = 3) by (vm_compute; reflexivity).
  destruct (X6_negative_indices_count_from_end "pas" [(-1)%Z] [] y_model) as [Hi _].
  - rewrite H. repeat constructor. lia.
  - rewrite <- Hi. rewrite H. reflexivity.
Defined.

(** ** Stimuli *)

Lemma dict_append_default (d : gmap Z (list hobject)) (k n : Z)
    (new : list hobject) :
  default [] (dict_append d k new !! n) =
  default [] (d !! n) ++ (if Z.eqb k n then new else []).
Proof.
  unfold dict_append. destruct (Z.eqb_spec k n) as [<- | Hne].
  - rewrite lookup_insert_eq. reflexivity.
  - rewrite lookup_insert_ne by exact Hne. rewrite app_nil_r. reflexivity.
Qed.

Lemma made_at_cons {A} (n : Z) (node : located_row) (a : A)
    (made : list (located_row * A)) :
  made_at n ((node, a) :: made) =
  (if Z.eqb (node_id (row node)) n then [a] else []) ++ made_at n made.
Proof.
  unfold made_at. simpl. unfold has_id.
  destruct (Z.eqb (node_id (row node)) n); reflexivity.
Qed.

(** What one run of the stimulus loop does when it does not raise. *)
Lemma add_stimulus_loop_spec (stimulus : string) (kwargs : list (string * Q))
    (rows : list located_row) :
  forall m m',
    add_stimulus_loop stimulus kwargs rows m = (m', Ok tt) ->
    exists objs,
      Forall2 (fun node_h o =>
                 exists seg, segment_at m (fst node_h) = Ok seg /\
                             o = PointProcess (snd node_h) stimulus seg kwargs)
              (zip rows (seq (next_handle m) (length rows))) objs /\
      nrn_created m' = nrn_created m ++ objs /\
      (forall n, default [] (_stimuli m' !! n) =
                 default [] (_stimuli m !! n) ++ made_at n (zip rows objs)) /\
      (forall n, (forall node, node ∈ rows -> node_id (row node) <> n) ->
                 _stimuli m' !! n = _stimuli m !! n) /\
      _records m' = _records m /\ _synapses m' = _synapses m /\
      _sections m' = _sections m /\ skeleton_nodes m' = skeleton_nodes m.
Proof.
  induction rows as [|node rest IH]; intros m m' H; simpl in H.
  - injection H as <-. exists []. simpl. rewrite app_nil_r.
    repeat split; try constructor.
    intros n. unfold made_at. simpl. rewrite app_nil_r. reflexivity.
  - destruct (segment_at m node) as [seg|e] eqn:Eseg; [| discriminate].
    apply IH in H.
    destruct H as (objs & HF & Hc & Hst & Hother & Hr & Hsy & Hse & Hsk).
    simpl in Hc, Hst, Hother, Hr, Hsy, Hse, Hsk.
    set (stim := PointProcess (next_handle m) stimulus seg kwargs) in *.
    exists (stim :: objs).
    split; [| split; [| split; [| split; [| repeat split]]]].
    + simpl. constructor; [exists seg; auto |].
      eapply Forall2_impl; [exact HF |].
      intros [node' h] o. simpl. tauto.
    + rewrite Hc, <- app_assoc. reflexivity.
    + intros n. rewrite Hst, dict_append_default.
      change (zip (node :: rest) (stim :: objs))
        with ((node, stim) :: zip rest objs).
      rewrite made_at_cons, app_assoc. reflexivity.
    + intros n Hn. rewrite Hother.
      * unfold dict_append. apply lookup_insert_ne. apply Hn. left.
      * intros node' Hin. apply Hn. right. exact Hin.
    + exact Hr.
    + exact Hsy.
    + exact Hse.
    + exact Hsk.
Qed.

(** X7.  A call of [_add_stimulus] that returns has created one point
    process per row of the batch, at that row's (section, position) and with
    the keywords given; each node's list in the stimulus registry is its old
    list followed by the point processes made at that node, in batch order;
    nodes outside the batch, the records and the synapses are untouched. *)
Theorem X7_add_stimulus_appends_per_node (stimulus : string) (where_ : list Z)
    (kwargs : list (string * Q)) (m m' : Model) :
  _add_stimulus stimulus where_ kwargs m = (m', Ok tt) ->
  exists rows objs,
    loc_rows (skeleton_nodes m) where_ = Ok rows /\
    length objs = length rows /\
    nrn_created m' = nrn_created m ++ objs /\
    (forall i node o, rows !! i = Some node -> objs !! i = Some o ->
       exists seg, segment_at m node = Ok seg /\
                   o = PointProcess (next_handle m + i) stimulus seg kwargs) /\
    (forall n, default [] (_stimuli m' !! n) =
               default [] (_stimuli m !! n) ++ made_at n (zip rows objs)) /\
    (forall n, n ∉ where_ -> _stimuli m' !! n = _stimuli m !! n) /\
    _records m' = _records m /\ _synapses m' = _synapses m.
Proof.
  intros H. unfold _add_stimulus in H.
  destruct (loc_rows (skeleton_nodes m) where_) as [rows|e] eqn:El;
    [| discriminate].
  apply add_stimulus_loop_spec in H.
  destruct H as (objs & HF & Hc & Hst & Hother & Hr & Hsy & _).
  exists rows, objs. split; [reflexivity |].
  assert (Hlen : length objs = length rows).
  { apply Forall2_length in HF.
    rewrite length_zip_with_l_eq in HF by (rewrite length_seq; reflexivity).
    symmetry; exact HF. }
  split; [exact Hlen |]. split; [exact Hc |].
  split; [| split; [exact Hst | split; [| split; [exact Hr | exact Hsy]]]].
  - intros i node o Hn Ho.
    destruct (Forall2_lookup_r _ _ _ _ _ HF Ho) as ([node' h] & Hz & seg & Hs & ->).
    apply lookup_zip_with_Some in Hz. destruct Hz as (a & b & Heq & Ha & Hb).
    injection Heq as -> ->. apply lookup_seq in Hb. destruct Hb as [-> _].
    simpl in *. assert (a = node) by congruence. subst a. eauto.
  - intros n Hn. apply Hother. intros node Hin Hid.
    apply loc_rows_spec in El. destruct El as (Hrows & _).
    rewrite Forall_forall in Hrows. destruct (Hrows node Hin) as [_ Hw].
    apply Hn. rewrite <- Hid. exact Hw.
Qed.

Lemma X7_add_stimulus_witness :
  exists m',
    inject_current_pulse [3%Z; 3%Z; 4%Z] 5 1 (1 # 10) y_model = (m', Ok tt) /\
    length (default [] (_stimuli m' !! 3%Z)) = 2 /\
    length (default [] (_stimuli m' !! 4%Z)) = 1 /\
    _stimuli m' !! 2%Z = None.
Proof.
  set (call := inject_current_pulse [3%Z; 3%Z; 4%Z] 5 1 (1 # 10) y_model).
  assert (H : call = (fst call, Ok tt)) by (vm_compute; reflexivity).
  exists (fst call). split; [exact H |].
  destruct (X7_add_stimulus_appends_per_node _ _ _ _ _ H)
    as (rows & objs & Hrows & Hlen & _ & _ & Hst & Hother & _).
  assert (Hrows3 : length rows = 3).
  { assert (Hl : exists rs, loc_rows (skeleton_nodes y_model) [3%Z; 3%Z; 4%Z]
                            = Ok rs /\ length rs = 3)
      by (vm_compute; eexists; split; reflexivity).
    destruct Hl as (rs & Hrs & Hl). congruence. }
  split; [vm_compute; reflexivity |]. split; [vm_compute; reflexivity |].
  rewrite Hother; [vm_compute; reflexivity |].
  intros Hmem. repeat (apply elem_of_cons in Hmem; destruct Hmem as [Hmem | Hmem];
                       [discriminate |]).
  inversion Hmem.
Defined.

(** ** After [clear] *)

Lemma index_sections_nil (a : bool) (tbl : list located_row) (v : option nat) :
  index_sections a tbl [] v =
  Raise (if sec_ix_is_int tbl then IndexError
         else if a then IndexError else TypeError).
Proof.
  unfold index_sections. destruct (sec_ix_is_int tbl); [| reflexivity].
  destruct v; reflexivity.
Qed.

Lemma loc_rows_nonempty (tbl : list located_row) (where_ : list Z)
    (rows : list located_row) :
  where_ <> [] -> loc_rows tbl where_ = Ok rows ->
  exists node rest, rows = node :: rest.
Proof.
  intros Hne H. apply loc_rows_length in H.
  destruct rows as [|node rest]; [| eauto].
  destruct where_; [contradiction | simpl in H; lia].
Qed.

(** X8.  After [clear] the registries are empty and there are no sections;
    from then on every record, stimulus or synaptic-input call on a batch
    that is not empty raises, and the registries stay empty. *)
Theorem X8_cleared_model_rejects_instrumentation (m : Model) (where_ : list Z) :
  registries_empty (clear m) /\ _sections (clear m) = [] /\
  (where_ <> [] ->
   (forall what label,
      (exists e, snd (_add_record where_ what label (clear m)) = Raise e) /\
      registries_empty (fst (_add_record where_ what label (clear m)))) /\
   (forall stimulus kwargs,
      (exists e, snd (_add_stimulus stimulus where_ kwargs (clear m)) = Raise e) /\
      registries_empty (fst (_add_stimulus stimulus where_ kwargs (clear m)))) /\
   (forall ps,
      (exists e, snd (add_synaptic_input where_ ps (clear m)) = Raise e) /\
      registries_empty (fst (add_synaptic_input where_ ps (clear m))))).
Proof.
  split; [repeat split |]. split; [reflexivity |].
  intros Hne.
  assert (Hempty : registries_empty (clear m)) by (repeat split).
  split; [| split].
  - intros what label. unfold _add_record.
    destruct what as [w | z |]; simpl; eauto.
    change (skeleton_nodes (clear m)) with (skeleton_nodes m).
    destruct (loc_rows (skeleton_nodes m) where_) as [rows|e] eqn:El; simpl; eauto.
    destruct (loc_rows_nonempty _ _ _ Hne El) as (node & rest & ->).
    simpl. unfold segment_at. simpl. rewrite index_sections_nil. simpl. eauto.
  - intros stimulus kwargs. unfold _add_stimulus.
    change (skeleton_nodes (clear m)) with (skeleton_nodes m).
    destruct (loc_rows (skeleton_nodes m) where_) as [rows|e] eqn:El; simpl; eauto.
    destruct (loc_rows_nonempty _ _ _ Hne El) as (node & rest & ->).
    simpl. unfold segment_at. simpl. rewrite index_sections_nil. simpl. eauto.
  - intros ps. unfold add_synaptic_input. cbv zeta.
    change (skeleton_nodes (allocate 1 _ (clear m))) with (skeleton_nodes m).
    destruct (loc_rows (skeleton_nodes m) where_) as [rows|e] eqn:El; simpl.
    + destruct (loc_rows_nonempty _ _ _ Hne El) as (node & rest & ->).
      simpl. unfold segment_at. simpl. rewrite index_sections_nil. simpl.
      split; [eauto | repeat split].
    + split; [eauto | repeat split].
Qed.

Lemma X8_cleared_model_witness :
  exists e, snd (add_voltage_record [3%Z] None (clear y_model)) = Raise e.
Proof.
  destruct (X8_cleared_model_rejects_instrumentation y_model [3%Z])
    as (_ & _ & H).
  destruct (H ltac:(discriminate)) as (Hrec & _ & _).
  exact (proj1 (Hrec (PyStr "v") None)).
Defined.

(** ** Records *)

Lemma prefix_append (p s : string) : String.prefix p (p ++ s) = true.
Proof.
  induction p as [|c p IH]; simpl; [destruct s; reflexivity |].
  destruct (Ascii.ascii_dec c c) as [_ | Hne]; [exact IH | contradiction].
Qed.

Lemma ref_name_idempotent (w : string) : ref_name (ref_name w) = ref_name w.
Proof.
  destruct (String.prefix "_ref_" w) eqn:E.
  - assert (H : ref_name w = w) by (unfold ref_name; rewrite E; reflexivity).
    rewrite H. exact H.
  - assert (H : ref_name w = ("_ref_" ++ w)%string)
      by (unfold ref_name; rewrite E; reflexivity).
    rewrite H. unfold ref_name. rewrite prefix_append. reflexivity.
Qed.

(** X9.  The name of the recorded variable may be given with or without
    the [_ref_] prefix: both are the same call.  In particular
    [add_voltage_record] is [_add_record] with ["_ref_v"]. *)
Theorem X9_record_name_prefix_optional (where_ : list Z) (w : string)
    (label : option string) (m : Model) :
  _add_record where_ (PyStr (ref_name w)) label m =
  _add_record where_ (PyStr w) label m /\
  (String.prefix "_ref_" w = false ->
   _add_record where_ (PyStr ("_ref_" ++ w)) label m =
   _add_record where_ (PyStr w) label m) /\
  add_voltage_record where_ label m = _add_record where_ (PyStr "_ref_v") label m.
Proof.
  split; [| split].
  - unfold _add_record. rewrite ref_name_idempotent. reflexivity.
  - intros Hp. unfold _add_record.
    assert (H : ref_name ("_ref_" ++ w) = ref_name w).
    { unfold ref_name. rewrite prefix_append, Hp. reflexivity. }
    rewrite H. reflexivity.
  - reflexivity.
Qed.

(** X10.  Without a label, a call that returns leaves under every listed
    node id a recorder that is bound to the (section, position) of a table
    row of that very node and to the normalised variable name. *)
Theorem X10_recorder_bound_to_its_node (where_ : list Z) (w : string)
    (label : option string) (m m' : Model) :
  label_given label = None ->
  _add_record where_ (PyStr w) label m = (m', Ok tt) ->
  forall n, n ∈ where_ ->
    exists node r j,
      node ∈ skeleton_nodes m /\ node_id (row node) = n /\
      _records m' !! inr n = Some r /\
      sec_ix node = Some j /\ j < length (_sections m) /\
      rec_seg r = (j, sec_pos node) /\ rec_ref r = ref_name w.
Proof.
  intros Hnone H n Hn. unfold _add_record in H.
  destruct (loc_rows (skeleton_nodes m) where_) as [rows|e] eqn:El;
    [| discriminate].
  apply loc_rows_spec in El. destruct El as (Hrows & Hcover & _).
  apply add_record_loop_spec in H.
  destruct H as (recs & HF & _ & _ & Hr & _).
  apply recorders_by_index in HF. destruct HF as [Hlen Hidx].
  assert (Hkey : forall node, record_key label node = inr (node_id (row node))).
  { intros node. unfold record_key. rewrite Hnone. reflexivity. }
  destruct (Hcover n Hn) as (node & Hin & _ & Hid).
  apply list_elem_of_lookup in Hin. destruct Hin as [i Hi].
  destruct (lookup_lt_is_Some_2 recs i) as [r Hri].
  { rewrite Hlen. eapply lookup_lt_Some; eauto. }
  pose proof (zip_elem_of_index _ _ _ _ _ Hi Hri) as Hz.
  destruct (store_all_lookup_in label (_records m) _ _ Hz)
    as ([node' r'] & Hin' & Hk & Hl).
  simpl in Hk, Hl. rewrite !Hkey in Hk. rewrite Hkey, Hid in Hl.
  apply list_elem_of_lookup in Hin'. destruct Hin' as [i' Hi'].
  apply lookup_zip_with_Some in Hi'. destruct Hi' as (a & b & Heq & Ha & Hb).
  injection Heq as <- <-.
  destruct (Hidx i' r' Hb) as (node2 & Hn2 & _ & Href & Hseg).
  assert (node2 = node') by congruence. subst node2.
  unfold segment_at in Hseg. inv_ok. rename a into js.
  unfold index_sections in Ha0.
  destruct (sec_ix_is_int (skeleton_nodes m)); [| discriminate].
  inv_ok. subst js. simpl in Hseg.
  exists node', r', a.
  rewrite Forall_forall in Hrows.
  destruct (Hrows node' (list_elem_of_lookup_2 _ _ _ Hn2)) as [Htbl _].
  split; [exact Htbl |]. split; [congruence |].
  split; [rewrite Hr; exact Hl |]. split; [exact Ha1 |].
  split; [eapply lookup_lt_Some; eauto |].
  split; [symmetry; exact Hseg | exact Href].
Qed.

Lemma X10_recorder_bound_witness :
  exists node r j,
    node ∈ skeleton_nodes y_model /\ node_id (row node) = 4%Z /\
    _records (fst (add_voltage_record [3%Z; 4%Z] None y_model)) !! inr 4%Z = Some r /\
    sec_ix node = Some j /\ j < length (_sections y_model) /\
    rec_seg r = (j, sec_pos node) /\ rec_ref r = ref_name "v".
Proof.
  set (call := add_voltage_record [3%Z; 4%Z] None y_model).
  assert (H : _add_record [3%Z; 4%Z] (PyStr "v") None y_model = (fst call, Ok tt))
    by (vm_compute; reflexivity).
  apply (X10_recorder_bound_to_its_node [3%Z; 4%Z] "v" None y_model (fst call)
           eq_refl H 4%Z).
  right; left.
Defined.

(** ** Synaptic input, target by target *)

Lemma synapse_handles_lookup (n : nat) :
  forall h i x, synapse_handles h n !! i = Some x -> x = h + 2 * i.
Proof.
  induction n as [|n IH]; intros h i x H; simpl in H; [discriminate |].
  destruct i as [|i]; simpl in H.
  - injection H as <-. lia.
  - apply IH in H. lia.
Qed.

Lemma synapse_handles_length (n h : nat) : length (synapse_handles h n) = n.
Proof. revert h; induction n as [|n IH]; intros h; simpl; [| rewrite IH]; reflexivity. Qed.

Lemma synaptic_input_loop_exact (ps : spike_params) (stim : hobject)
    (rows : list located_row) :
  forall m m',
    synaptic_input_loop ps stim rows m = (m', Ok tt) ->
    exists pairs,
      Forall2 (fun node_h p => synapse_for ps stim m (fst node_h) (snd node_h) p)
              (zip rows (synapse_handles (next_handle m) (length rows))) pairs /\
      nrn_created m' =
        nrn_created m ++ flat_map (fun p => [fst p; snd p]) pairs /\
      (forall n, default [] (_synapses m' !! n) =
                 default [] (_synapses m !! n) ++
                 map fst (made_at n (zip rows pairs))) /\
      (forall n, default [] (_stimuli m' !! n) =
                 default [] (_stimuli m !! n) ++
                 flat_map (fun p => [snd p; stim]) (made_at n (zip rows pairs))) /\
      _records m' = _records m.
Proof.
  induction rows as [|node rest IH]; intros m m' H; simpl in H.
  - injection H as <-. exists []. simpl. rewrite app_nil_r.
    repeat split; try constructor; intros n; unfold made_at; simpl;
      rewrite app_nil_r; reflexivity.
  - destruct (segment_at m node) as [seg|e] eqn:Eseg; [| discriminate].
    apply IH in H. destruct H as (pairs & HF & Hc & Hsy & Hst & Hr).
    simpl in Hc, Hsy, Hst, Hr.
    set (syn := Exp2Syn (next_handle m) seg (syn_tau1 ps) (syn_tau2 ps)
                        (syn_rev_pot ps) (syn_curr ps)) in *.
    set (nc := NetCon (1 + next_handle m) (handle_of stim) (handle_of syn)
                      (cn_thresh ps) (cn_delay ps) (cn_weight0 ps)) in *.
    exists ((syn, nc) :: pairs).
    split; [| split; [| split; [| split]]].
    + simpl. constructor.
      * exists seg. simpl. auto.
      * eapply Forall2_impl; [exact HF |].
        intros [node' h] p. unfold synapse_for. simpl. tauto.
    + rewrite Hc, <- !app_assoc. reflexivity.
    + intros n. rewrite Hsy, dict_append_default.
      change (zip (node :: rest) ((syn, nc) :: pairs))
        with ((node, (syn, nc)) :: zip rest pairs).
      rewrite made_at_cons, map_app, app_assoc.
      destruct (Z.eqb (node_id (row node)) n); reflexivity.
    + intros n. rewrite Hst, dict_append_default.
      change (zip (node :: rest) ((syn, nc) :: pairs))
        with ((node, (syn, nc)) :: zip rest pairs).
      rewrite made_at_cons, flat_map_app, app_assoc.
      destruct (Z.eqb (node_id (row node)) n); reflexivity.
    + exact Hr.
Qed.

(** X11.  A call of [add_synaptic_input] that returns has made, for every
    row of the batch, one Exp2Syn at that row's (section, position) with the
    given kinetics and one NetCon from the shared NetStim to that very
    synapse.  A node's synapse list is its old list followed by the synapses
    made at it; its stimulus list is its old list followed, for each of
    them, by the NetCon and the NetStim.  The records are untouched. *)
Theorem X11_synaptic_input_per_target (where_ : list Z) (ps : spike_params)
    (m m' : Model) :
  add_synaptic_input where_ ps m = (m', Ok tt) ->
  let stim := NetStim (next_handle m) (spike_no ps) (start ps)
                      (spike_noise ps) (spike_int ps) in
  exists rows pairs,
    loc_rows (skeleton_nodes m) where_ = Ok rows /\
    length pairs = length rows /\
    (forall i node p, rows !! i = Some node -> pairs !! i = Some p ->
       synapse_for ps stim m node (1 + next_handle m + 2 * i) p) /\
    nrn_created m' =
      nrn_created m ++ stim :: flat_map (fun p => [fst p; snd p]) pairs /\
    (forall n, default [] (_synapses m' !! n) =
               default [] (_synapses m !! n) ++
               map fst (made_at n (zip rows pairs))) /\
    (forall n, default [] (_stimuli m' !! n) =
               default [] (_stimuli m !! n) ++
               flat_map (fun p => [snd p; stim]) (made_at n (zip rows pairs))) /\
    _records m' = _records m.
Proof.
  intros H. cbv zeta. unfold add_synaptic_input in H. cbv zeta in H.
  set (stim := NetStim (next_handle m) (spike_no ps) (start ps)
                       (spike_noise ps) (spike_int ps)) in *.
  change (skeleton_nodes (allocate 1 [stim] m)) with (skeleton_nodes m) in H.
  destruct (loc_rows (skeleton_nodes m) where_) as [rows|e] eqn:El;
    [| discriminate].
  apply synaptic_input_loop_exact in H.
  destruct H as (pairs & HF & Hc & Hsy & Hst & Hr).
  simpl in Hc, Hsy, Hst, Hr. simpl next_handle in HF.
  exists rows, pairs. split; [reflexivity |].
  assert (Hlen : length pairs = length rows).
  { apply Forall2_length in HF.
    rewrite length_zip_with_l_eq in HF
      by (rewrite synapse_handles_length; reflexivity).
    symmetry; exact HF. }
  split; [exact Hlen |].
  split; [| split; [| split; [exact Hsy | split; [exact Hst | exact Hr]]]].
  - intros i node p Hn Hp.
    destruct (Forall2_lookup_r _ _ _ _ _ HF Hp) as ([node' h] & Hz & Hfor).
    apply lookup_zip_with_Some in Hz. destruct Hz as (a & b & Heq & Ha & Hb).
    injection Heq as <- <-. apply synapse_handles_lookup in Hb.
    assert (node' = node) by congruence. subst node' h.
    unfold synapse_for in *. simpl in Hfor. exact Hfor.
  - rewrite Hc, <- app_assoc. reflexivity.
Qed.

Lemma X11_synaptic_input_witness :
  exists m' rows (pairs : list (hobject * hobject)),
    add_synaptic_input [3%Z; 4%Z] default_spike y_model = (m', Ok tt) /\
    loc_rows (skeleton_nodes y_model) [3%Z; 4%Z] = Ok rows /\
    length pairs = length rows /\
    length (nrn_created m') = 1 + 2 * length pairs.
Proof.
  set (call := add_synaptic_input [3%Z; 4%Z] default_spike y_model).
  assert (H : call = (fst call, Ok tt)) by (vm_compute; reflexivity).
  destruct (X11_synaptic_input_per_target _ _ _ _ H)
    as (rows & pairs & Hrows & Hlen & _ & Hc & _).
  exists (fst call), rows, pairs.
  split; [exact H |]. split; [exact Hrows |]. split; [exact Hlen |].
  rewrite Hc, length_app. simpl length.
  assert (Hy : length (nrn_created y_model) = 0) by (vm_compute; reflexivity).
  rewrite Hy. simpl. f_equal.
  clear. induction pairs as [|p pairs IH]; simpl; [reflexivity |]. rewrite IH. lia.
Defined.

(** ** The constructed model *)

Lemma dict_update_index_value (d : gmap Z nat) (keys : list Z) (i : nat)
    (n : Z) (j : nat) :
  dict_update d (zip keys (replicate (length keys) i)) !! n = Some j ->
  d !! n = Some j \/ j = i.
Proof.
  intros H. apply dict_update_value in H. destruct H as [H | H]; [auto |].
  right. apply zip_snd_elem_of in H.
  apply elem_of_replicate in H. tauto.
Qed.

Lemma locate_fold_index_bound (x : TreeNeuron) (segs : list (list Z)) :
  Forall (seg_ok x) segs ->
  forall i st st',
    rfold_enum (locate_segment x) i segs st = Ok st' ->
    (forall n j, fst st !! n = Some j -> j < i) ->
    forall n j, fst st' !! n = Some j -> j < i + length segs.
Proof.
  induction 1 as [|seg segs (ws & Hws & Hlen) _ IH]; intros i st st' H Hst;
    simpl in H.
  - injection H as <-. intros n j Hj. apply Hst in Hj. simpl. lia.
  - rewrite (locate_segment_eq x st i seg ws Hws Hlen) in H. simpl in H.
    intros n j Hj. simpl length.
    assert (Hb : j < S i + length segs); [| lia].
    eapply (IH _ _ _ H); [| exact Hj].
    simpl. intros n' j' Hj'. apply dict_update_index_value in Hj'.
    destruct Hj' as [Hj' | ->]; [apply Hst in Hj' |]; lia.
Qed.

Lemma connect_segment_length (x : TreeNeuron) (tbl : list located_row)
    (secs secs' : list Section) (i : nat) (seg : list Z) :
  connect_segment x tbl secs i seg = Ok secs' -> length secs' = length secs.
Proof.
  intros H. unfold connect_segment in H. inv_ok.
  destruct (in_list a (root x)).
  - injection H as <-. reflexivity.
  - inv_ok. subst secs'. apply length_insert.
Qed.

(** What a run of [_generate_sections] that returns has built, on a tree. *)
Lemma generated_shape (x : TreeNeuron) (h : Z -> nat) (res : Q) (g : generated) :
  tree_shaped x h -> _generate_sections x res = Ok g ->
  length (g_sections g) = length (small_segments x) /\
  map row (g_nodes g) = nodes x /\
  sec_ix_is_int (g_nodes g) = true /\
  (forall r j, r ∈ g_nodes g -> sec_ix r = Some j -> j < length (g_sections g)).
Proof.
  intros Hts Hg.
  destruct (locate_nodes_keys x h Hts) as (n2s & n2p & Hloc & Hkeys).
  assert (Hbound : forall n j, n2s !! n = Some j -> j < length (small_segments x)).
  { intros n j Hj. unfold locate_nodes in Hloc.
    apply (locate_fold_index_bound x _ (small_segments_ok x h Hts)
             0 (∅, ∅) (n2s, n2p) Hloc) with (n := n); [| exact Hj].
    simpl. intros n' j' Hj'. rewrite lookup_empty in Hj'. discriminate. }
  unfold _generate_sections in Hg. rewrite Hloc in Hg. simpl in Hg.
  inv_ok. rename a into built, a0 into secs. subst g. simpl.
  assert (Hlen : length secs = length (small_segments x)).
  { apply rmapM_Forall2, Forall2_length in Ha. rewrite Ha.
    revert Ha0. generalize 0 at 1. intros i0 Ha0.
    eapply (rfold_enum_inv _ (fun l => length l = length built));
      [| reflexivity | exact Ha0].
    intros l i seg l' Hl Hstep.
    rewrite (connect_segment_length _ _ _ _ _ _ Hstep). exact Hl. }
  set (tbl := add_location_columns x (n2s, n2p)).
  assert (Hrows : forall r, r ∈ tbl ->
            sec_ix r = n2s !! node_id (row r) /\ row r ∈ nodes x).
  { intros r Hr. unfold tbl, add_location_columns in Hr.
    apply list_elem_of_In, in_map_iff in Hr. destruct Hr as (r0 & <- & Hr0).
    simpl. split; [reflexivity | apply list_elem_of_In; exact Hr0]. }
  split; [exact Hlen |]. split.
  { unfold tbl, add_location_columns. rewrite map_map. simpl. apply map_id. }
  split.
  { unfold sec_ix_is_int. apply forallb_forall. intros r Hr.
    apply list_elem_of_In in Hr. destruct (Hrows r Hr) as [Hix Hin].
    apply bool_decide_eq_true. rewrite Hix. apply (Hkeys (node_id (row r))).
    apply (list_elem_of_fmap_2 node_id). exact Hin. }
  intros r j Hr Hj. rewrite Hlen. destruct (Hrows r Hr) as [Hix _].
  eapply Hbound. rewrite <- Hix. exact Hj.
Qed.

(** X12.  A model that [__init__] has returned for a tree-shaped skeleton
    has one section per segment, held in an array; its node table is the
    skeleton's, row by row; its registries are empty; every row carries a
    section index that points into the section array; and the skeleton has
    a radius column without a radius [<= 0]. *)
Theorem X12_constructed_model_well_located (x : TreeNeuron) (h : Z -> nat)
    (res : Q) (m : Model) :
  tree_shaped x h -> snd (__init__ x res) = Ok m ->
  length (_sections m) = length (small_segments x) /\
  sections_ndarray m = true /\
  map row (skeleton_nodes m) = nodes x /\
  registries_empty m /\ well_located m /\ ~ bad_radius x.
Proof.
  intros Hts H. unfold __init__ in H. cbn [snd] in H.
  destruct (snd (_validate_skeleton x)) as [[]|e] eqn:Ev; [| discriminate].
  simpl in H. inv_ok. rename a into g. subst m. simpl.
  destruct (generated_shape x h res g Hts Ha) as (Hlen & Hrows & Hint & Hix).
  split; [exact Hlen |]. split; [reflexivity |]. split; [exact Hrows |].
  split; [repeat split |]. split; [split; [exact Hint | exact Hix] |].
  intros Hbad. apply validate_raises_iff in Hbad. destruct Hbad as [e He].
  congruence.
Qed.

Lemma X12_constructed_model_witness :
  length (_sections y_model) = length (small_segments y_skeleton) /\
  sections_ndarray y_model = true /\
  map row (skeleton_nodes y_model) = nodes y_skeleton /\
  registries_empty y_model /\ well_located y_model /\ ~ bad_radius y_skeleton.
Proof.
  apply (X12_constructed_model_well_located y_skeleton sample_height 1 y_model).
  - exact y_skeleton_tree.
  - vm_compute. reflexivity.
Defined.

(** ** Validation gates the construction *)

(** X15.  [_validate_skeleton] raises exactly when the radius column is
    missing or some radius compares [<= 0], always a ValueError, and
    [__init__] then raises that error without building anything; otherwise
    [__init__] goes on to [_generate_sections] and its result is the
    constructor's.  The warnings of the constructor are those of the
    validation: one for several roots, one for units other than microns;
    they change nothing else. *)
Theorem X15_validation_gates_construction (x : TreeNeuron) (res : Q) :
  ((exists e, snd (_validate_skeleton x) = Raise e) <-> bad_radius x) /\
  (forall e, snd (_validate_skeleton x) = Raise e ->
     (exists msg, e = ValueError msg) /\ snd (__init__ x res) = Raise e) /\
  (snd (_validate_skeleton x) = Ok tt ->
     snd (__init__ x res) =
       (g ← _generate_sections x res;
        Ok {| skeleton_nodes := g_nodes g; _sections := g_sections g;
              sections_ndarray := true;
              _stimuli := ∅; _records := ∅; _synapses := ∅;
              next_handle := 0; nrn_created := [] |})) /\
  fst (__init__ x res) = fst (_validate_skeleton x) /\
  (In WarnMultipleRoots (fst (__init__ x res)) <-> 1 < length (root x)) /\
  (In WarnUnits (fst (__init__ x res)) <->
   exists name, units x = Units name /\ name <> um).
Proof.
  split; [apply validate_raises_iff |].
  split.
  { intros e He. split; [eapply validate_raises_ValueError; eauto |].
    unfold __init__. cbn [snd]. rewrite He. reflexivity. }
  split.
  { intros Hok. unfold __init__. cbn [snd]. rewrite Hok. reflexivity. }
  split; [reflexivity |].
  change (fst (__init__ x res)) with (fst (_validate_skeleton x)).
  split.
  { unfold _validate_skeleton; simpl. rewrite in_app_iff.
    destruct (Nat.ltb_spec 1 (length (root x))) as [Hlt | Hge].
    - split; [intros _; exact Hlt | intros _; right; left; reflexivity].
    - split; [| lia].
      intros [Hin | Hin]; [| destruct Hin].
      destruct (units x); simpl in Hin; try tauto.
      destruct (String.eqb name um); simpl in Hin; [tauto |].
      destruct Hin as [Hin | []]; discriminate. }
  unfold _validate_skeleton; simpl. rewrite in_app_iff.
  split.
  - intros [Hin | Hin].
    + destruct (units x) as [| | name]; simpl in Hin; try tauto.
      destruct (String.eqb_spec name um); simpl in Hin; [tauto |].
      exists name; split; auto.
    + destruct (Nat.ltb 1 (length (root x))); simpl in Hin; [| tauto].
      destruct Hin as [Hin | []]; discriminate.
  - intros (name & -> & Hne). left.
    destruct (String.eqb_spec name um); [contradiction | left; reflexivity].
Qed.

(** Two fragments in nanometres: both warnings, and a model of two
    sections. *)
Lemma X15_two_fragment_witness :
  fst (__init__ two_fragment_skeleton 1) = [WarnUnits; WarnMultipleRoots] /\
  exists m, snd (__init__ two_fragment_skeleton 1) = Ok m /\
            length (_sections m) = 2.
Proof.
  destruct (X15_validation_gates_construction two_fragment_skeleton 1)
    as (_ & _ & Hgo & Hw & _).
  split; [rewrite Hw; reflexivity |].
  rewrite (Hgo eq_refl). vm_compute. eexists. split; reflexivity.
Defined.

(** ** Mechanisms after [clear] *)

(** X16.  After [clear] the sections are an empty Python list.  [insert]
    and [uninsert] with a falsy subset then return and change nothing; with
    a list of indices that is not empty they raise TypeError, a list taking
    no list as an index; with an index other than 0 they raise IndexError.
    The cleared model is left as it is in every case. *)
Theorem X16_mechanisms_after_clear (mechanism : string)
    (kwargs : list (string * Q)) (m : Model) :
  (forall subset, truthy subset = false ->
     insert mechanism subset kwargs (clear m) = (clear m, Ok tt) /\
     uninsert mechanism subset (clear m) = (clear m, Ok tt)) /\
  (forall i l,
     insert mechanism (SubList (i :: l)) kwargs (clear m)
       = (clear m, Raise TypeError) /\
     uninsert mechanism (SubList (i :: l)) (clear m)
       = (clear m, Raise TypeError)) /\
  (forall i, i <> 0%Z ->
     insert mechanism (SubInt i) kwargs (clear m) = (clear m, Raise IndexError) /\
     uninsert mechanism (SubInt i) (clear m) = (clear m, Raise IndexError)).
Proof.
  split; [| split].
  - intros subset Hf. unfold insert, uninsert, select_sections.
    rewrite Hf. simpl. split; reflexivity.
  - intros i l. split; reflexivity.
  - intros i Hi. unfold insert, uninsert, select_sections.
    assert (Ht : truthy (SubInt i) = true).
    { simpl. apply negb_true_iff, Z.eqb_neq. exact Hi. }
    rewrite Ht. simpl negb. cbv iota.
    assert (Hx : np_index (length (_sections (clear m))) i = Raise IndexError).
    { apply np_index_out_of_range. unfold out_of_range. simpl. lia. }
    rewrite Hx. split; reflexivity.
Qed.

Lemma X16_mechanisms_after_clear_witness :
  insert "pas" SubNone [] (clear y_model) = (clear y_model, Ok tt) /\
  insert "pas" (SubList [0%Z]) [] (clear y_model) = (clear y_model, Raise TypeError) /\
  insert "pas" (SubInt 1) [] (clear y_model) = (clear y_model, Raise IndexError).
Proof.
  destruct (X16_mechanisms_after_clear "pas" [] y_model) as (H1 & H2 & H3).
  split; [apply (H1 SubNone eq_refl) |].
  split; [apply (H2 0%Z []) |].
  apply (H3 1%Z). discriminate.
Defined.

(** ** The projection-neuron preset *)

Lemma insert_everywhere (mechanism : string) (kwargs : list (string * Q))
    (m : Model) :
  insert mechanism SubNone kwargs m =
  (set_sections (map (insert_section mechanism kwargs) (_sections m)) m, Ok tt).
Proof.
  unfold insert. rewrite (select_sections_falsy SubNone m eq_refl).
  rewrite (fold_apply_at_seq _ (_sections m) []). reflexivity.
Qed.


